(** * Mesh-house: the live mesh map of [main.py]

    A shallow embedding of the state tracking of [MeshVisualizer]
    (line parsing, node registration, layout, star edges, message history and
    the activity check) together with the properties stated about it.

    Conventions.
    - A Python [str] is a list of characters, [text]; a character is a code
      point below 256, so the tables of [str.isspace], [str.lower] and of the
      class [\d] are the ones of that range.
    - A naive [datetime] is the number of microseconds since a midnight;
      subtraction of two of them is subtraction in [Z].
    - A Python [float] is recorded as the expression that computes it
      ([float_expr]): the arithmetic of doubles is left uninterpreted, and a
      separate reading over the reals ([denote]) is used only where geometry is
      stated.
    - A [dict] is a [gmap]; an exception is the [Raise] branch of [result].
    - An [event] is what a method is called for: a line, a tick of the status
      timer, a click on an ellipse. The ellipses are movable, and a move with
      the mouse is a [gesture] of its own ([Mouse_move]): [run] has the events
      only, [run_gestures] has the moves as well.
    - A poll of the port is the list of the reads that succeeded, together
      with the way the port ended it ([port_end]). *)

From Stdlib Require Import ZArith NArith Ascii String List Lia Reals.
From Stdlib Require Import Lra.
From stdpp Require Import gmap strings list fin_maps.

Local Open Scope Z_scope.
#[local] Set Warnings "-clear-no-such-hyp".

(* ===================================================================== *)
(** * Text: the [str] methods used by [handle_line] *)
(* ===================================================================== *)

Abbreviation text := (list ascii).

Definition str (s : string) : text := list_ascii_of_string s.

(** Texts are the keys of the dicts; they are counted as strings are. *)
#[global] Instance text_countable : Countable text | 0 :=
  inj_countable' string_of_list_ascii list_ascii_of_string
    list_ascii_of_string_of_list_ascii.

Definition code (c : ascii) : N := N_of_ascii c.

(** [str.isspace] on one character. *)
Definition isspace (c : ascii) : bool :=
  let n := code c in
  (((9 <=? n) && (n <=? 13)) || ((28 <=? n) && (n <=? 32))
   || (n =? 133) || (n =? 160))%N.

(** The class [\d]. *)
Definition isdigit (c : ascii) : bool :=
  let n := code c in ((48 <=? n) && (n <=? 57))%N.

(** One character of [str.lower]. *)
Definition lower_char (c : ascii) : ascii :=
  let n := code c in
  if (((65 <=? n) && (n <=? 90))
      || ((192 <=? n) && (n <=? 222) && negb (n =? 215)))%N
  then ascii_of_N (n + 32) else c.

Definition lower (s : text) : text := map lower_char s.

Fixpoint startswith (p s : text) : bool :=
  match p, s with
  | [], _ => true
  | a :: p', b :: s' => if decide (a = b) then startswith p' s' else false
  | _ :: _, [] => false
  end.

Fixpoint lstrip (s : text) : text :=
  match s with
  | c :: s' => if isspace c then lstrip s' else s
  | [] => []
  end.

Definition rstrip (s : text) : text := rev (lstrip (rev s)).

(** [str.strip()] *)
Definition strip (s : text) : text := rstrip (lstrip s).

(** The longest prefix without a character satisfying [p], and what follows. *)
Fixpoint break_at (p : ascii -> bool) (s : text) : text * text :=
  match s with
  | [] => ([], [])
  | c :: s' =>
      if p c then ([], s)
      else let '(a, b) := break_at p s' in (c :: a, b)
  end.

(** [s.split(None, 1)]: leading whitespace is skipped, the first word is cut
    off, the whitespace after it is skipped and what is left, if anything, is
    the second part, kept as it is. *)
Definition split_ws_1 (s : text) : list text :=
  match lstrip s with
  | [] => []
  | w =>
      let '(word, rest) := break_at isspace w in
      match lstrip rest with
      | [] => [word]
      | rest' => [word; rest']
      end
  end.

(** [s.split(sep)] for a separator of one character. *)
Fixpoint split_on (sep : ascii) (s : text) : list text :=
  match s with
  | [] => [[]]
  | c :: s' =>
      if decide (c = sep) then [] :: split_on sep s'
      else match split_on sep s' with
           | f :: fs => (c :: f) :: fs
           | [] => [[c]]
           end
  end.

(** [s[-4:]] *)
Definition last4 (s : text) : text := skipn (length s - 4)%nat s.

(* ===================================================================== *)
(** * Regular expressions: the part of [re] that the pattern uses *)
(* ===================================================================== *)

(** The matcher is the backtracking one of [re]: [mtch] lists the ways to
    match at a position in the order in which [re] tries them, and the match
    returned is the first of them. *)

Inductive regex : Type :=
| Str (l : text)                                  (* literal characters *)
| Rep (p : ascii -> bool) (min : nat) (greedy : bool)
                                                  (* [p+] [p*] [p*?] ... *)
| Grp (n : nat) (r : regex)                       (* ( ... ), numbered *)
| Cat (r1 r2 : regex)
| Eos.                                            (* $ *)

Definition span : Type := nat * nat.
Definition captures : Type := list (nat * span).

(** A way to match: the groups set, the position reached, the text left. *)
Definition way : Type := captures * nat * text.

(** The positions reached by consuming 0, 1, 2, ... characters in [p]. *)
Fixpoint rep_ends (p : ascii -> bool) (i : nat) (s : text) : list (nat * text) :=
  (i, s) :: match s with
            | c :: s' => if p c then rep_ends p (S i) s' else []
            | [] => []
            end.

(** [$]: at the end, or just before a newline that ends the text. *)
Definition at_end (s : text) : bool :=
  match s with
  | [] => true
  | [c] => if decide (c = "010"%char) then true else false
  | _ => false
  end.

Fixpoint mtch (r : regex) (i : nat) (s : text) : list way :=
  match r with
  | Str l =>
      if startswith l s then [([], (i + length l)%nat, skipn (length l) s)]
      else []
  | Rep p min greedy =>
      let ends := skipn min (rep_ends p i s) in
      map (fun e : nat * text => ([], e.1, e.2))
          (if greedy then rev ends else ends)
  | Grp n r1 =>
      map (fun w : way => ((n, (i, w.1.2)) :: w.1.1, w.1.2, w.2)) (mtch r1 i s)
  | Cat r1 r2 =>
      flat_map (fun w1 : way =>
                  map (fun w2 : way => (w1.1.1 ++ w2.1.1, w2.1.2, w2.2))
                      (mtch r2 w1.1.2 w1.2))
               (mtch r1 i s)
  | Eos => if at_end s then [([], i, s)] else []
  end.

(** A match object: the text searched and the spans of its groups. *)
Record re_match : Type := Match { subject : text; groups : captures }.

Fixpoint group_span (g : captures) (n : nat) : option span :=
  match g with
  | [] => None
  | (k, sp) :: g' => if decide (k = n) then Some sp else group_span g' n
  end.

Definition slice (s : text) (sp : span) : text :=
  firstn (sp.2 - sp.1)%nat (skipn sp.1 s).

(** [m.group(n)]; [None] for a group that took no part in the match. *)
Definition group (m : re_match) (n : nat) : option text :=
  slice (subject m) <$> group_span (groups m) n.

(** [re.search]: the first start position, from the left, with a match. *)
Fixpoint search_from (r : regex) (whole : text) (i : nat) (s : text)
  : option re_match :=
  match mtch r i s with
  | w :: _ => Some (Match whole w.1.1)
  | [] => match s with
          | [] => None
          | _ :: s' => search_from r whole (S i) s'
          end
  end.

Definition re_search (r : regex) (line : text) : option re_match :=
  search_from r line 0%nat line.

(** [.] *)
Definition dot (c : ascii) : bool :=
  if decide (c = "010"%char) then false else true.

(** [[\da-f:]] *)
Definition addr_char (c : ascii) : bool :=
  let n := code c in
  (isdigit c || ((97 <=? n) && (n <=? 102)) || (n =? 58))%N.

(** [r"from ([\da-f:]+).*? (.+)$"] *)
Definition line_re : regex :=
  Cat (Str (str "from "))
 (Cat (Grp 1 (Rep addr_char 1 true))
 (Cat (Rep dot 0 false)
 (Cat (Str (str " "))
 (Cat (Grp 2 (Rep dot 1 true))
      Eos)))).

(* ===================================================================== *)
(** * Numbers: floats, points, times *)
(* ===================================================================== *)

(** A float, as the expression that computes it. *)
Inductive float_expr : Type :=
| F_int (z : Z)                      (* an [int] used as a float *)
| F_add (a b : float_expr)
| F_mul (a b : float_expr)
| F_div (a b : float_expr)           (* true division [/] *)
| F_cos (a : float_expr)             (* [math.cos] *)
| F_sin (a : float_expr)             (* [math.sin] *)
| F_radians (a : float_expr).        (* [math.radians] *)

(** The real number an expression stands for when every operation is exact. *)
Fixpoint denote (e : float_expr) : R :=
  match e with
  | F_int z => IZR z
  | F_add a b => (denote a + denote b)%R
  | F_mul a b => (denote a * denote b)%R
  | F_div a b => (denote a / denote b)%R
  | F_cos a => cos (denote a)
  | F_sin a => sin (denote a)
  | F_radians a => (denote a * PI / 180)%R
  end.

Record point : Type := QPointF { px : float_expr; py : float_expr }.

(** [p + q] on [QPointF] *)
Definition point_add (p q : point) : point :=
  QPointF (F_add (px p) (px q)) (F_add (py p) (py q)).

(** CONFIG *)
Definition NODE_RADIUS : Z := 30.
Definition CENTER_POS : point := QPointF (F_int 450) (F_int 300).
Definition MAX_NODES : Z := 12.
Definition INACTIVE_TIMEOUT : Z := 15.  (* seconds *)

(** [delta.total_seconds() > secs] for a difference of [d] microseconds: the
    quotient [d / 10^6] is rounded to the nearest double, which keeps the
    order with the whole number [secs]. *)
Definition total_seconds_gt (d secs : Z) : bool := secs * 1000000 <? d.

Definition digit (n : Z) : ascii := ascii_of_N (48 + Z.to_N n).

Definition two_digits (n : Z) : text := [digit (n / 10); digit (n mod 10)].

(** [t.strftime("%H:%M:%S")] *)
Definition strftime_HMS (t : Z) : text :=
  let secs := (t / 1000000) mod 86400 in
  two_digits (secs / 3600) ++ str ":" ++ two_digits ((secs / 60) mod 60)
    ++ str ":" ++ two_digits (secs mod 60).

(* ===================================================================== *)
(** * Exceptions *)
(* ===================================================================== *)

Inductive exn : Type :=
| KeyError (k : text)
| IndexError
| AttributeError.

Inductive result (A : Type) : Type :=
| Ok (a : A)
| Raise (e : exn).
Arguments Ok {A} a.
Arguments Raise {A} e.

#[global] Instance result_ret : MRet result := fun A a => Ok a.
#[global] Instance result_bind : MBind result := fun A B f r =>
  match r with
  | Ok a => f a
  | Raise e => Raise e
  end.

(** [d[k]] *)
Definition subscript {V : Type} (d : gmap text V) (k : text) : result V :=
  match d !! k with
  | Some v => Ok v
  | None => Raise (KeyError k)
  end.

(** [l[i]] *)
Definition index {A : Type} (l : list A) (i : nat) : result A :=
  match l !! i with
  | Some v => Ok v
  | None => Raise IndexError
  end.

(** A method called on the value of [m.group(n)], which is [None] for a group
    that took no part. *)
Definition group_text (m : re_match) (n : nat) : result text :=
  match group m n with
  | Some t => Ok t
  | None => Raise AttributeError
  end.

(* ===================================================================== *)
(** * The state of [MeshVisualizer] *)
(* ===================================================================== *)

Inductive color : Type := Orange | Skyblue | Red | Lime.

(** [QGraphicsEllipseItem(0, 0, NODE_RADIUS, NODE_RADIUS)] with its brush,
    its position and [data(0)]. *)
Record ellipse_item : Type := Ellipse {
  brush : color;
  item_pos : point;
  item_data : text;
}.

Record text_item : Type := Label { label_text : text; label_pos : point }.

Record line_item : Type := Line {
  line_x1 : float_expr; line_y1 : float_expr;
  line_x2 : float_expr; line_y2 : float_expr;
  pen_color : color; pen_width : Z;
}.

(** What the scene holds. An ellipse is the object kept in [nodes] under its
    address, so the scene names it by that address. *)
Inductive scene_item : Type :=
| Scene_node (addr : text)
| Scene_label (l : text_item)
| Scene_line (l : line_item).

(** A [MessageDialog]: its title and the rows of its table. *)
Record message_dialog : Type := Dialog {
  window_title : text;
  table : list (text * text);
}.

Record visualizer : Type := Visualizer {
  scene : list scene_item;
  nodes : gmap text (ellipse_item * text_item);   (* addr -> (ellipse, label) *)
  positions : gmap text point;                    (* addr -> QPointF *)
  edges : gmap text line_item;                    (* addr -> QGraphicsLineItem *)
  center_node : option text;
  message_logs : gmap text (list (text * text));  (* addr -> [(timestamp, message)] *)
  dialogs : gmap text message_dialog;             (* addr -> MessageDialog *)
  last_seen : gmap text Z;                        (* addr -> datetime *)
}.

#[global] Instance float_expr_eq_dec : EqDecision float_expr.
Proof. solve_decision. Defined.
#[global] Instance point_eq_dec : EqDecision point.
Proof. solve_decision. Defined.
#[global] Instance color_eq_dec : EqDecision color.
Proof. solve_decision. Defined.
#[global] Instance text_item_eq_dec : EqDecision text_item.
Proof. solve_decision. Defined.
#[global] Instance line_item_eq_dec : EqDecision line_item.
Proof. solve_decision. Defined.
#[global] Instance scene_item_eq_dec : EqDecision scene_item.
Proof. solve_decision. Defined.

Definition set_scene (f : list scene_item -> list scene_item) (st : visualizer) :=
  Visualizer (f (scene st)) (nodes st) (positions st) (edges st)
    (center_node st) (message_logs st) (dialogs st) (last_seen st).
Definition set_nodes (f : gmap text (ellipse_item * text_item) ->
                          gmap text (ellipse_item * text_item)) (st : visualizer) :=
  Visualizer (scene st) (f (nodes st)) (positions st) (edges st)
    (center_node st) (message_logs st) (dialogs st) (last_seen st).
Definition set_positions (f : gmap text point -> gmap text point) (st : visualizer) :=
  Visualizer (scene st) (nodes st) (f (positions st)) (edges st)
    (center_node st) (message_logs st) (dialogs st) (last_seen st).
Definition set_edges (f : gmap text line_item -> gmap text line_item) (st : visualizer) :=
  Visualizer (scene st) (nodes st) (positions st) (f (edges st))
    (center_node st) (message_logs st) (dialogs st) (last_seen st).
Definition set_center_node (c : option text) (st : visualizer) :=
  Visualizer (scene st) (nodes st) (positions st) (edges st)
    c (message_logs st) (dialogs st) (last_seen st).
Definition set_message_logs (f : gmap text (list (text * text)) ->
                                 gmap text (list (text * text))) (st : visualizer) :=
  Visualizer (scene st) (nodes st) (positions st) (edges st)
    (center_node st) (f (message_logs st)) (dialogs st) (last_seen st).
Definition set_dialogs (f : gmap text message_dialog -> gmap text message_dialog)
    (st : visualizer) :=
  Visualizer (scene st) (nodes st) (positions st) (edges st)
    (center_node st) (message_logs st) (f (dialogs st)) (last_seen st).
Definition set_last_seen (f : gmap text Z -> gmap text Z) (st : visualizer) :=
  Visualizer (scene st) (nodes st) (positions st) (edges st)
    (center_node st) (message_logs st) (dialogs st) (f (last_seen st)).

(** [scene.removeItem(item)]: the item leaves the scene once. *)
Fixpoint remove_item (x : scene_item) (l : list scene_item) : list scene_item :=
  match l with
  | [] => []
  | y :: l' => if decide (x = y) then l' else y :: remove_item x l'
  end.

(* ===================================================================== *)
(** * The methods of [MeshVisualizer] *)
(* ===================================================================== *)

(** The state of [__init__] before the leader is added. *)
Definition empty_visualizer : visualizer :=
  Visualizer [] ∅ ∅ ∅ None ∅ ∅ ∅.

(** [self.leader_addr] *)
Definition leader_addr : text := str "fd58:47f8:cd8:54c4:0:ff:fe00:fc00".

(** [NODE_RADIUS/2] *)
Definition half_radius : float_expr := F_div (F_int NODE_RADIUS) (F_int 2).

(** The line item of [draw_connection] from [src] to [dst]. *)
Definition connection_line (src dst : point) : line_item :=
  Line (F_add (px src) half_radius) (F_add (py src) half_radius)
       (F_add (px dst) half_radius) (F_add (py dst) half_radius)
       Lime 2.

(** [draw_connection] *)
Definition draw_connection (addr : text) (st : visualizer) : result visualizer :=
  match center_node st with
  | None => Ok st
  | Some center =>
      if decide (addr = center) then Ok st
      else
        src ← subscript (positions st) addr;
        dst ← subscript (positions st) center;
        let line := connection_line src dst in
        let st1 :=
          match edges st !! addr with
          | Some old => set_scene (remove_item (Scene_line old)) st
          | None => st
          end in
        let st2 := set_edges <[addr := line]> st1 in
        Ok (set_scene (fun sc => sc ++ [Scene_line line]) st2)
  end.

(** The position on the circle given to a node that arrives when [order]
    nodes are registered. *)
Definition circle_pos (order : nat) : point :=
  let angle := F_mul (F_int (Z.of_nat order))
                     (F_div (F_int 360) (F_int MAX_NODES)) in
  let radius := F_int 200 in
  let x := F_add (px CENTER_POS) (F_mul radius (F_cos (F_radians angle))) in
  let y := F_add (py CENTER_POS) (F_mul radius (F_sin (F_radians angle))) in
  QPointF x y.

(** [add_node] *)
Definition add_node (addr : text) (st : visualizer) : result visualizer :=
  match nodes st !! addr with
  | Some _ => Ok st
  | None =>
      let '(pos, st1) :=
        match center_node st with
        | None => (CENTER_POS, set_center_node (Some addr) st)
        | Some _ => (circle_pos (size (nodes st)), st)
        end in
      let color :=
        if decide (center_node st1 = Some addr) then Orange else Skyblue in
      let node := Ellipse color pos addr in
      let label :=
        Label (last4 addr)
              (point_add pos (QPointF (F_int (NODE_RADIUS + 5)) (F_int (-5)))) in
      let st2 := set_scene (fun sc => sc ++ [Scene_node addr; Scene_label label]) st1 in
      let st3 := set_nodes <[addr := (node, label)]> st2 in
      let st4 := set_positions <[addr := pos]> st3 in
      if decide (center_node st4 = Some addr) then Ok st4
      else draw_connection addr st4
  end.

(** [MessageDialog.add_message] *)
Definition dialog_add_message (timestamp message : text) (d : message_dialog)
  : message_dialog :=
  Dialog (window_title d) (table d ++ [(timestamp, message)]).

(** [add_message] *)
Definition add_message (addr timestamp message : text) (st : visualizer)
  : visualizer :=
  let st1 :=
    match message_logs st !! addr with
    | None => set_message_logs <[addr := []]> st
    | Some _ => st
    end in
  let st2 :=
    set_message_logs (alter (fun l => l ++ [(timestamp, message)]) addr) st1 in
  match dialogs st2 !! addr with
  | Some _ => set_dialogs (alter (dialog_add_message timestamp message) addr) st2
  | None => st2
  end.

(** Lines 132 to 138 of [handle_line], the patch for simulated nodes: the
    address and the message that the rest of [handle_line] goes on with. *)
Definition simulate_patch (node_addr message : text) : result (text * text) :=
  if startswith (str "simulate:") (lower message) then
    let parts := split_ws_1 message in
    if decide (length parts = 2%nat) then
      p0 ← index parts 0;
      sim_id ← index (split_on ":" p0) 1;
      p1 ← index parts 1;
      Ok (str "fd58:sim::" ++ sim_id, p1)
    else Ok (node_addr, message)
  else Ok (node_addr, message).

(** Lines 127 to 138 of [handle_line]: the address and the message of a line;
    [None] for a line without a match. *)
Definition parse_line (line : text) : result (option (text * text)) :=
  match re_search line_re line with
  | None => Ok None
  | Some m =>
      node_addr ← group_text m 1;
      g2 ← group_text m 2;
      let message := strip g2 in
      am ← simulate_patch node_addr message;
      Ok (Some am)
  end.

(** Lines 140 to 143 of [handle_line]; the clock is read twice, for the time
    stamp of the message ([t_stamp]) and for [last_seen] ([t_seen]). *)
Definition ingest (node_addr message : text) (t_stamp t_seen : Z)
    (st : visualizer) : result visualizer :=
  let timestamp := strftime_HMS t_stamp in
  st1 ← add_node node_addr st;
  let st2 := add_message node_addr timestamp message st1 in
  Ok (set_last_seen <[node_addr := t_seen]> st2).

(** [handle_line] *)
Definition handle_line (line : text) (t_stamp t_seen : Z) (st : visualizer)
  : result visualizer :=
  parsed ← parse_line line;
  match parsed with
  | None => Ok st
  | Some (node_addr, message) => ingest node_addr message t_stamp t_seen st
  end.

(** [node.setBrush(QBrush(QColor(c)))] *)
Definition set_brush (c : color) (node : ellipse_item) : ellipse_item :=
  Ellipse c (item_pos node) (item_data node).

(** The body of the loop of [check_node_activity] for one entry of [nodes]. *)
Definition check_one (st : visualizer) (now : Z) (addr : text)
    (entry : ellipse_item * text_item) : ellipse_item * text_item :=
  if decide (center_node st = Some addr) then entry
  else
    match last_seen st !! addr with
    | Some last_time =>
        let delta := now - last_time in
        if total_seconds_gt delta INACTIVE_TIMEOUT
        then (set_brush Red entry.1, entry.2)
        else (set_brush Skyblue entry.1, entry.2)
    | None => entry
    end.

(** [check_node_activity], with the clock read as [now]. Each round of the
    loop changes the brush of its own node only. *)
Definition check_node_activity (now : Z) (st : visualizer) : visualizer :=
  set_nodes (map_imap (fun addr entry => Some (check_one st now addr entry))) st.

(** The handler made by [make_node_click_handler addr]. *)
Definition click_handler (addr : text) (st : visualizer) : visualizer :=
  match dialogs st !! addr with
  | None =>
      let dlg0 := Dialog (str "Messages from " ++ last4 addr) [] in
      let dlg :=
        foldl (fun d (r : text * text) => dialog_add_message r.1 r.2 d)
              dlg0 (default [] (message_logs st !! addr)) in
      set_dialogs <[addr := dlg]> st
  | Some _ => st
  end.

(** [__init__]: empty tables, then the leader. *)
Definition init : result visualizer := add_node leader_addr empty_visualizer.

(** What happens to a visualizer: a line reaches [handle_line], the status
    timer fires, or a node that is on the scene is clicked. *)
Inductive event : Type :=
| Line_read (line : text) (t_stamp t_seen : Z)
| Status_timer (now : Z)
| Mouse_press (addr : text).

Definition step (ev : event) (st : visualizer) : result visualizer :=
  match ev with
  | Line_read line t_stamp t_seen => handle_line line t_stamp t_seen st
  | Status_timer now => Ok (check_node_activity now st)
  | Mouse_press addr =>
      match nodes st !! addr with
      | Some _ => Ok (click_handler addr st)
      | None => Ok st
      end
  end.

Fixpoint run (evs : list event) (st : visualizer) : result visualizer :=
  match evs with
  | [] => Ok st
  | ev :: evs' => st' ← step ev st; run evs' st'
  end.

(** The visualizer after [__init__] and the events [evs]. *)
Definition run_init (evs : list event) : result visualizer :=
  st ← init; run evs st.

(** ** Readings of the state *)

(** [message_logs.get(addr, [])] *)
Definition history (st : visualizer) (addr : text) : list (text * text) :=
  default [] (message_logs st !! addr).

(** A node is shown active unless its brush is red. *)
Definition active (node : ellipse_item) : bool :=
  if decide (brush node = Red) then false else true.

(** [addr == self.center_node] *)
Definition is_leader (st : visualizer) (addr : text) : Prop :=
  center_node st = Some addr.

#[global] Instance is_leader_dec st addr : Decision (is_leader st addr).
Proof. unfold is_leader. apply _. Defined.

(** The address under which an event registers, if it is a line that
    [handle_line] accepts. *)
Definition arrival (ev : event) : option text :=
  match ev with
  | Line_read line _ _ =>
      match parse_line line with
      | Ok (Some (addr, _)) => Some addr
      | _ => None
      end
  | _ => None
  end.

(** The addresses of the accepted lines, in the order of arrival. *)
Definition arrivals (evs : list event) : list text := omap arrival evs.

(** The layout as a function of the order of arrival alone: the leader at the
    centre, every later address at the place of the number of addresses before
    it. *)
Definition place_next (m : gmap text point) (addr : text) : gmap text point :=
  match m !! addr with
  | Some _ => m
  | None => <[addr := circle_pos (size m)]> m
  end.

(** The positions after the leader and the arrivals [addrs]. *)
Definition layout_of (addrs : list text) : gmap text point :=
  foldl place_next {[ leader_addr := CENTER_POS ]} addrs.

(** The line items and the ellipses of a scene. *)
Definition scene_lines (sc : list scene_item) : list line_item :=
  omap (fun it => match it with Scene_line l => Some l | _ => None end) sc.

Definition scene_nodes (sc : list scene_item) : list text :=
  omap (fun it => match it with Scene_node a => Some a | _ => None end) sc.

(** ** The invariant of the states reached from [__init__] *)

Record star (st : visualizer) : Prop := Star {
  star_center : center_node st = Some leader_addr;
  star_leader :
    ∃ label, nodes st !! leader_addr
             = Some (Ellipse Orange CENTER_POS leader_addr, label);
  star_leader_pos : positions st !! leader_addr = Some CENTER_POS;
  star_leader_edge : edges st !! leader_addr = None;
  star_dom_positions : dom (positions st) = dom (nodes st);
  star_dom_edges : dom (edges st) = dom (nodes st) ∖ {[ leader_addr ]};
  star_edge :
    ∀ addr p, addr ≠ leader_addr → positions st !! addr = Some p →
              edges st !! addr = Some (connection_line p CENTER_POS);
  star_scene_lines : scene_lines (scene st) ≡ₚ (map_to_list (edges st)).*2;
  star_scene_nodes : scene_nodes (scene st) ≡ₚ elements (dom (nodes st));
  star_seen :
    ∀ addr, addr ≠ leader_addr → is_Some (nodes st !! addr) →
            is_Some (last_seen st !! addr);
  star_circle :
    ∀ addr p, addr ≠ leader_addr → positions st !! addr = Some p →
              ∃ order, p = circle_pos order;
  star_dialogs : dom (dialogs st) ⊆ dom (nodes st);
  star_logs : dom (message_logs st) ⊆ dom (nodes st);
  star_brush :
    ∀ addr node label, addr ≠ leader_addr →
      nodes st !! addr = Some (node, label) →
      (brush node = Skyblue ∨ brush node = Red)
      ∧ positions st !! addr = Some (item_pos node);
}.

(* ===================================================================== *)
(** * Notions used in the statements and in their proofs *)
(* ===================================================================== *)

(** The state left by [add_node] for an address that is not registered, in a
    state that has its leader. *)
Definition registered (addr : text) (pc : point) (st : visualizer) : visualizer :=
  let pos := circle_pos (size (nodes st)) in
  let label :=
    Label (last4 addr)
          (point_add pos (QPointF (F_int (NODE_RADIUS + 5)) (F_int (-5)))) in
  let line := connection_line pos pc in
  Visualizer
    (match edges st !! addr with
     | Some old =>
         remove_item (Scene_line old)
           (scene st ++ [Scene_node addr; Scene_label label])
     | None => scene st ++ [Scene_node addr; Scene_label label]
     end ++ [Scene_line line])
    (<[addr := (Ellipse Skyblue pos addr, label)]> (nodes st))
    (<[addr := pos]> (positions st))
    (<[addr := line]> (edges st))
    (center_node st) (message_logs st) (dialogs st) (last_seen st).

(** The parts of [line_re], from the right. *)
Definition re_text : regex := Cat (Grp 2 (Rep dot 1 true)) Eos.
Definition re_space : regex := Cat (Str (str " ")) re_text.
Definition re_gap : regex := Cat (Rep dot 0 false) re_space.
Definition re_addr : regex := Cat (Grp 1 (Rep addr_char 1 true)) re_gap.

(** The characters up to the first newline, and what follows. *)
Definition dot_run (s : text) : text * text :=
  break_at (fun c => negb (dot c)) s.

(** [(.+)$] matches here. *)
Definition text_ok (s : text) : bool :=
  match s with
  | c :: s' => dot c && at_end (dot_run s').2
  | [] => false
  end.

(** The space of the pattern, U+0020. *)
Definition is_space_char (c : ascii) : bool :=
  if decide (c = " "%char) then true else false.

(** A character that the gap can hold before the space that ends it. *)
Definition gap_char (c : ascii) : bool := dot c && negb (is_space_char c).

(** The ways of [(.+)$] for a group that starts at [i0] and ends at [e]. *)
Definition text_way (i0 : nat) (e : nat * text) : list way :=
  if at_end e.2 then [([(2%nat, (i0, e.1))], e.1, e.2)] else [].

(** The ways of the pattern after an address that starts at [i0] and ends at
    [e]. *)
Definition addr_way (i0 : nat) (e : nat * text) : list way :=
  map (fun w2 : way => ((1%nat, (i0, e.1)) :: w2.1.1, w2.1.2, w2.2))
      (mtch re_gap e.1 e.2).

(** What a match of [line_re] looks like. *)
Record line_parts (line : text) (m : re_match)
    (pre addr gap txt tl : text) : Prop := Line_parts {
  parts_line : line = pre ++ str "from " ++ addr ++ gap ++ " "%char :: txt ++ tl;
  parts_addr : addr ≠ [] ∧ forallb addr_char addr = true;
  parts_addr_max : match gap with c :: _ => addr_char c = false | [] => True end;
  parts_gap : forallb gap_char gap = true;
  parts_txt : txt ≠ [] ∧ forallb dot txt = true;
  parts_tl : at_end tl = true;
  parts_subject : subject m = line;
  parts_groups :
    groups m =
      [(1%nat, ((length pre + 5)%nat, (length pre + 5 + length addr)%nat));
       (2%nat, ((length pre + 5 + length addr + length gap + 1)%nat,
                (length pre + 5 + length addr + length gap + 1
                 + length txt)%nat))];
}.

(** The records that an event appends to the history of [addr]. *)
Definition logged (addr : text) (ev : event) : list (text * text) :=
  match ev with
  | Line_read line t_stamp _ =>
      match parse_line line with
      | Ok (Some (a, message)) =>
          if decide (addr = a) then [(strftime_HMS t_stamp, message)] else []
      | _ => []
      end
  | _ => []
  end.

(** The result of a call that returned. *)
Definition state_of (r : result visualizer) : visualizer :=
  match r with
  | Ok st => st
  | Raise _ => empty_visualizer
  end.

(** The call returned. *)
Definition is_ok (r : result visualizer) : bool :=
  match r with
  | Ok _ => true
  | Raise _ => false
  end.

(** Read over the reals, [p] lies on the circle of radius 200 around the
    centre. *)
Definition on_circle (p : point) : Prop :=
  ((denote (px p) - denote (px CENTER_POS)) ^ 2
   + (denote (py p) - denote (py CENTER_POS)) ^ 2 = 200 ^ 2)%R.

(** Eleven lines from eleven addresses: with the leader, [MAX_NODES] nodes. *)
Definition full_house : list event :=
  map (fun c : ascii => Line_read (str "8 bytes from fd00::" ++ [c] ++ str " ping") 0 0)
      (str "123456789ab").

(** One more line from one more address: thirteen nodes. *)
Definition crowded_house : list event :=
  full_house ++ [Line_read (str "8 bytes from fd00::c ping") 0 0].

(** [elapsed <= INACTIVE_TIMEOUT], for times in microseconds. *)
Definition within_timeout (now last_time : Z) : bool :=
  bool_decide (now - last_time ≤ INACTIVE_TIMEOUT * 1000000).

(** The classification as the statement words it: a node without
    [last_seen] has waited for ever and is stale. *)
Definition tick_active_stated (now : Z) (last : option Z) : bool :=
  match last with
  | Some last_time => within_timeout now last_time
  | None => false
  end.

(** A visualizer on which [add_node] was called for a second address that
    has not sent a line. *)
Definition with_silent_node : result visualizer :=
  st ← init; add_node (str "fd00::2") st.

(** The line of the example, with the directive right after the address and
    with ["says"] before it. *)
Definition line_direct : text :=
  str "... from fd00::1 simulate:alpha hello world".

Definition line_says : text :=
  str "... from fd00::1 says simulate:alpha hello world".

(** The text between the address and the space before the message. *)
Definition gap_of (m : re_match) : option text :=
  match group_span (groups m) 1, group_span (groups m) 2 with
  | Some (_, e1), Some (b2, _) => Some (slice (subject m) (e1, (b2 - 1)%nat))
  | _, _ => None
  end.

(** What follows the address in the line. *)
Definition after_address (m : re_match) : text :=
  match group_span (groups m) 1 with
  | Some (_, e1) => skipn e1 (subject m)
  | None => []
  end.

(** The remainder of [s] after its first whitespace character, as the
    statement words it. *)
Definition after_first_whitespace (s : text) : text :=
  match (break_at isspace s).2 with
  | _ :: rest => rest
  | [] => []
  end.

(** The match object of a search that found one. *)
Definition the_match (o : option re_match) : re_match :=
  default (Match [] []) o.

(** A line with a tab between the address and ["says"]. *)
Definition line_tab : text :=
  str "from fd00::1" ++ ["009"%char] ++ str "says hi there".

(** The address and the message of a line, as strings, for the examples. *)
Definition parsed (s : string) : option (string * string) :=
  match parse_line (str s) with
  | Ok (Some (a, m)) => Some (string_of_list_ascii a, string_of_list_ascii m)
  | _ => None
  end.

(* ===================================================================== *)
(** * The window: serial port, input bar, response label *)
(* ===================================================================== *)

(** [s.encode()], UTF-8, one character. *)
Definition utf8_char (c : ascii) : list Byte.byte :=
  let n := code c in
  if (n <? 128)%N then [byte_of_ascii c]
  else [byte_of_ascii (ascii_of_N (192 + n / 64));
        byte_of_ascii (ascii_of_N (128 + n mod 64))].

Definition encode (s : text) : list Byte.byte := flat_map utf8_char s.

(** ['\n'.join(lines)] *)
Fixpoint join_lines (lines : list text) : text :=
  match lines with
  | [] => []
  | [l] => l
  | l :: rest => l ++ "010"%char :: join_lines rest
  end.

(** How the port ends a poll: nothing more is waiting, or [in_waiting] or
    [readline] raises (the device was unplugged, say) with the text [what]. *)
Inductive port_end : Type :=
| Port_idle
| Port_raises (what : text).

(** What the [except] branch of [read_serial] catches: an exception of the
    port, or one that comes out of [handle_line]. *)
Inductive caught : Type :=
| From_port (what : text)
| From_handle_line (e : exn).

(** What [print] wrote. *)
Inductive console_line : Type :=
| Printed_sent (command : text)          (* f"Sent: {command}" *)
| Printed_serial_error (e : caught).     (* f"Serial error: {e}" *)

(** The visualizer with the widgets and the port that [read_serial] and the
    two send methods use. [serial_out] lists what [serial.write] was given. *)
Record window : Type := Window {
  visualizer_of : visualizer;
  serial_is_open : bool;
  serial_out : list (list Byte.byte);
  input_bar : text;
  response_text : text;                  (* command_response_label *)
  response_shown : bool;
  console : list console_line;
}.

(** [send_command] *)
Definition send_command (command : text) (w : window) : window :=
  if serial_is_open w then
    Window (visualizer_of w) (serial_is_open w)
      (serial_out w ++ [encode (command ++ ["013"%char; "010"%char])])
      (input_bar w) (response_text w) (response_shown w)
      (console w ++ [Printed_sent command])
  else w.

(** [input_bar.clear()] *)
Definition clear_input_bar (w : window) : window :=
  Window (visualizer_of w) (serial_is_open w) (serial_out w) []
    (response_text w) (response_shown w) (console w).

(** [send_serial_command] *)
Definition send_serial_command (w : window) : window :=
  let command := strip (input_bar w) in
  match command with
  | [] => w
  | _ => clear_input_bar (send_command command w)
  end.

(** The state in which [add_node] leaves the visualizer when
    [draw_connection] raises: the node and its position are recorded, no line
    is drawn ([draw_connection] raises before it changes anything). *)
Definition add_node_unfinished (addr : text) (st : visualizer) : visualizer :=
  match nodes st !! addr with
  | Some _ => st
  | None =>
      let '(pos, st1) :=
        match center_node st with
        | None => (CENTER_POS, set_center_node (Some addr) st)
        | Some _ => (circle_pos (size (nodes st)), st)
        end in
      let color :=
        if decide (center_node st1 = Some addr) then Orange else Skyblue in
      let node := Ellipse color pos addr in
      let label :=
        Label (last4 addr)
              (point_add pos (QPointF (F_int (NODE_RADIUS + 5)) (F_int (-5)))) in
      let st2 := set_scene (fun sc => sc ++ [Scene_node addr; Scene_label label]) st1 in
      let st3 := set_nodes <[addr := (node, label)]> st2 in
      set_positions <[addr := pos]> st3
  end.

(** The state in which [handle_line] leaves the visualizer when it raises:
    nothing is changed before [add_node], and nothing raises after it. *)
Definition handle_line_unfinished (line : text) (st : visualizer) : visualizer :=
  match parse_line line with
  | Ok (Some (node_addr, _)) => add_node_unfinished node_addr st
  | _ => st
  end.

(** How the [try] block of [read_serial] ends. *)
Inductive loop_end : Type :=
| Loop_done (lines : list text) (st : visualizer)
| Loop_raised (e : caught) (st : visualizer).

(** The loop of [read_serial]. An element of [input] is what one
    [readline().decode(errors='ignore')] gave while [in_waiting] held, with
    the two clock readings that [handle_line] makes for it; [ending] is what
    the port does after these reads: [in_waiting] is 0 and the loop is left,
    or [in_waiting] or [readline] raises and the [try] block is left. *)
Fixpoint read_loop (input : list (text * Z * Z)) (ending : port_end)
    (lines : list text) (st : visualizer) : loop_end :=
  match input with
  | [] =>
      match ending with
      | Port_idle => Loop_done lines st
      | Port_raises what => Loop_raised (From_port what) st
      end
  | (raw, t_stamp, t_seen) :: rest =>
      let line := strip raw in
      match line with
      | [] => read_loop rest ending lines st
      | _ =>
          match handle_line line t_stamp t_seen st with
          | Ok st' => read_loop rest ending (lines ++ [line]) st'
          | Raise e =>
              Loop_raised (From_handle_line e) (handle_line_unfinished line st)
          end
      end
  end.

(** [read_serial] *)
Definition read_serial (input : list (text * Z * Z)) (ending : port_end)
    (w : window) : window :=
  match read_loop input ending [] (visualizer_of w) with
  | Loop_done lines st =>
      match lines with
      | [] =>
          Window st (serial_is_open w) (serial_out w) (input_bar w)
            (response_text w) (response_shown w) (console w)
      | _ =>
          Window st (serial_is_open w) (serial_out w) (input_bar w)
            (join_lines lines) true (console w)
      end
  | Loop_raised e st =>
      Window st (serial_is_open w) (serial_out w) (input_bar w)
        (response_text w) (response_shown w)
        (console w ++ [Printed_serial_error e])
  end.

(** The events that [read_serial] hands to [handle_line]. *)
Definition handled (input : list (text * Z * Z)) : list event :=
  omap (fun r : text * Z * Z =>
          match strip r.1.1 with
          | [] => None
          | line => Some (Line_read line r.1.2 r.2)
          end) input.

(** The lines that [read_serial] shows. *)
Definition shown_lines (input : list (text * Z * Z)) : list text :=
  omap (fun r : text * Z * Z =>
          match strip r.1.1 with [] => None | line => Some line end) input.

(* ===================================================================== *)
(** * Further notions for the statements *)
(* ===================================================================== *)

(** A text without whitespace at its start and at its end. *)
Definition no_lead (s : text) : Prop :=
  match s with c :: _ => isspace c = false | [] => True end.

Definition no_trail (s : text) : Prop := no_lead (rev s).

(** The lines that [line_re] matches somewhere: ["from "], characters of an
    address, any characters, a space, and at least one more character, with
    no newline after the address but possibly one at the very end. *)
Definition line_shape (line : text) : Prop :=
  ∃ pre addr gap txt tl,
    line = pre ++ str "from " ++ addr ++ gap ++ " "%char :: txt ++ tl
    ∧ addr ≠ [] ∧ forallb addr_char addr = true
    ∧ forallb dot gap = true
    ∧ txt ≠ [] ∧ forallb dot txt = true
    ∧ at_end tl = true.

(** The time of the last line that arrived for [addr]. *)
Definition seen_step (addr : text) (last : option Z) (ev : event) : option Z :=
  match ev with
  | Line_read _ _ t_seen =>
      if decide (arrival ev = Some addr) then Some t_seen else last
  | _ => last
  end.

Definition seen_at (addr : text) (evs : list event) : option Z :=
  foldl (seen_step addr) None evs.

(** The label that [add_node] makes for a node at [pos]. *)
Definition label_of (addr : text) (pos : point) : text_item :=
  Label (last4 addr)
        (point_add pos (QPointF (F_int (NODE_RADIUS + 5)) (F_int (-5)))).

(** The dialog of [addr] when it shows [rows]. *)
Definition dialog_of (addr : text) (rows : list (text * text)) : message_dialog :=
  Dialog (str "Messages from " ++ last4 addr) rows.

(** What the runs from [__init__] keep besides [star]. *)
Record tidy (st : visualizer) : Prop := Tidy {
  tidy_star : star st;
  tidy_entry :
    ∀ addr node label, nodes st !! addr = Some (node, label) →
      item_data node = addr ∧ label = label_of addr (item_pos node)
      ∧ positions st !! addr = Some (item_pos node);
  tidy_dialog :
    ∀ addr d, dialogs st !! addr = Some d → d = dialog_of addr (history st addr);
  tidy_scene : S (length (scene st)) = (3 * size (nodes st))%nat;
  tidy_keys : dom (message_logs st) = dom (last_seen st);
}.

(* ===================================================================== *)
(** * The mouse: ellipses can be moved *)
(* ===================================================================== *)

(** [node.setPos(pos)], as Qt calls it when an ellipse is dragged. *)
Definition set_pos (pos : point) (node : ellipse_item) : ellipse_item :=
  Ellipse (brush node) pos (item_data node).

(** [add_node] makes every ellipse selectable and movable (lines 162 and
    163), and the handler put in the place of [mousePressEvent] does not
    ignore the press: the ellipse that is pressed grabs the mouse and Qt
    moves it with the mouse. Only [node.pos()] changes; the label, the line
    to the centre, [positions] and the other tables are not told. *)
Definition move_item (addr : text) (pos : point) (st : visualizer) : visualizer :=
  set_nodes (alter (fun entry => (set_pos pos entry.1, entry.2)) addr) st.

(** What happens to a visualizer, the moves of ellipses included. A drag is
    a press, which is the event [Mouse_press], and then moves; a drag of
    several selected ellipses is one move for each of them. *)
Inductive gesture : Type :=
| Event (ev : event)
| Mouse_move (addr : text) (pos : point).

Definition step_gesture (g : gesture) (st : visualizer) : result visualizer :=
  match g with
  | Event ev => step ev st
  | Mouse_move addr pos => Ok (move_item addr pos st)
  end.

Fixpoint run_gestures (gs : list gesture) (st : visualizer) : result visualizer :=
  match gs with
  | [] => Ok st
  | g :: gs' => st' ← step_gesture g st; run_gestures gs' st'
  end.

(** The visualizer after [__init__] and the gestures [gs]. *)
Definition run_init_gestures (gs : list gesture) : result visualizer :=
  st ← init; run_gestures gs st.

(** The events among the gestures, and the addresses whose ellipse the
    gestures move. *)
Definition events_of (gs : list gesture) : list event :=
  omap (fun g => match g with Event ev => Some ev | Mouse_move _ _ => None end) gs.

Definition moved_items (gs : list gesture) : list text :=
  omap (fun g => match g with Mouse_move addr _ => Some addr | Event _ => None end) gs.

(** Two entries of [nodes] that differ at most in the place of the ellipse,
    and not even in that for an address outside [moved]. *)
Definition same_entry (moved : list text) (addr : text)
    (e e0 : ellipse_item * text_item) : Prop :=
  brush e.1 = brush e0.1 ∧ item_data e.1 = item_data e0.1 ∧ e.2 = e0.2
  ∧ (addr ∉ moved → item_pos e.1 = item_pos e0.1).

(** [st] is [st0] but for the places of the ellipses of [moved]. *)
Record displaced (moved : list text) (st0 st : visualizer) : Prop := Displaced {
  displaced_rest : st = set_nodes (fun _ => nodes st) st0;
  displaced_dom : dom (nodes st) = dom (nodes st0);
  displaced_entry :
    ∀ addr e e0, nodes st !! addr = Some e → nodes st0 !! addr = Some e0 →
                 same_entry moved addr e e0;
}.

(* ===================================================================== *)
(** * Places over the reals *)
(* ===================================================================== *)

(** The square of the distance between two points, over the reals. *)
Definition dist2 (p q : point) : R :=
  ((denote (px p) - denote (px q)) ^ 2
   + (denote (py p) - denote (py q)) ^ 2)%R.

(** A layout in which no place is given twice and none is left out: the
    leader is at the centre, every other address has the place of a number
    from 1 up to the number of the addresses, two addresses never have the
    same number, and every such number has its address. *)
Record spread (m : gmap text point) : Prop := Spread {
  spread_leader : m !! leader_addr = Some CENTER_POS;
  spread_order :
    ∀ addr p, addr ≠ leader_addr → m !! addr = Some p →
              ∃ order, p = circle_pos order ∧ (1 ≤ order < size m)%nat;
  spread_inj : ∀ a b p, m !! a = Some p → m !! b = Some p → a = b;
  spread_filled :
    ∀ order, (1 ≤ order < size m)%nat →
             ∃ addr, addr ≠ leader_addr ∧ m !! addr = Some (circle_pos order);
}.

(* ===================================================================== *)
(** * Registration *)
(* ===================================================================== *)

Section registration.
Implicit Types (st : visualizer) (addr : text).

Lemma add_node_known st addr :
  is_Some (nodes st !! addr) → add_node addr st = Ok st.
Proof. intros [e He]. unfold add_node. by rewrite He. Qed.

Lemma add_node_fresh st addr center pc :
  center_node st = Some center → positions st !! center = Some pc →
  addr ≠ center → nodes st !! addr = None →
  add_node addr st = Ok (registered addr pc st).
Proof.
  intros Hc Hpc Hne Hnew. unfold add_node. rewrite Hnew, Hc. simpl.
  rewrite Hc. rewrite !decide_False by congruence.
  unfold draw_connection; simpl. rewrite Hc, decide_False by done.
  unfold subscript. rewrite lookup_insert_eq, lookup_insert_ne by done.
  rewrite Hpc. simpl.
  unfold registered. by destruct (edges st !! addr).
Qed.

Lemma add_node_first st addr :
  center_node st = None → nodes st !! addr = None →
  add_node addr st =
    Ok (let label :=
          Label (last4 addr)
            (point_add CENTER_POS
               (QPointF (F_int (NODE_RADIUS + 5)) (F_int (-5)))) in
        Visualizer (scene st ++ [Scene_node addr; Scene_label label])
          (<[addr := (Ellipse Orange CENTER_POS addr, label)]> (nodes st))
          (<[addr := CENTER_POS]> (positions st)) (edges st) (Some addr)
          (message_logs st) (dialogs st) (last_seen st)).
Proof.
  intros Hc Hnew. unfold add_node. rewrite Hnew, Hc. simpl.
  by rewrite !decide_True by done.
Qed.

Lemma star_fresh st addr :
  star st → nodes st !! addr = None →
  addr ≠ leader_addr ∧ edges st !! addr = None ∧ positions st !! addr = None.
Proof.
  intros Hs Hnew. destruct (star_leader _ Hs) as [l Hl].
  split; [congruence|]. apply not_elem_of_dom in Hnew. split.
  - apply not_elem_of_dom. rewrite (star_dom_edges _ Hs), elem_of_difference.
    tauto.
  - apply not_elem_of_dom. by rewrite (star_dom_positions _ Hs).
Qed.

Lemma add_node_star st addr :
  star st → nodes st !! addr = None →
  add_node addr st = Ok (registered addr CENTER_POS st).
Proof.
  intros Hs Hnew. destruct (star_fresh _ _ Hs Hnew) as (Hne & _ & _).
  eapply add_node_fresh; eauto using star_center, star_leader_pos.
Qed.

(** [add_message] touches the log of its address, and the table of its dialog
    if one is open. *)
Lemma add_message_logs st addr ts msg :
  message_logs (add_message addr ts msg st)
  = <[addr := history st addr ++ [(ts, msg)]]> (message_logs st).
Proof.
  unfold add_message, history.
  destruct (message_logs st !! addr) as [l|] eqn:Hl; simpl.
  - destruct (dialogs st !! addr); simpl.
    all: apply map_eq; intros k; destruct (decide (k = addr)) as [->|];
      [rewrite lookup_alter_eq, lookup_insert_eq, Hl; done
      |rewrite lookup_alter_ne, lookup_insert_ne; done].
  - destruct (dialogs st !! addr); simpl.
    all: apply map_eq; intros k; destruct (decide (k = addr)) as [->|];
      [rewrite lookup_alter_eq, !lookup_insert_eq; done
      |rewrite lookup_alter_ne, !lookup_insert_ne; done].
Qed.

Lemma add_message_dialogs st addr ts msg :
  dialogs (add_message addr ts msg st)
  = alter (dialog_add_message ts msg) addr (dialogs st).
Proof.
  unfold add_message.
  destruct (message_logs st !! addr); simpl;
    destruct (dialogs st !! addr) eqn:Hd; simpl; try done.
  all: apply map_eq; intros k; destruct (decide (k = addr)) as [->|];
    [rewrite lookup_alter_eq, Hd; done | rewrite lookup_alter_ne; done].
Qed.

Lemma add_message_rest st addr ts msg :
  let st' := add_message addr ts msg st in
  scene st' = scene st ∧ nodes st' = nodes st ∧ positions st' = positions st
  ∧ edges st' = edges st ∧ center_node st' = center_node st
  ∧ last_seen st' = last_seen st.
Proof.
  unfold add_message.
  destruct (message_logs st !! addr); simpl;
    destruct (dialogs st !! addr); simpl; done.
Qed.

Lemma ingest_known st addr msg t_stamp t_seen :
  is_Some (nodes st !! addr) →
  ingest addr msg t_stamp t_seen st
  = Ok (set_last_seen <[addr := t_seen]>
          (add_message addr (strftime_HMS t_stamp) msg st)).
Proof. intros H. unfold ingest. by rewrite add_node_known. Qed.

Lemma ingest_fresh st addr msg t_stamp t_seen :
  star st → nodes st !! addr = None →
  ingest addr msg t_stamp t_seen st
  = Ok (set_last_seen <[addr := t_seen]>
          (add_message addr (strftime_HMS t_stamp) msg
             (registered addr CENTER_POS st))).
Proof. intros Hs H. unfold ingest. by rewrite add_node_star. Qed.

Lemma scene_lines_app sc1 sc2 :
  scene_lines (sc1 ++ sc2) = scene_lines sc1 ++ scene_lines sc2.
Proof. apply omap_app. Qed.

Lemma scene_nodes_app sc1 sc2 :
  scene_nodes (sc1 ++ sc2) = scene_nodes sc1 ++ scene_nodes sc2.
Proof. apply omap_app. Qed.

Lemma star_registered st addr :
  star st → nodes st !! addr = None →
  let st' := registered addr CENTER_POS st in
  star (Visualizer (scene st') (nodes st') (positions st') (edges st')
          (center_node st') (message_logs st') (dialogs st')
          (<[addr := 0]> (last_seen st'))).
Proof.
  intros Hs Hnew. destruct (star_fresh _ _ Hs Hnew) as (Hne & Hedge & Hpos).
  destruct Hs as [Hc [l0 Hl] Hlp Hle Hdp Hde He Hsl Hsn Hseen Hci Hdlg Hlog Hbr].
  unfold registered. rewrite Hedge. simpl. split; simpl.
  - done.
  - exists l0. by rewrite lookup_insert_ne.
  - by rewrite lookup_insert_ne.
  - by rewrite lookup_insert_ne.
  - by rewrite !dom_insert_L, Hdp.
  - rewrite !dom_insert_L, Hde. apply set_eq. intros x.
    rewrite !elem_of_union, !elem_of_difference, !elem_of_union,
      !elem_of_singleton. naive_solver.
  - intros a p Ha. destruct (decide (a = addr)) as [->|Hn].
    + rewrite !lookup_insert_eq. congruence.
    + rewrite !lookup_insert_ne by done. by apply He.
  - rewrite scene_lines_app, scene_lines_app. simpl.
    rewrite app_nil_r, map_to_list_insert by done. simpl.
    rewrite <- Hsl. by rewrite Permutation_app_comm.
  - rewrite scene_nodes_app, scene_nodes_app. simpl.
    rewrite app_nil_r, dom_insert_L, elements_union_singleton
      by by apply not_elem_of_dom.
    rewrite <- Hsn. by rewrite Permutation_app_comm.
  - intros a Ha. destruct (decide (a = addr)) as [->|Hn].
    + rewrite !lookup_insert_eq. eauto.
    + rewrite !lookup_insert_ne by done. by apply Hseen.
  - intros a p Ha. destruct (decide (a = addr)) as [->|Hn].
    + rewrite lookup_insert_eq. intros [= <-]. eauto.
    + rewrite lookup_insert_ne by done. by apply Hci.
  - rewrite dom_insert_L. by apply union_subseteq_r'.
  - rewrite dom_insert_L. by apply union_subseteq_r'.
  - intros a n l Ha. destruct (decide (a = addr)) as [->|Hn].
    + rewrite !lookup_insert_eq. intros [= <- <-]. simpl. auto.
    + rewrite !lookup_insert_ne by done. by apply Hbr.
Qed.

(** The invariant does not look at the logs, at the tables of the dialogs or
    at the times in [last_seen]. *)
Lemma star_ext st st' :
  star st →
  scene st' = scene st → nodes st' = nodes st → positions st' = positions st →
  edges st' = edges st → center_node st' = center_node st →
  dom (dialogs st') ⊆ dom (nodes st) →
  dom (message_logs st') ⊆ dom (nodes st) →
  dom (last_seen st) ⊆ dom (last_seen st') →
  star st'.
Proof.
  intros [Hc Hl Hlp Hle Hdp Hde He Hsl Hsn Hseen Hci Hdlg Hlog Hbr]
    E1 E2 E3 E4 E5 Hd Hlg Hs.
  split; rewrite ?E1, ?E2, ?E3, ?E4, ?E5; try done.
  intros a Ha Hn. apply elem_of_dom, Hs, elem_of_dom. by apply Hseen.
Qed.

Lemma star_ingest st addr msg t_stamp t_seen :
  star st → ∃ st', ingest addr msg t_stamp t_seen st = Ok st' ∧ star st'.
Proof.
  intros Hs. destruct (nodes st !! addr) as [e|] eqn:Hn.
  - rewrite ingest_known by eauto. eexists; split; [done|].
    pose proof (add_message_rest st addr (strftime_HMS t_stamp) msg)
      as (?&?&?&?&?&E).
    eapply star_ext; simpl; try done.
    + rewrite add_message_dialogs, dom_alter_L. by apply star_dialogs.
    + rewrite add_message_logs, dom_insert_L. apply union_least.
      * apply singleton_subseteq_l, elem_of_dom. eauto.
      * by apply star_logs.
    + rewrite E, dom_insert_L. apply union_subseteq_r.
  - rewrite ingest_fresh by done. eexists; split; [done|].
    pose proof (star_registered _ _ Hs Hn) as Hr. simpl in Hr.
    pose proof (add_message_rest (registered addr CENTER_POS st) addr
                  (strftime_HMS t_stamp) msg) as (?&?&?&?&?&E).
    eapply star_ext; [exact Hr|simpl; try done..].
    + rewrite add_message_dialogs, dom_alter_L, dom_insert_L.
      pose proof (star_dialogs _ Hs). by apply union_subseteq_r'.
    + rewrite add_message_logs, !dom_insert_L. simpl.
      pose proof (star_logs _ Hs). apply union_least.
      * apply union_subseteq_l.
      * by apply union_subseteq_r'.
    + by rewrite E, !dom_insert_L.
Qed.

Lemma check_node_activity_lookup now st addr :
  nodes (check_node_activity now st) !! addr
  = check_one st now addr <$> nodes st !! addr.
Proof.
  unfold check_node_activity. simpl. rewrite map_lookup_imap.
  by destruct (nodes st !! addr).
Qed.

Lemma check_node_activity_dom now st :
  dom (nodes (check_node_activity now st)) = dom (nodes st).
Proof.
  apply set_eq. intros a. rewrite !elem_of_dom, check_node_activity_lookup.
  by rewrite fmap_is_Some.
Qed.

Lemma star_check_node_activity now st :
  star st → star (check_node_activity now st).
Proof.
  intros [Hc [l0 Hl] Hlp Hle Hdp Hde He Hsl Hsn Hseen Hci Hdlg Hlog Hbr].
  split; rewrite ?check_node_activity_dom; try done.
  - exists l0. rewrite check_node_activity_lookup, Hl. simpl.
    unfold check_one. by rewrite decide_True.
  - intros a Ha. rewrite check_node_activity_lookup, fmap_is_Some.
    by apply Hseen.
  - intros a n l Ha. rewrite check_node_activity_lookup.
    destruct (nodes st !! a) as [[n0 l1]|] eqn:Hn; [|done].
    destruct (Hbr a n0 l1 Ha Hn) as [Hb Hp]. simpl. unfold check_one.
    destruct (decide _); [by intros [= <- <-]|].
    destruct (last_seen st !! a); [|by intros [= <- <-]].
    destruct (total_seconds_gt _ _); intros [= <- <-]; simpl; auto.
Qed.

Lemma star_click_handler addr st :
  star st → is_Some (nodes st !! addr) → star (click_handler addr st).
Proof.
  intros Hs Hn. unfold click_handler.
  destruct (dialogs st !! addr); [done|].
  eapply star_ext; simpl; try done.
  - rewrite dom_insert_L. pose proof (star_dialogs _ Hs).
    apply elem_of_dom in Hn. set_solver.
  - by apply star_logs.
Qed.

Lemma star_init : ∃ st0, init = Ok st0 ∧ star st0.
Proof.
  unfold init. rewrite add_node_first by done. eexists; split; [done|].
  simpl. split; simpl.
  - done.
  - eexists. by rewrite lookup_insert_eq.
  - by rewrite lookup_insert_eq.
  - done.
  - by rewrite !dom_insert_L.
  - rewrite dom_insert_L, !dom_empty_L. set_solver.
  - intros a p Ha. rewrite lookup_insert_ne by done. by rewrite lookup_empty.
  - by rewrite map_to_list_empty.
  - rewrite dom_insert_L, dom_empty_L, union_empty_r_L, elements_singleton.
    done.
  - intros a Ha. rewrite lookup_insert_ne by done. rewrite lookup_empty.
    by intros [? ?].
  - intros a p Ha. rewrite lookup_insert_ne by done. by rewrite lookup_empty.
  - rewrite dom_empty_L. apply empty_subseteq.
  - rewrite dom_empty_L. apply empty_subseteq.
  - intros a n l Ha. rewrite lookup_insert_ne by done. by rewrite lookup_empty.
Qed.

End registration.

(* ===================================================================== *)
(** * The pattern of [handle_line] *)
(* ===================================================================== *)

Section pattern.
Implicit Types (s t : text) (i j : nat) (w : way).

Lemma flat_map_map {A B C} (f : B → list C) (g : A → B) (l : list A) :
  flat_map f (map g l) = flat_map (fun x => f (g x)) l.
Proof. induction l as [|x l IH]; simpl; [done|]. by rewrite IH. Qed.

Lemma flat_map_nil_inv {A B} (f : A → list B) (l1 l2 : list A) :
  flat_map f (l1 ++ l2) = [] → flat_map f l2 = [].
Proof. rewrite flat_map_app. by intros [_ ?]%app_eq_nil. Qed.

Lemma map_way_id (l : list way) :
  map (fun w2 : way => (w2.1.1, w2.1.2, w2.2)) l = l.
Proof. induction l as [|[[? ?] ?] l IH]; simpl; [done|]. by rewrite IH. Qed.

Lemma startswith_app p t : startswith p (p ++ t) = true.
Proof. induction p as [|a p IH]; simpl; [done|]. by rewrite decide_True. Qed.

Lemma startswith_inv p s : startswith p s = true → s = p ++ skipn (length p) s.
Proof.
  revert s. induction p as [|a p IH]; intros [|b s]; simpl; try done.
  destruct (decide (a = b)) as [->|]; [|done]. intros H. f_equal. by apply IH.
Qed.

Lemma break_at_app p s : s = (break_at p s).1 ++ (break_at p s).2.
Proof.
  induction s as [|c s IH]; simpl; [done|].
  destruct (p c); simpl; [done|].
  destruct (break_at p s) as [a b]. simpl in *. by f_equal.
Qed.

Lemma break_at_forall p s : forallb (fun c => negb (p c)) (break_at p s).1 = true.
Proof.
  induction s as [|c s IH]; simpl; [done|].
  destruct (p c) eqn:E; simpl; [done|].
  destruct (break_at p s) as [a b]. simpl in *. by rewrite E.
Qed.

Lemma break_at_head p s c t : (break_at p s).2 = c :: t → p c = true.
Proof.
  induction s as [|c' s IH]; simpl; [done|].
  destruct (p c') eqn:E; simpl; [congruence|].
  destruct (break_at p s) as [a b]. simpl in *. done.
Qed.

Lemma dot_run_cons c s :
  dot c = true → dot_run (c :: s) = (c :: (dot_run s).1, (dot_run s).2).
Proof.
  intros H. unfold dot_run. simpl. rewrite H. simpl.
  by destruct (break_at _ s).
Qed.

Lemma dot_run_stop s :
  match s with c :: _ => dot c = false | [] => True end → dot_run s = ([], s).
Proof. destruct s as [|c s]; [done|]. intros H. unfold dot_run. simpl. by rewrite H. Qed.

Lemma at_end_dot c s : dot c = true → at_end (c :: s) = false.
Proof.
  unfold dot, at_end. destruct (decide (c = _)); [done|]. by destruct s.
Qed.

(** ** [(.+)$] *)

Lemma mtch_re_text_unfold i s :
  mtch re_text i s
  = flat_map (text_way i) (rev (skipn 1 (rep_ends dot i s))).
Proof.
  unfold re_text. simpl. rewrite !flat_map_map.
  apply flat_map_ext. intros [j t]. unfold text_way. simpl.
  by destruct (at_end t).
Qed.

Lemma flat_map_one {A B} (f : A → list B) (x : A) : flat_map f [x] = f x.
Proof. simpl. apply app_nil_r. Qed.

Lemma rep_ends_cons p i c s :
  rep_ends p i (c :: s)
  = (i, c :: s) :: (if p c then rep_ends p (S i) s else []).
Proof. done. Qed.

Lemma text_ways_run i0 i s :
  flat_map (text_way i0) (rev (rep_ends dot i s))
  = text_way i0 ((i + length (dot_run s).1)%nat, (dot_run s).2).
Proof.
  revert i. induction s as [|c s IH]; intros i.
  - change (rep_ends dot i []) with [(i, @nil ascii)].
    change (rev [(i, @nil ascii)]) with [(i, @nil ascii)].
    rewrite flat_map_one. simpl. by rewrite Nat.add_0_r.
  - rewrite rep_ends_cons. destruct (dot c) eqn:E.
    + change (rev (?x :: ?l)) with (rev l ++ [x]).
      rewrite flat_map_app, flat_map_one, IH, dot_run_cons by done.
      unfold text_way at 2. cbn [fst snd]. rewrite at_end_dot by done.
      rewrite app_nil_r. cbn [fst snd length]. by rewrite Nat.add_succ_r.
    + change (rev [?x]) with [x].
      rewrite flat_map_one, dot_run_stop by done. simpl.
      by rewrite Nat.add_0_r.
Qed.

Lemma mtch_re_text i s :
  mtch re_text i s
  = if text_ok s
    then [([(2%nat, (i, (i + length (dot_run s).1)%nat))],
           (i + length (dot_run s).1)%nat, (dot_run s).2)]
    else [].
Proof.
  rewrite mtch_re_text_unfold. destruct s as [|c s]; [done|].
  rewrite rep_ends_cons. change (skipn 1 (?x :: ?l)) with l.
  cbn [text_ok]. destruct (dot c) eqn:E; [|done].
  rewrite text_ways_run, dot_run_cons by done. unfold text_way.
  cbn [fst snd length andb]. rewrite Nat.add_succ_r. done.
Qed.

Lemma text_ok_cons c s : dot c = true → text_ok s = true → text_ok (c :: s) = true.
Proof.
  intros Hc. destruct s as [|c' s]; [done|]. simpl.
  intros [Hc' H]%andb_prop. rewrite Hc, dot_run_cons by done. done.
Qed.

(** ** The space and the gap before it *)

Lemma mtch_re_space i s :
  mtch re_space i s
  = match s with
    | c :: s' => if is_space_char c then mtch re_text (S i) s' else []
    | [] => []
    end.
Proof.
  unfold re_space. cbn [mtch]. destruct s as [|c s]; [done|].
  change (str " ") with [" "%char]. cbn [startswith]. unfold is_space_char.
  destruct (decide (" "%char = c)) as [<-|Hc].
  - rewrite decide_True by done. cbn [length skipn flat_map fst snd app].
    rewrite app_nil_r, map_way_id. by rewrite Nat.add_1_r.
  - by rewrite decide_False by done.
Qed.

Lemma mtch_re_gap_unfold i s :
  mtch re_gap i s
  = flat_map (fun e : nat * text => mtch re_space e.1 e.2) (rep_ends dot i s).
Proof.
  unfold re_gap. cbn [mtch]. change (skipn 0 ?l) with l.
  rewrite flat_map_map. apply flat_map_ext. intros [j t]. cbn [fst snd app].
  apply map_way_id.
Qed.

Lemma mtch_re_gap_nil i : mtch re_gap i [] = [].
Proof. by rewrite mtch_re_gap_unfold. Qed.

Lemma mtch_re_gap_cons i c s :
  mtch re_gap i (c :: s)
  = (if is_space_char c then mtch re_text (S i) s else [])
      ++ (if dot c then mtch re_gap (S i) s else []).
Proof.
  rewrite !mtch_re_gap_unfold, rep_ends_cons. cbn [flat_map fst snd].
  rewrite mtch_re_space. by destruct (dot c).
Qed.

Lemma is_space_char_dot c : is_space_char c = true → dot c = true.
Proof. unfold is_space_char, dot. destruct (decide (c = " "%char)) as [->|]; done. Qed.

(** If the gap and what follows match at all, the text can start here. *)
Lemma mtch_re_gap_text_ok i s : mtch re_gap i s ≠ [] → text_ok s = true.
Proof.
  revert i. induction s as [|c s IH]; intros i.
  - by rewrite mtch_re_gap_nil.
  - rewrite mtch_re_gap_cons. intros H.
    destruct (is_space_char c) eqn:Hsp.
    + rewrite mtch_re_text in H. destruct (text_ok s) eqn:Hok.
      * apply text_ok_cons; [by apply is_space_char_dot|done].
      * rewrite app_nil_l in H. rewrite (is_space_char_dot _ Hsp) in H.
        apply IH in H. congruence.
    + rewrite app_nil_l in H. destruct (dot c) eqn:Hd; [|done].
      apply text_ok_cons; [done|]. by eapply IH.
Qed.

Lemma dot_run_app s : s = (dot_run s).1 ++ (dot_run s).2.
Proof. apply break_at_app. Qed.

Lemma dot_run_forall s : forallb dot (dot_run s).1 = true.
Proof.
  induction s as [|c s IH]; [done|].
  destruct (dot c) eqn:E.
  - rewrite dot_run_cons by done. simpl. by rewrite E.
  - by rewrite dot_run_stop.
Qed.

Lemma text_ok_run s :
  text_ok s = true → (dot_run s).1 ≠ [] ∧ at_end (dot_run s).2 = true.
Proof.
  destruct s as [|c s]; [done|]. simpl.
  intros [Hc Hend]%andb_prop. by rewrite dot_run_cons.
Qed.

(** The first way to match the gap and what follows: the gap ends at the
    first space, the text is all that comes after it. *)
Lemma mtch_re_gap_head i s w :
  head (mtch re_gap i s) = Some w →
  ∃ gap g tl,
    s = gap ++ " "%char :: g ++ tl
    ∧ forallb gap_char gap = true
    ∧ g ≠ [] ∧ forallb dot g = true ∧ at_end tl = true
    ∧ w = ([(2%nat, ((i + length gap + 1)%nat,
                     (i + length gap + 1 + length g)%nat))],
           (i + length gap + 1 + length g)%nat, tl).
Proof.
  revert i w. induction s as [|c s IH]; intros i w.
  - by rewrite mtch_re_gap_nil.
  - rewrite mtch_re_gap_cons. destruct (is_space_char c) eqn:Hsp.
    + rewrite mtch_re_text. destruct (text_ok s) eqn:Hok.
      * intros [= <-]. exists [], (dot_run s).1, (dot_run s).2.
        unfold is_space_char in Hsp.
        destruct (decide (c = " "%char)) as [->|]; [|done].
        destruct (text_ok_run _ Hok) as [Hg Hend].
        rewrite <- dot_run_app. split; [done|]. split; [done|].
        split; [done|]. split; [apply dot_run_forall|]. split; [done|].
        cbn [length]. rewrite Nat.add_0_r, Nat.add_1_r. done.
      * rewrite app_nil_l. rewrite (is_space_char_dot _ Hsp).
        intros H. assert (mtch re_gap (S i) s ≠ []) as Hne.
        { intros E. by rewrite E in H. }
        apply mtch_re_gap_text_ok in Hne. congruence.
    + rewrite app_nil_l. destruct (dot c) eqn:Hd; [|done].
      intros (gap & g & tl & -> & Hgap & Hg & Hdg & Hend & ->)%IH.
      exists (c :: gap), g, tl. split; [done|]. split.
      { simpl. unfold gap_char at 1. by rewrite Hd, Hsp. }
      do 3 (split; [done|]). cbn [length].
      replace (i + S (length gap) + 1)%nat with (S i + length gap + 1)%nat
        by lia. done.
Qed.

(** ** The address *)

Lemma addr_char_gap c : addr_char c = true → is_space_char c = false ∧ dot c = true.
Proof.
  destruct c as [[] [] [] [] [] [] [] []]; vm_compute; intros; split; congruence.
Qed.

Lemma mtch_re_addr i s :
  mtch re_addr i s
  = match s with
    | c :: s' =>
        if addr_char c
        then flat_map (addr_way i) (rev (rep_ends addr_char (S i) s'))
        else []
    | [] => []
    end.
Proof.
  unfold re_addr. cbn [mtch]. rewrite !flat_map_map.
  destruct s as [|c s]; [done|].
  rewrite rep_ends_cons. change (skipn 1 (?x :: ?l)) with l.
  destruct (addr_char c); [|done].
  apply flat_map_ext. by intros [j t].
Qed.

Lemma rep_ends_rev p i s :
  ∃ l, rev (rep_ends p i s) = l ++ [(i, s)].
Proof.
  destruct s as [|c s]; [by exists []|].
  rewrite rep_ends_cons. eexists. reflexivity.
Qed.

Lemma addr_ways_nil i0 i s :
  flat_map (addr_way i0) (rev (rep_ends addr_char i s)) = [] →
  mtch re_gap i s = [].
Proof.
  destruct (rep_ends_rev addr_char i s) as [l ->].
  intros H%flat_map_nil_inv. rewrite flat_map_one in H.
  unfold addr_way in H. by apply map_eq_nil in H.
Qed.

Lemma head_app_cons {A} (l1 l2 : list A) : l1 ≠ [] → head (l1 ++ l2) = head l1.
Proof. by destruct l1. Qed.

(** The first way takes the longest address. *)
Lemma addr_ways_head i0 i s w :
  head (flat_map (addr_way i0) (rev (rep_ends addr_char i s))) = Some w →
  ∃ a t w3,
    s = a ++ t ∧ forallb addr_char a = true
    ∧ match t with c :: _ => addr_char c = false | [] => True end
    ∧ head (mtch re_gap (i + length a) t) = Some w3
    ∧ w = ((1%nat, (i0, (i + length a)%nat)) :: w3.1.1, w3.1.2, w3.2).
Proof.
  revert i w. induction s as [|c s IH]; intros i w.
  - change (rep_ends addr_char i []) with [(i, @nil ascii)].
    change (rev [(i, @nil ascii)]) with [(i, @nil ascii)].
    rewrite flat_map_one. unfold addr_way. cbn [fst snd].
    by rewrite mtch_re_gap_nil.
  - rewrite rep_ends_cons. destruct (addr_char c) eqn:Hc.
    + change (rev (?x :: ?l)) with (rev l ++ [x]). rewrite flat_map_app.
      destruct (flat_map (addr_way i0) (rev (rep_ends addr_char (S i) s)))
        as [|w0 l0] eqn:E.
      * apply addr_ways_nil in E. rewrite app_nil_l, flat_map_one.
        unfold addr_way. cbn [fst snd]. rewrite mtch_re_gap_cons.
        destruct (addr_char_gap _ Hc) as [-> ->]. by rewrite E.
      * rewrite head_app_cons by done. rewrite <- E.
        intros (a & t & w3 & -> & Ha & Ht & Hw3 & ->)%IH.
        exists (c :: a), t, w3. split; [done|]. split.
        { simpl. by rewrite Hc. }
        split; [done|]. cbn [length]. rewrite Nat.add_succ_r. done.
    + change (rev [?x]) with [x]. rewrite flat_map_one.
      unfold addr_way. cbn [fst snd].
      destruct (mtch re_gap i (c :: s)) as [|w3 l] eqn:E; [done|].
      intros [= <-]. exists [], (c :: s), w3.
      split; [done|]. split; [done|]. split; [done|].
      cbn [length]. rewrite Nat.add_0_r, E. done.
Qed.

Lemma mtch_re_addr_head i s w :
  head (mtch re_addr i s) = Some w →
  ∃ a gap g tl,
    s = a ++ gap ++ " "%char :: g ++ tl
    ∧ a ≠ [] ∧ forallb addr_char a = true
    ∧ match gap with c :: _ => addr_char c = false | [] => True end
    ∧ forallb gap_char gap = true
    ∧ g ≠ [] ∧ forallb dot g = true ∧ at_end tl = true
    ∧ w.1.1 = [(1%nat, (i, (i + length a)%nat));
               (2%nat, ((i + length a + length gap + 1)%nat,
                        (i + length a + length gap + 1 + length g)%nat))].
Proof.
  rewrite mtch_re_addr. destruct s as [|c s]; [done|].
  destruct (addr_char c) eqn:Hc; [|done].
  intros (a & t & w3 & -> & Ha & Ht & Hw3 & ->)%addr_ways_head.
  apply mtch_re_gap_head in Hw3
    as (gap & g & tl & -> & Hgap & Hg & Hdg & Hend & ->).
  exists (c :: a), gap, g, tl. split; [done|]. split; [done|]. split.
  { simpl. by rewrite Hc. }
  split. { by destruct gap. }
  do 4 (split; [done|]). cbn [fst snd length].
  replace (S i + length a)%nat with (i + S (length a))%nat by lia. done.
Qed.

(** ** The whole pattern and the search *)

Lemma mtch_line_re i s :
  mtch line_re i s
  = if startswith (str "from ") s
    then map (fun w : way => (w.1.1, w.1.2, w.2))
             (mtch re_addr (i + 5) (skipn 5 s))
    else [].
Proof.
  change line_re with (Cat (Str (str "from ")) re_addr). cbn [mtch].
  destruct (startswith (str "from ") s); [|done].
  cbn [flat_map fst snd app]. by rewrite app_nil_r.
Qed.

Lemma search_from_Some r whole i s m :
  search_from r whole i s = Some m →
  ∃ pre s' w,
    s = pre ++ s' ∧ head (mtch r (i + length pre) s') = Some w
    ∧ m = Match whole w.1.1.
Proof.
  revert i. induction s as [|c s IH]; intros i; cbn [search_from].
  - destruct (mtch r i []) as [|w l] eqn:E; [done|]. intros [= <-].
    exists [], [], w. cbn [length]. by rewrite Nat.add_0_r, E.
  - destruct (mtch r i (c :: s)) as [|w l] eqn:E.
    + intros (pre & s' & w & -> & Hw & ->)%IH.
      exists (c :: pre), s', w. cbn [length]. by rewrite Nat.add_succ_r.
    + intros [= <-]. exists [], (c :: s), w. cbn [length].
      by rewrite Nat.add_0_r, E.
Qed.

Lemma re_search_line_re line m :
  re_search line_re line = Some m →
  ∃ pre addr gap txt tl, line_parts line m pre addr gap txt tl.
Proof.
  intros (pre & s & w & -> & Hw & ->)%search_from_Some.
  rewrite mtch_line_re in Hw.
  destruct (startswith (str "from ") s) eqn:Hfrom; [|done].
  apply startswith_inv in Hfrom. cbn [length str list_ascii_of_string] in Hfrom.
  destruct (mtch re_addr (0 + length pre + 5) (skipn 5 s)) as [|w' l] eqn:E;
    [done|].
  injection Hw as <-.
  assert (head (mtch re_addr (0 + length pre + 5) (skipn 5 s)) = Some w')
    as (a & gap & g & tl & Hs & Ha & Haa & Hmax & Hgap & Hg & Hdg & Hend & Hcap)
      %mtch_re_addr_head by by rewrite E.
  exists pre, a, gap, g, tl. split; try done.
  rewrite Hfrom, Hs. done.
Qed.

Lemma slice_app (x y z : text) :
  slice (x ++ y ++ z) (length x, (length x + length y)%nat) = y.
Proof.
  unfold slice. cbn [fst snd]. rewrite drop_app_length.
  replace (length x + length y - length x)%nat with (length y) by lia.
  by rewrite take_app_length.
Qed.

Lemma line_parts_group1 line m pre addr gap txt tl :
  line_parts line m pre addr gap txt tl → group m 1 = Some addr.
Proof.
  intros [Hl _ _ _ _ _ Hs Hg]. unfold group. rewrite Hg, Hs. simpl.
  f_equal. rewrite Hl, app_assoc.
  replace (length pre + 5)%nat with (length (pre ++ str "from "))
    by (rewrite length_app; done).
  apply slice_app.
Qed.

Lemma line_parts_group2 line m pre addr gap txt tl :
  line_parts line m pre addr gap txt tl → group m 2 = Some txt.
Proof.
  intros [Hl _ _ _ _ _ Hs Hg]. unfold group. rewrite Hg, Hs. simpl.
  f_equal. rewrite Hl.
  replace (pre ++ str "from " ++ addr ++ gap ++ " "%char :: txt ++ tl)
    with ((pre ++ str "from " ++ addr ++ gap ++ [" "%char]) ++ txt ++ tl)
    by (by rewrite <- !app_assoc).
  replace (length pre + 5 + length addr + length gap + 1)%nat
    with (length (pre ++ str "from " ++ addr ++ gap ++ [" "%char]))
    by (rewrite !length_app; simpl; lia).
  apply slice_app.
Qed.

(** ** Lines that are accepted *)

Lemma at_end_inv tl : at_end tl = true → tl = [] ∨ tl = ["010"%char].
Proof.
  destruct tl as [|c [|c' tl]]; simpl; try done; [by left|].
  destruct (decide (c = "010"%char)) as [->|]; [by right|done].
Qed.

Lemma rep_ends_elem p i u v :
  forallb p u = true → ((i + length u)%nat, v) ∈ rep_ends p i (u ++ v).
Proof.
  revert i. induction u as [|c u IH]; intros i Hu.
  - cbn [length app]. rewrite Nat.add_0_r. destruct v; apply list_elem_of_here.
  - cbn [forallb] in Hu. apply andb_prop in Hu as [Hc Hu].
    rewrite <- app_comm_cons, rep_ends_cons, Hc. apply list_elem_of_further.
    cbn [length]. rewrite Nat.add_succ_r. by apply (IH (S i)).
Qed.

Lemma flat_map_elem_ne {A B} (f : A → list B) (l : list A) (x : A) :
  x ∈ l → f x ≠ [] → flat_map f l ≠ [].
Proof.
  intros Hx Hf E. apply Hf.
  destruct (f x) as [|y ys] eqn:Efx; [done|].
  assert (In y (flat_map f l)) as Hin.
  { apply in_flat_map. exists x. split; [by apply list_elem_of_In|].
    rewrite Efx. by left. }
  rewrite E in Hin. destruct Hin.
Qed.

Lemma dot_run_all s : forallb dot s = true → dot_run s = (s, []).
Proof.
  induction s as [|c s IH]; [done|]. cbn [forallb].
  intros [Hc Hs]%andb_prop. by rewrite dot_run_cons, IH.
Qed.

Lemma text_ok_all s : s ≠ [] → forallb dot s = true → text_ok s = true.
Proof.
  destruct s as [|c s]; [done|]. intros _. cbn [forallb text_ok].
  intros [Hc Hs]%andb_prop. by rewrite Hc, dot_run_all.
Qed.

(** An address, a space and a text without a newline match. *)
Lemma mtch_re_addr_accepts i a txt :
  a ≠ [] → forallb addr_char a = true →
  txt ≠ [] → forallb dot txt = true →
  mtch re_addr i (a ++ " "%char :: txt) ≠ [].
Proof.
  intros Ha Haa Ht Hdt. rewrite mtch_re_addr.
  destruct a as [|c a]; [done|]. cbn [forallb] in Haa.
  apply andb_prop in Haa as [Hc Haa]. rewrite <- app_comm_cons, Hc.
  apply (flat_map_elem_ne _ _ ((S i + length a)%nat, " "%char :: txt)).
  - apply list_elem_of_In, in_rev. rewrite rev_involutive.
    apply list_elem_of_In. by apply rep_ends_elem.
  - unfold addr_way. cbn [fst snd]. rewrite mtch_re_gap_cons, mtch_re_text.
    rewrite text_ok_all by done. by change (is_space_char " ") with true.
Qed.

(** Two ways to cut the same text into a run of address characters and a
    rest that does not go on with one are the same. *)
Lemma addr_run_unique a1 t1 a2 t2 :
  a1 ++ t1 = a2 ++ t2 →
  forallb addr_char a1 = true → forallb addr_char a2 = true →
  match t1 with c :: _ => addr_char c = false | [] => True end →
  match t2 with c :: _ => addr_char c = false | [] => True end →
  a1 = a2 ∧ t1 = t2.
Proof.
  revert a2. induction a1 as [|c a1 IH]; intros [|c2 a2]; cbn [app forallb].
  - done.
  - intros -> _ [H2 _]%andb_prop Ht1 _. congruence.
  - intros <- [H1 _]%andb_prop _ _ Ht2. congruence.
  - intros [= <- E] [_ H1]%andb_prop [_ H2]%andb_prop Ht1 Ht2.
    destruct (IH a2 E H1 H2 Ht1 Ht2) as [-> ->]. done.
Qed.

(** A line that starts with ["from "], an address, one space and a text
    without a newline is accepted, with that address and that text. *)
Lemma re_search_accepts a txt :
  a ≠ [] → forallb addr_char a = true →
  txt ≠ [] → forallb dot txt = true →
  ∃ m, re_search line_re (str "from " ++ a ++ " "%char :: txt) = Some m
       ∧ group m 1 = Some a ∧ group m 2 = Some txt.
Proof.
  intros Ha Haa Ht Hdt. set (line := str "from " ++ a ++ " "%char :: txt).
  pose proof (mtch_re_addr_accepts 5 a txt Ha Haa Ht Hdt) as Hne.
  destruct (mtch re_addr 5 (a ++ " "%char :: txt)) as [|w l] eqn:E; [done|].
  assert (head (mtch re_addr 5 (a ++ " "%char :: txt)) = Some w)
    as (a' & gap & g & tl & Hs & Ha' & Haa' & Hmax & Hgap & Hg & Hdg & Hend & Hcap)
      %mtch_re_addr_head by by rewrite E.
  assert (re_search line_re line = Some (Match line w.1.1)) as Hm.
  { unfold re_search, line. destruct a as [|c a]; [done|].
    cbn [search_from app str list_ascii_of_string].
    change ("f"%char :: "r"%char :: "o"%char :: "m"%char :: " "%char
            :: c :: a ++ " "%char :: txt)
      with (str "from " ++ (c :: a) ++ " "%char :: txt).
    rewrite mtch_line_re, startswith_app.
    change (skipn 5 (str "from " ++ ?x)) with x.
    change (0 + 5)%nat with 5%nat. by rewrite E. }
  destruct (addr_run_unique a (" "%char :: txt) a' (gap ++ " "%char :: g ++ tl))
    as [<- Hrest]; try done.
  { by destruct gap. }
  assert (gap = []) as ->.
  { destruct gap as [|c gap]; [done|]. injection Hrest as <- _. done. }
  injection Hrest as Hrest.
  assert (tl = []) as ->.
  { apply at_end_inv in Hend as [->| ->]; [done|].
    rewrite Hrest, forallb_app in Hdt. by apply andb_prop in Hdt as [_ Hdt]. }
  rewrite app_nil_r in Hrest. subst g.
  exists (Match line w.1.1). split; [done|].
  assert (line_parts line (Match line w.1.1) [] a [] txt []) as Hp.
  { split; try done. unfold line. by rewrite app_nil_r. }
  split; [by eapply line_parts_group1|by eapply line_parts_group2].
Qed.

End pattern.

(* ===================================================================== *)
(** * The patch for simulated nodes *)
(* ===================================================================== *)

Section simulate.
Implicit Types (s t : text).

Lemma isspace_lower_char c : isspace (lower_char c) = isspace c.
Proof. by destruct c as [[] [] [] [] [] [] [] []]. Qed.

Lemma lower_char_colon c : lower_char c = ":"%char → c = ":"%char.
Proof. destruct c as [[] [] [] [] [] [] [] []]; vm_compute; congruence. Qed.

Lemma startswith_map (f : ascii → ascii) p s :
  startswith p (map f s) = true → ∃ u v, s = u ++ v ∧ map f u = p.
Proof.
  revert s. induction p as [|a p IH]; intros s.
  - by exists [], s.
  - destruct s as [|b s]; [done|]. simpl.
    destruct (decide (a = f b)) as [->|]; [|done].
    intros (u & v & -> & <-)%IH. by exists (b :: u), v.
Qed.

Lemma lstrip_word c s : isspace c = false → lstrip (c :: s) = c :: s.
Proof. intros H. simpl. by rewrite H. Qed.

Lemma break_at_word p u v :
  forallb (fun c => negb (p c)) u = true →
  break_at p (u ++ v) = (u ++ (break_at p v).1, (break_at p v).2).
Proof.
  induction u as [|c u IH]; simpl.
  - by destruct (break_at p v).
  - intros [Hc Hu]%andb_prop. apply negb_true_iff in Hc. rewrite Hc.
    by rewrite IH.
Qed.

Lemma split_on_nonempty sep s : split_on sep s ≠ [].
Proof.
  destruct s as [|c s]; simpl; [done|].
  destruct (decide (c = sep)); [done|]. by destruct (split_on sep s).
Qed.

Lemma split_on_cons_ne sep c s :
  c ≠ sep →
  ∃ f fs, split_on sep s = f :: fs ∧ split_on sep (c :: s) = (c :: f) :: fs.
Proof.
  intros Hc. simpl. rewrite decide_False by done.
  destruct (split_on sep s) as [|f fs] eqn:E; [by apply split_on_nonempty in E|].
  by exists f, fs.
Qed.

(** The field before the first separator. *)
Lemma split_on_app sep x y :
  sep ∉ x → split_on sep (x ++ sep :: y) = x :: split_on sep y.
Proof.
  induction x as [|c x IH]; intros Hx.
  - simpl. by rewrite decide_True.
  - apply not_elem_of_cons in Hx as [Hc Hx]. rewrite <- app_comm_cons.
    destruct (split_on_cons_ne sep c (x ++ sep :: y)) as (f & fs & E & ->);
      [done|].
    rewrite IH in E by done. by injection E as <- <-.
Qed.

Lemma split_on_last sep x : sep ∉ x → split_on sep x = [x].
Proof.
  induction x as [|c x IH]; intros Hx; [done|].
  apply not_elem_of_cons in Hx as [Hc Hx].
  destruct (split_on_cons_ne sep c x) as (f & fs & E & ->); [done|].
  rewrite IH in E by done. by injection E as <- <-.
Qed.

(** A message on which the patch looks for an id starts with a word that
    holds a colon. *)
Lemma simulate_word message :
  startswith (str "simulate:") (lower message) = true →
  ∃ pfx w v,
    message = (pfx ++ ":"%char :: w) ++ v
    ∧ (":"%char ∉ pfx)
    ∧ forallb (fun c => negb (isspace c)) (pfx ++ ":"%char :: w) = true
    ∧ lstrip message = message
    ∧ match v with c :: _ => isspace c = true | [] => True end.
Proof.
  intros (u & v & -> & Hu)%startswith_map.
  do 9 (destruct u as [|? u]; [done|]). destruct u; [|done].
  injection Hu as H1 H2 H3 H4 H5 H6 H7 H8 H9.
  apply lower_char_colon in H9 as ->.
  assert (∀ c x, lower_char c = x → isspace x = false → x ≠ ":"%char →
                 isspace c = false ∧ c ≠ ":"%char) as Hl.
  { intros c x <- Hx Hc. rewrite isspace_lower_char in Hx. split; [done|].
    by intros ->. }
  apply Hl in H1 as [H1 C1], H2 as [H2 C2], H3 as [H3 C3], H4 as [H4 C4],
    H5 as [H5 C5], H6 as [H6 C6], H7 as [H7 C7], H8 as [H8 C8]; try done.
  eexists [_; _; _; _; _; _; _; _], (break_at isspace v).1, (break_at isspace v).2.
  split; [|split; [|split; [|split]]].
  - cbn [app]. do 9 f_equal. apply break_at_app.
  - rewrite !not_elem_of_cons. repeat split; try done. apply not_elem_of_nil.
  - cbn [app forallb]. rewrite H1, H2, H3, H4, H5, H6, H7, H8. simpl.
    apply break_at_forall.
  - cbn [app]. by apply lstrip_word.
  - destruct (break_at isspace v).2 as [|c t] eqn:E; [done|].
    by apply break_at_head in E.
Qed.

Lemma break_at_stop p s :
  match s with c :: _ => p c = true | [] => True end → break_at p s = ([], s).
Proof. destruct s as [|c s]; [done|]. simpl. by intros ->. Qed.

(** [split(None, 1)] on a text that starts with a word. *)
Lemma split_ws_1_word u v :
  u ≠ [] → forallb (fun c => negb (isspace c)) u = true →
  match v with c :: _ => isspace c = true | [] => True end →
  split_ws_1 (u ++ v)
  = match lstrip v with [] => [u] | rest => [u; rest] end.
Proof.
  intros Hu Hw Hv. unfold split_ws_1.
  destruct u as [|c u]; [done|]. pose proof Hw as Hw0. cbn [forallb] in Hw.
  apply andb_prop in Hw as [Hc Hw]. apply negb_true_iff in Hc.
  rewrite <- app_comm_cons, lstrip_word by done.
  rewrite app_comm_cons, break_at_word, break_at_stop by done.
  cbn [fst snd]. by rewrite app_nil_r.
Qed.

Lemma simulate_patch_total node_addr message :
  ∃ am, simulate_patch node_addr message = Ok am.
Proof.
  unfold simulate_patch.
  destruct (startswith _ _) eqn:Hsim; [|by eexists].
  destruct (decide _) as [Hlen|]; [|by eexists].
  destruct (simulate_word _ Hsim) as (pfx & w & v & -> & Hpfx & Hword & _ & Hv).
  revert Hlen. rewrite split_ws_1_word by (done || by destruct pfx).
  destruct (lstrip v) as [|c v'] eqn:Ev; [done|]. intros _.
  cbn [index lookup list_lookup mbind result_bind].
  rewrite split_on_app by done.
  destruct (split_on ":" w) as [|f fs] eqn:E; [by apply split_on_nonempty in E|].
  by eexists.
Qed.

Lemma parse_line_Some line m :
  re_search line_re line = Some m →
  ∃ pre addr gap txt tl,
    line_parts line m pre addr gap txt tl
    ∧ parse_line line
      = (am ← simulate_patch addr (strip txt); Ok (Some am)).
Proof.
  intros Hm. destruct (re_search_line_re _ _ Hm)
    as (pre & addr & gap & txt & tl & Hp).
  exists pre, addr, gap, txt, tl. split; [done|].
  unfold parse_line, group_text. rewrite Hm.
  by rewrite (line_parts_group1 _ _ _ _ _ _ _ Hp),
    (line_parts_group2 _ _ _ _ _ _ _ Hp).
Qed.

Lemma parse_line_total line : ∃ r, parse_line line = Ok r.
Proof.
  destruct (re_search line_re line) as [m|] eqn:Hm.
  - destruct (parse_line_Some _ _ Hm) as (pre & addr & gap & txt & tl & _ & ->).
    destruct (simulate_patch_total addr (strip txt)) as [am ->]. by eexists.
  - unfold parse_line. rewrite Hm. by eexists.
Qed.

End simulate.

(* ===================================================================== *)
(** * Runs *)
(* ===================================================================== *)

Section runs.
Implicit Types (st : visualizer) (addr : text) (evs : list event).

Lemma star_handle_line line t_stamp t_seen st :
  star st → ∃ st', handle_line line t_stamp t_seen st = Ok st' ∧ star st'.
Proof.
  intros Hs. unfold handle_line.
  destruct (parse_line_total line) as [[[a m]|] ->]; simpl.
  - by apply star_ingest.
  - eauto.
Qed.

Lemma star_step ev st : star st → ∃ st', step ev st = Ok st' ∧ star st'.
Proof.
  intros Hs. destruct ev as [line t1 t2|now|addr]; simpl.
  - by apply star_handle_line.
  - eauto using star_check_node_activity.
  - destruct (nodes st !! addr) eqn:E; eauto.
    eexists; split; [done|]. apply star_click_handler; eauto.
Qed.

Lemma star_run evs st : star st → ∃ st', run evs st = Ok st' ∧ star st'.
Proof.
  revert st. induction evs as [|ev evs IH]; intros st Hs; simpl; [eauto|].
  destruct (star_step ev st Hs) as (st1 & -> & Hs1). simpl. by apply IH.
Qed.

Lemma run_init_star evs : ∃ st, run_init evs = Ok st ∧ star st.
Proof.
  unfold run_init. destruct star_init as (st0 & -> & Hs0). simpl.
  by apply star_run.
Qed.

Lemma run_app evs1 evs2 st :
  run (evs1 ++ evs2) st = (st' ← run evs1 st; run evs2 st').
Proof.
  revert st. induction evs1 as [|ev evs1 IH]; intros st; simpl; [done|].
  destruct (step ev st); simpl; [apply IH|done].
Qed.

Lemma history_add_message st a ts msg addr :
  history (add_message a ts msg st) addr
  = if decide (addr = a) then history st a ++ [(ts, msg)] else history st addr.
Proof.
  unfold history at 1. rewrite add_message_logs.
  destruct (decide (addr = a)) as [->|Hne].
  - by rewrite lookup_insert_eq.
  - by rewrite lookup_insert_ne.
Qed.

Lemma history_ingest st a msg t_stamp t_seen st' addr :
  star st → ingest a msg t_stamp t_seen st = Ok st' →
  history st' addr
  = history st addr
      ++ (if decide (addr = a) then [(strftime_HMS t_stamp, msg)] else []).
Proof.
  intros Hs. destruct (nodes st !! a) as [e|] eqn:Hn.
  - rewrite ingest_known by eauto. intros [= <-].
    change (history (set_last_seen ?f ?s) addr) with (history s addr).
    rewrite history_add_message.
    destruct (decide (addr = a)) as [->|]; [done|by rewrite app_nil_r].
  - rewrite ingest_fresh by done. intros [= <-].
    change (history (set_last_seen ?f ?s) addr) with (history s addr).
    rewrite history_add_message.
    change (history (registered ?a ?p ?s) ?b) with (history s b).
    destruct (decide (addr = a)) as [->|]; [done|by rewrite app_nil_r].
Qed.

Lemma history_step ev st st' addr :
  star st → step ev st = Ok st' →
  history st' addr = history st addr ++ logged addr ev.
Proof.
  intros Hs. destruct ev as [line t1 t2|now|a]; simpl.
  - unfold handle_line.
    destruct (parse_line line) as [[[a m]|]|]; simpl; [..|done].
    + by apply history_ingest.
    + intros [= <-]. by rewrite app_nil_r.
  - intros [= <-]. by rewrite app_nil_r.
  - rewrite app_nil_r. destruct (nodes st !! a); intros [= <-]; [|done].
    unfold click_handler. by destruct (dialogs st !! a).
Qed.

Lemma history_run evs st st' addr :
  star st → run evs st = Ok st' →
  history st' addr = history st addr ++ flat_map (logged addr) evs.
Proof.
  revert st. induction evs as [|ev evs IH]; intros st Hs; simpl.
  - intros [= <-]. by rewrite app_nil_r.
  - destruct (star_step ev st Hs) as (st1 & E & Hs1). rewrite E. simpl.
    intros H. rewrite (IH _ Hs1 H), (history_step _ _ _ addr Hs E).
    by rewrite app_assoc.
Qed.

Lemma logged_other addr evs :
  Forall (fun ev => arrival ev ≠ Some addr) evs →
  flat_map (logged addr) evs = [].
Proof.
  induction 1 as [|ev evs Hev _ IH]; simpl; [done|]. rewrite IH, app_nil_r.
  destruct ev as [line t1 t2| |]; simpl in *; try done.
  destruct (parse_line line) as [[[a m]|]|]; try done.
  destruct (decide (addr = a)) as [->|]; done.
Qed.

End runs.

(* ===================================================================== *)
(** * The properties *)
(* ===================================================================== *)

(** C6. After [__init__] and any events, lines and timer ticks in any number
    and order, the leader is registered at the centre, its recorded position
    and the position of its ellipse are [CENTER_POS], and it is shown active
    (its brush stays orange). *)
Theorem C6_leader_fixed (evs : list event) :
  ∃ st node label,
    run_init evs = Ok st
    ∧ center_node st = Some leader_addr
    ∧ positions st !! leader_addr = Some CENTER_POS
    ∧ nodes st !! leader_addr = Some (node, label)
    ∧ item_pos node = CENTER_POS
    ∧ brush node = Orange
    ∧ active node = true.
Proof.
  destruct (run_init_star evs) as (st & Hrun & Hs).
  destruct (star_leader _ Hs) as [label Hl].
  exists st, (Ellipse Orange CENTER_POS leader_addr), label.
  split; [done|]. split; [by apply star_center|].
  split; [by apply star_leader_pos|]. done.
Qed.


(** C8. From any state reached from [__init__], any further events, lines
    and timer ticks in any order, leave the history of every address as it
    was and append to it: the history afterwards is the one before followed
    by the records of the lines that arrived for this address, so nothing is
    removed, changed or moved, the length does not go down, and lines for
    other addresses change nothing. *)
Theorem C8_history_grows (evs1 evs2 : list event) (addr : text) :
  ∃ st1 st2,
    run_init evs1 = Ok st1 ∧ run evs2 st1 = Ok st2
    ∧ history st2 addr = history st1 addr ++ flat_map (logged addr) evs2
    ∧ history st1 addr `prefix_of` history st2 addr
    ∧ (length (history st1 addr) ≤ length (history st2 addr))%nat
    ∧ (∀ i r, history st1 addr !! i = Some r → history st2 addr !! i = Some r)
    ∧ (Forall (fun ev => arrival ev ≠ Some addr) evs2 →
       history st2 addr = history st1 addr).
Proof.
  destruct (run_init_star evs1) as (st1 & Hrun1 & Hs1).
  destruct (star_run evs2 st1 Hs1) as (st2 & Hrun2 & Hs2).
  exists st1, st2. split; [done|]. split; [done|].
  pose proof (history_run _ _ _ addr Hs1 Hrun2) as H. rewrite H.
  split; [done|]. split; [by eexists|]. split.
  { rewrite length_app. lia. }
  split.
  { intros i r Hi. by apply lookup_app_l_Some. }
  intros Hall. by rewrite logged_other, app_nil_r.
Qed.

Lemma alter_absent {V} (f : V → V) (k : text) (m : gmap text V) :
  m !! k = None → alter f k m = m.
Proof.
  intros H. apply map_eq. intros j. destruct (decide (j = k)) as [->|].
  - by rewrite lookup_alter_eq, H.
  - by rewrite lookup_alter_ne.
Qed.

Lemma star_unknown st addr :
  star st → nodes st !! addr = None →
  dialogs st !! addr = None ∧ message_logs st !! addr = None.
Proof.
  intros Hs Hn%not_elem_of_dom. split; apply not_elem_of_dom; intros H; apply Hn.
  - by apply (star_dialogs _ Hs).
  - by apply (star_logs _ Hs).
Qed.

(** C5. Two lines in a row for the same address, unknown before the first:
    the first registers the node, the second leaves [nodes], the positions,
    the edges and the scene as they are, appends its record to the history
    and sets [last_seen]. *)
Theorem C5_idempotent_registration
    (evs : list event) (st : visualizer) (line1 line2 addr msg1 msg2 : text)
    (t1 t1' t2 t2' : Z) :
  run_init evs = Ok st →
  parse_line line1 = Ok (Some (addr, msg1)) →
  parse_line line2 = Ok (Some (addr, msg2)) →
  nodes st !! addr = None →
  ∃ st1 st2,
    handle_line line1 t1 t1' st = Ok st1
    ∧ handle_line line2 t2 t2' st1 = Ok st2
    ∧ is_Some (nodes st1 !! addr)
    ∧ dom (nodes st1) = {[ addr ]} ∪ dom (nodes st)
    ∧ size (nodes st1) = S (size (nodes st))
    ∧ nodes st2 = nodes st1
    ∧ positions st2 = positions st1
    ∧ edges st2 = edges st1
    ∧ scene st2 = scene st1
    ∧ center_node st2 = center_node st1
    ∧ dialogs st2 = dialogs st1
    ∧ message_logs st2
      = <[addr := history st1 addr ++ [(strftime_HMS t2, msg2)]]>
          (message_logs st1)
    ∧ last_seen st2 = <[addr := t2']> (last_seen st1)
    ∧ history st2 addr
      = [(strftime_HMS t1, msg1); (strftime_HMS t2, msg2)].
Proof.
  intros Hrun Hp1 Hp2 Hnew.
  destruct (run_init_star evs) as (st' & Hrun' & Hs).
  rewrite Hrun in Hrun'. injection Hrun' as <-.
  destruct (star_unknown _ _ Hs Hnew) as [Hdlg Hlog].
  unfold handle_line. rewrite Hp1, Hp2. cbn [mbind result_bind].
  rewrite ingest_fresh by done.
  set (st1 := set_last_seen _ _).
  assert (nodes st1
          = <[addr := (Ellipse Skyblue (circle_pos (size (nodes st))) addr,
                       Label (last4 addr)
                         (point_add (circle_pos (size (nodes st)))
                            (QPointF (F_int (NODE_RADIUS + 5)) (F_int (-5)))))]>
              (nodes st)) as Hn1.
  { pose proof (add_message_rest (registered addr CENTER_POS st) addr
                  (strftime_HMS t1) msg1) as (_ & E & _). exact E. }
  assert (dialogs st1 !! addr = None) as Hd1.
  { unfold st1. cbn [dialogs set_last_seen].
    rewrite add_message_dialogs. cbn [dialogs registered].
    by rewrite lookup_alter_eq, Hdlg. }
  assert (history st1 addr = [(strftime_HMS t1, msg1)]) as Hh1.
  { unfold st1. change (history (set_last_seen ?f ?s) addr) with (history s addr).
    rewrite history_add_message, decide_True by done.
    change (history (registered ?a ?p ?s) ?b) with (history s b).
    unfold history. by rewrite Hlog. }
  assert (is_Some (nodes st1 !! addr)) as Hin1.
  { rewrite Hn1, lookup_insert_eq. eauto. }
  pose proof (add_message_rest st1 addr (strftime_HMS t2) msg2)
    as (E1 & E2 & E3 & E4 & E5 & E6).
  exists st1. rewrite (ingest_known st1) by done. eexists.
  split; [done|]. split; [done|]. split; [done|].
  split; [by rewrite Hn1, dom_insert_L|].
  split; [by rewrite Hn1, map_size_insert_None|].
  do 5 (split; [done|]). split.
  { cbn [dialogs set_last_seen]. by rewrite add_message_dialogs, alter_absent. }
  split.
  { cbn [message_logs set_last_seen]. apply add_message_logs. }
  split.
  { cbn [last_seen set_last_seen]. by rewrite E6. }
  change (history (set_last_seen ?f ?s) addr) with (history s addr).
  by rewrite history_add_message, decide_True, Hh1.
Qed.

Lemma is_ok_state_of (r : result visualizer) :
  is_ok r = true → r = Ok (state_of r).
Proof. by destruct r. Qed.

Lemma C5_witness :
  let st := state_of (run_init []) in
  let line1 := str "12 bytes from fd00::1 hello" in
  let line2 := str "12 bytes from fd00::1 again" in
  let addr := str "fd00::1" in
  (run_init [] = Ok st
   ∧ parse_line line1 = Ok (Some (addr, str "hello"))
   ∧ parse_line line2 = Ok (Some (addr, str "again"))
   ∧ nodes st !! addr = None)
  ∧ ∃ st1 st2,
      handle_line line1 1000000 1000001 st = Ok st1
      ∧ handle_line line2 2000000 2000001 st1 = Ok st2
      ∧ size (nodes st1) = S (size (nodes st))
      ∧ nodes st2 = nodes st1
      ∧ history st2 addr
        = [(str "00:00:01", str "hello"); (str "00:00:02", str "again")].
Proof.
  intros st line1 line2 addr.
  assert (run_init [] = Ok st) as H0
    by (apply is_ok_state_of; vm_compute; reflexivity).
  assert (parse_line line1 = Ok (Some (addr, str "hello"))) as H1
    by (vm_compute; reflexivity).
  assert (parse_line line2 = Ok (Some (addr, str "again"))) as H2
    by (vm_compute; reflexivity).
  assert (nodes st !! addr = None) as H3 by (vm_compute; reflexivity).
  split; [exact (conj H0 (conj H1 (conj H2 H3)))|].
  destruct (C5_idempotent_registration [] st line1 line2 addr _ _
              1000000 1000001 2000000 2000001 H0 H1 H2 H3)
    as (st1 & st2 & E1 & E2 & _ & _ & E3 & E4 & _ & _ & _ & _ & _ & _ & _ & E5).
  exists st1, st2. exact (conj E1 (conj E2 (conj E3 (conj E4 E5)))).
Defined.

(* ===================================================================== *)
(** * Layout *)
(* ===================================================================== *)

Section layout.
Implicit Types (st : visualizer) (addr : text) (evs : list event).

Lemma circle_pos_on_circle order : on_circle (circle_pos order).
Proof.
  unfold on_circle, circle_pos. cbn [px py denote CENTER_POS].
  set (a := (IZR (Z.of_nat order) * (IZR 360 / IZR MAX_NODES) * PI / 180)%R).
  pose proof (sin2_cos2 a) as H. unfold Rsqr in H.
  replace ((450 + 200 * cos a - 450) ^ 2 + (300 + 200 * sin a - 300) ^ 2)%R
    with (200 ^ 2 * (sin a * sin a + cos a * cos a))%R by ring.
  rewrite H. ring.
Qed.

Lemma positions_ingest st a msg t_stamp t_seen st' :
  star st → ingest a msg t_stamp t_seen st = Ok st' →
  positions st' = place_next (positions st) a.
Proof.
  intros Hs. unfold place_next. destruct (nodes st !! a) as [e|] eqn:Hn.
  - rewrite ingest_known by eauto. intros [= <-].
    assert (is_Some (positions st !! a)) as [p ->].
    { apply elem_of_dom. rewrite (star_dom_positions _ Hs).
      apply elem_of_dom. eauto. }
    cbn [positions set_last_seen]. apply add_message_rest.
  - rewrite ingest_fresh by done. intros [= <-].
    destruct (star_fresh _ _ Hs Hn) as (_ & _ & ->).
    cbn [positions set_last_seen].
    pose proof (add_message_rest (registered a CENTER_POS st) a
                  (strftime_HMS t_stamp) msg) as (_ & _ & -> & _).
    cbn [positions registered].
    by rewrite <- (size_dom (D := gset text) (positions st)),
      (star_dom_positions _ Hs), size_dom.
Qed.

Lemma positions_step ev st st' :
  star st → step ev st = Ok st' →
  positions st'
  = match arrival ev with
    | Some a => place_next (positions st) a
    | None => positions st
    end.
Proof.
  intros Hs. destruct ev as [line t1 t2|now|a]; simpl.
  - unfold handle_line.
    destruct (parse_line line) as [[[a m]|]|]; simpl; [..|done].
    + by apply positions_ingest.
    + by intros [= <-].
  - by intros [= <-].
  - destruct (nodes st !! a); intros [= <-]; [|done].
    unfold click_handler. by destruct (dialogs st !! a).
Qed.

Lemma positions_run evs st st' :
  star st → run evs st = Ok st' →
  positions st' = foldl place_next (positions st) (arrivals evs).
Proof.
  revert st. induction evs as [|ev evs IH]; intros st Hs; simpl.
  - by intros [= <-].
  - destruct (star_step ev st Hs) as (st1 & E & Hs1). rewrite E. simpl.
    intros H. rewrite (IH _ Hs1 H), (positions_step _ _ _ Hs E).
    unfold arrivals. simpl. by destruct (arrival ev).
Qed.

Lemma init_positions st0 :
  init = Ok st0 → positions st0 = {[ leader_addr := CENTER_POS ]}.
Proof.
  unfold init. rewrite add_node_first by done. intros [= <-]. simpl.
  apply insert_empty.
Qed.

Lemma place_next_keep m a addr p :
  m !! addr = Some p → place_next m a !! addr = Some p.
Proof.
  intros H. unfold place_next. destruct (m !! a) eqn:E; [done|].
  rewrite lookup_insert_ne; [done|]. congruence.
Qed.

Lemma layout_keep addrs m addr p :
  m !! addr = Some p → foldl place_next m addrs !! addr = Some p.
Proof.
  revert m. induction addrs as [|a addrs IH]; intros m H; simpl; [done|].
  by apply IH, place_next_keep.
Qed.

End layout.

(** C4. A line for an address that is not registered, arriving when [k]
    nodes are (the leader among them), gives the address the position
    [(450 + 200 * cos(radians(k * (360 / 12))),
      300 + 200 * sin(radians(k * (360 / 12))))], a point on the circle of
    radius 200 around the centre, and no later event changes it; the leader
    is at the centre; and the positions are a function of the order in which
    the addresses arrive ([layout_of]), so two runs with the same arrivals
    end with the same layout. *)
Theorem C4_layout :
  (∀ evs st line t_stamp t_seen addr msg,
     run_init evs = Ok st →
     parse_line line = Ok (Some (addr, msg)) →
     nodes st !! addr = None →
     ∃ st', handle_line line t_stamp t_seen st = Ok st'
       ∧ let k := F_int (Z.of_nat (size (nodes st))) in
         let angle := F_mul k (F_div (F_int 360) (F_int MAX_NODES)) in
         let p :=
           QPointF
             (F_add (px CENTER_POS)
                (F_mul (F_int 200) (F_cos (F_radians angle))))
             (F_add (py CENTER_POS)
                (F_mul (F_int 200) (F_sin (F_radians angle)))) in
         positions st' !! addr = Some p
         ∧ on_circle p
         ∧ ∀ evs', ∃ st'', run evs' st' = Ok st''
                           ∧ positions st'' !! addr = Some p)
  ∧ (∀ evs, ∃ st, run_init evs = Ok st
       ∧ positions st !! leader_addr = Some CENTER_POS
       ∧ positions st = layout_of (arrivals evs))
  ∧ (∀ evs1 evs2, arrivals evs1 = arrivals evs2 →
       ∃ st1 st2, run_init evs1 = Ok st1 ∧ run_init evs2 = Ok st2
                  ∧ positions st1 = positions st2).
Proof.
  assert (∀ evs, ∃ st, run_init evs = Ok st
            ∧ positions st !! leader_addr = Some CENTER_POS
            ∧ positions st = layout_of (arrivals evs)) as Hlayout.
  { intros evs. destruct (run_init_star evs) as (st & Hrun & Hs).
    exists st. split; [done|]. split; [by apply star_leader_pos|].
    unfold run_init in Hrun. destruct star_init as (st0 & E0 & Hs0).
    rewrite E0 in Hrun. simpl in Hrun.
    rewrite (positions_run _ _ _ Hs0 Hrun), (init_positions _ E0). done. }
  split; [|split; [done|]].
  - intros evs st line t_stamp t_seen addr msg Hrun Hp Hnew.
    destruct (run_init_star evs) as (st0 & Hrun' & Hs).
    rewrite Hrun in Hrun'. injection Hrun' as <-.
    destruct (star_handle_line line t_stamp t_seen st Hs) as (st' & E & Hs').
    exists st'. split; [done|]. cbv zeta.
    change (QPointF _ _) with (circle_pos (size (nodes st))).
    assert (positions st' !! addr = Some (circle_pos (size (nodes st)))) as Hpos.
    { unfold handle_line in E. rewrite Hp in E. simpl in E.
      rewrite (positions_ingest _ _ _ _ _ _ Hs E). unfold place_next.
      destruct (star_fresh _ _ Hs Hnew) as (_ & _ & ->).
      rewrite lookup_insert_eq.
      by rewrite <- (size_dom (D := gset text) (positions st)),
        (star_dom_positions _ Hs), size_dom. }
    split; [done|]. split; [apply circle_pos_on_circle|].
    intros evs'. destruct (star_run evs' st' Hs') as (st'' & E' & _).
    exists st''. split; [done|].
    rewrite (positions_run _ _ _ Hs' E'). by apply layout_keep.
  - intros evs1 evs2 Harr.
    destruct (Hlayout evs1) as (st1 & E1 & _ & P1).
    destruct (Hlayout evs2) as (st2 & E2 & _ & P2).
    exists st1, st2. split; [done|]. split; [done|]. congruence.
Qed.

(** Over the reals the places repeat after [MAX_NODES] arrivals. *)
Lemma circle_pos_wrap (order : nat) :
  denote (px (circle_pos (order + 12))) = denote (px (circle_pos order))
  ∧ denote (py (circle_pos (order + 12))) = denote (py (circle_pos order)).
Proof.
  unfold circle_pos. cbn [px py denote CENTER_POS].
  rewrite Nat2Z.inj_add, plus_IZR.
  set (a := (IZR (Z.of_nat order) * (IZR 360 / IZR MAX_NODES) * PI / 180)%R).
  replace ((IZR (Z.of_nat order) + IZR (Z.of_nat 12))
           * (IZR 360 / IZR MAX_NODES) * PI / 180)%R
    with (a + 2 * INR 1 * PI)%R.
  - by rewrite cos_period, sin_period.
  - unfold a, MAX_NODES. simpl. field.
Qed.

Section places.
Implicit Types (m : gmap text point) (st : visualizer).

Lemma circle_pos_inj i j : circle_pos i = circle_pos j → i = j.
Proof. unfold circle_pos. intros [= H _]. lia. Qed.

Lemma circle_pos_not_center order : circle_pos order ≠ CENTER_POS.
Proof. unfold circle_pos, CENTER_POS. cbn [px py]. discriminate. Qed.

Lemma spread_init : spread {[ leader_addr := CENTER_POS ]}.
Proof.
  split.
  - apply lookup_singleton_eq.
  - intros addr p Hne. by rewrite lookup_singleton_ne.
  - intros a b p Ha Hb.
    apply lookup_singleton_Some in Ha as [<- _].
    by apply lookup_singleton_Some in Hb as [<- _].
  - intros order. rewrite map_size_singleton. lia.
Qed.

Lemma spread_place_next m addr : spread m → spread (place_next m addr).
Proof.
  intros [Hl Ho Hi Hf]. unfold place_next.
  destruct (m !! addr) eqn:E; [by split|].
  assert (addr ≠ leader_addr) as Hne by congruence.
  assert (size (<[addr := circle_pos (size m)]> m) = S (size m)) as Hsz
    by by rewrite map_size_insert_None.
  split.
  - by rewrite lookup_insert_ne.
  - intros a p Ha. rewrite Hsz. destruct (decide (a = addr)) as [->|Hna].
    + rewrite lookup_insert_eq. intros [= <-]. exists (size m).
      split; [done|]. split; [|lia].
      assert (size m ≠ 0%nat); [|lia].
      intros H0. apply map_size_empty_inv in H0. by rewrite H0 in Hl.
    + rewrite lookup_insert_ne by done. intros Hp.
      destruct (Ho _ _ Ha Hp) as (k & -> & Hk). exists k. split; [done|lia].
  - assert (∀ a, m !! a = Some (circle_pos (size m)) → False) as Hfresh.
    { intros a Ha. destruct (decide (a = leader_addr)) as [->|Hna].
      - rewrite Hl in Ha. injection Ha as Ha.
        by apply (circle_pos_not_center (size m)).
      - destruct (Ho _ _ Hna Ha) as (k & Hk & Hlt).
        apply circle_pos_inj in Hk. lia. }
    intros a b p.
    destruct (decide (a = addr)) as [->|Hna], (decide (b = addr)) as [->|Hnb];
      rewrite ?lookup_insert_eq, ?lookup_insert_ne by done; [done|..].
    + intros [= <-] Hb. by destruct (Hfresh _ Hb).
    + intros Ha [= <-]. by destruct (Hfresh _ Ha).
    + apply Hi.
  - intros k. rewrite Hsz. intros Hk.
    destruct (decide (k = size m)) as [->|Hne'].
    + exists addr. split; [done|]. by rewrite lookup_insert_eq.
    + destruct (Hf k ltac:(lia)) as (a & Ha & Hp). exists a.
      split; [done|]. rewrite lookup_insert_ne; [done|]. congruence.
Qed.

Lemma spread_layout addrs m : spread m → spread (foldl place_next m addrs).
Proof.
  revert m. induction addrs as [|a addrs IH]; intros m H; [done|].
  cbn [foldl]. by apply IH, spread_place_next.
Qed.

Lemma run_init_spread evs :
  ∃ st, run_init evs = Ok st ∧ star st ∧ spread (positions st).
Proof.
  destruct (run_init_star evs) as (st & Hrun & Hs).
  exists st. split; [done|]. split; [done|].
  unfold run_init in Hrun. destruct init as [st0|] eqn:E0; [|done].
  cbn [mbind result_bind] in Hrun.
  assert (star st0) as Hs0.
  { destruct star_init as (st0' & E & H). rewrite E0 in E. by injection E as <-. }
  rewrite (positions_run _ _ _ Hs0 Hrun), (init_positions _ E0).
  apply spread_layout, spread_init.
Qed.

End places.

Section apart.
Local Open Scope R_scope.

Lemma sqrt3_bound : sqrt 3 < 7 / 4.
Proof.
  pose proof (sqrt_sqrt 3 ltac:(lra)) as H.
  pose proof (sqrt_pos 3) as H0.
  destruct (Rlt_dec (sqrt 3) (7 / 4)) as [|Hn]; [done|nra].
Qed.

Lemma cos_two_pi_minus x : cos (2 * PI - x) = cos x.
Proof. rewrite cos_minus, cos_2PI, sin_2PI. ring. Qed.

(** The cosine of a multiple of 30 degrees that is not a full turn. *)
Lemma cos_sixths (d : Z) :
  (1 ≤ d ≤ 11)%Z → cos (IZR d * (PI / 6)) <= sqrt 3 / 2.
Proof.
  intros Hd. pose proof PI_RGT_0 as Hpi. rewrite <- cos_PI6.
  assert (1 <= IZR d <= 11) as [H1 H11] by (split; apply IZR_le; lia).
  destruct (Z_le_gt_dec d 6) as [H6|H6].
  - apply IZR_le in H6. apply cos_decr_1; nra.
  - assert (7 <= IZR d) as H7 by (apply IZR_le; lia).
    rewrite <- (cos_two_pi_minus (IZR d * (PI / 6))).
    apply cos_decr_1; nra.
Qed.

Lemma cos_sixths_apart (i j : nat) :
  i ≠ j → (i ≤ j + 11)%nat → (j ≤ i + 11)%nat →
  cos (IZR (Z.of_nat i) * (PI / 6) - IZR (Z.of_nat j) * (PI / 6)) <= sqrt 3 / 2.
Proof.
  intros Hne Hi Hj.
  destruct (Nat.lt_ge_cases j i) as [H|H].
  - replace (IZR (Z.of_nat i) * (PI / 6) - IZR (Z.of_nat j) * (PI / 6))
      with (IZR (Z.of_nat i - Z.of_nat j) * (PI / 6))
      by (rewrite minus_IZR; ring).
    apply cos_sixths. lia.
  - rewrite <- cos_neg.
    replace (- (IZR (Z.of_nat i) * (PI / 6) - IZR (Z.of_nat j) * (PI / 6)))
      with (IZR (Z.of_nat j - Z.of_nat i) * (PI / 6))
      by (rewrite minus_IZR; ring).
    apply cos_sixths. lia.
Qed.

Lemma circle_pos_denote order :
  denote (px (circle_pos order))
  = 450 + 200 * cos (IZR (Z.of_nat order) * (PI / 6))
  ∧ denote (py (circle_pos order))
    = 300 + 200 * sin (IZR (Z.of_nat order) * (PI / 6)).
Proof.
  unfold circle_pos. cbn [px py denote CENTER_POS]. unfold MAX_NODES.
  replace (IZR (Z.of_nat order) * (IZR 360 / IZR 12) * PI / 180)
    with (IZR (Z.of_nat order) * (PI / 6)) by field.
  done.
Qed.

Lemma dist2_circle_pos (i j : nat) :
  dist2 (circle_pos i) (circle_pos j)
  = 200 ^ 2 * (2 - 2 * cos (IZR (Z.of_nat i) * (PI / 6)
                            - IZR (Z.of_nat j) * (PI / 6))).
Proof.
  unfold dist2.
  destruct (circle_pos_denote i) as [-> ->].
  destruct (circle_pos_denote j) as [-> ->].
  rewrite cos_minus.
  set (a := IZR (Z.of_nat i) * (PI / 6)). set (b := IZR (Z.of_nat j) * (PI / 6)).
  pose proof (sin2_cos2 a) as Ha. pose proof (sin2_cos2 b) as Hb.
  unfold Rsqr in Ha, Hb. nra.
Qed.

Lemma dist2_center order : dist2 (circle_pos order) CENTER_POS = 200 ^ 2.
Proof. apply circle_pos_on_circle. Qed.

Lemma dist2_sym p q : dist2 p q = dist2 q p.
Proof. unfold dist2. ring. Qed.

(** Two places of the circle whose numbers differ by less than twelve. *)
Lemma circle_pos_apart (i j : nat) :
  i ≠ j → (i ≤ j + 11)%nat → (j ≤ i + 11)%nat →
  100 ^ 2 < dist2 (circle_pos i) (circle_pos j).
Proof.
  intros Hne Hi Hj. rewrite dist2_circle_pos.
  pose proof sqrt3_bound. pose proof (cos_sixths_apart i j Hne Hi Hj). lra.
Qed.

(** The place of the twelfth arrival is free when it arrives. *)
Lemma spread_twelfth_free (m : gmap text point) (other : text) (p : point) :
  spread m → size m = 12%nat → m !! other = Some p →
  100 ^ 2 < dist2 (circle_pos 12) p.
Proof.
  intros [Hl Ho _ _] Hsz Hp.
  destruct (decide (other = leader_addr)) as [->|Hne].
  - rewrite Hl in Hp. injection Hp as <-. rewrite dist2_center. lra.
  - destruct (Ho _ _ Hne Hp) as (k & -> & Hk). apply circle_pos_apart; lia.
Qed.

End apart.

(** C3, as the code has it. When [MAX_NODES] or more addresses are
    registered, [add_node] registers a further address all the same and
    returns: the node is added at the place of its order of arrival, the
    leader stays the leader, and no other node or position is touched.
    Nothing is signalled. Over the reals the place is the one of the order
    [MAX_NODES] earlier. For the first address over the capacity that is the
    place of order 0, which no node has (the leader is at the centre): the
    new node is more than 100 away from every node. From the second one on
    it is the place of a node that is registered, so that the new node is
    drawn on top of that node. *)
Theorem C3_over_capacity (evs : list event) (st : visualizer) (addr : text) :
  run_init evs = Ok st →
  MAX_NODES ≤ Z.of_nat (size (nodes st)) →
  nodes st !! addr = None →
  ∃ st',
    add_node addr st = Ok st'
    ∧ is_Some (nodes st' !! addr)
    ∧ size (nodes st') = S (size (nodes st))
    ∧ positions st' !! addr = Some (circle_pos (size (nodes st)))
    ∧ denote (px (circle_pos (size (nodes st))))
      = denote (px (circle_pos (size (nodes st) - 12)))
    ∧ denote (py (circle_pos (size (nodes st))))
      = denote (py (circle_pos (size (nodes st) - 12)))
    ∧ center_node st' = Some leader_addr
    ∧ (∀ other, other ≠ addr →
         nodes st' !! other = nodes st !! other
         ∧ positions st' !! other = positions st !! other)
    ∧ (Z.of_nat (size (nodes st)) = MAX_NODES →
       ∀ other p, other ≠ addr → positions st' !! other = Some p →
                  (100 ^ 2 < dist2 (circle_pos (size (nodes st))) p)%R)
    ∧ (MAX_NODES < Z.of_nat (size (nodes st)) →
       ∃ other, other ≠ addr ∧ other ≠ leader_addr
                ∧ is_Some (nodes st' !! other)
                ∧ positions st' !! other
                  = Some (circle_pos (size (nodes st) - 12))
                ∧ dist2 (circle_pos (size (nodes st)))
                        (circle_pos (size (nodes st) - 12)) = 0%R).
Proof.
  intros Hrun Hcap Hnew.
  destruct (run_init_spread evs) as (st0 & Hrun' & Hs & Hsp).
  rewrite Hrun in Hrun'. injection Hrun' as <-.
  assert (size (positions st) = size (nodes st)) as Hsz.
  { by rewrite <- (size_dom (D := gset text) (positions st)),
      (star_dom_positions _ Hs), size_dom. }
  rewrite add_node_star by done. eexists. split; [done|].
  cbn [nodes positions center_node registered].
  split; [rewrite lookup_insert_eq; eauto|].
  split; [by rewrite map_size_insert_None|].
  split; [by rewrite lookup_insert_eq|].
  assert (size (nodes st) = (size (nodes st) - 12 + 12)%nat) as Hk
    by (unfold MAX_NODES in Hcap; lia).
  destruct (circle_pos_wrap (size (nodes st) - 12)) as [Hx Hy].
  rewrite <- Hk in Hx, Hy.
  split; [exact Hx|]. split; [exact Hy|].
  split; [by apply star_center|].
  split; [intros other Hne; by rewrite !lookup_insert_ne|].
  split.
  - unfold MAX_NODES. intros H12 other p Hne.
    rewrite lookup_insert_ne by done. intros Hp.
    replace (size (nodes st)) with 12%nat by lia.
    apply (spread_twelfth_free (positions st) other p Hsp); [lia|done].
  - unfold MAX_NODES. intros H13.
    destruct (spread_filled _ Hsp (size (nodes st) - 12)%nat ltac:(lia))
      as (other & Hol & Hp).
    assert (is_Some (nodes st !! other)) as Hreg.
    { apply elem_of_dom. rewrite <- (star_dom_positions _ Hs).
      apply elem_of_dom. eauto. }
    assert (other ≠ addr) as Hne.
    { intros ->. rewrite Hnew in Hreg. by destruct Hreg. }
    exists other. split; [done|]. split; [done|].
    rewrite !lookup_insert_ne by done.
    split; [done|]. split; [done|].
    unfold dist2. rewrite Hx, Hy. ring.
Qed.

Lemma C3_counterexample :
  let st := state_of (run_init full_house) in
  let addr := str "fd00::c" in
  run_init full_house = Ok st
  ∧ Z.of_nat (size (nodes st)) = MAX_NODES
  ∧ nodes st !! addr = None
  ∧ ∃ st', add_node addr st = Ok st'
           ∧ size (nodes st') = 13%nat
           ∧ is_Some (nodes st' !! addr)
           ∧ positions st' !! addr = Some (circle_pos 12).
Proof.
  intros st addr.
  split; [apply is_ok_state_of; vm_compute; reflexivity|].
  split; [vm_compute; reflexivity|].
  split; [vm_compute; reflexivity|].
  exists (state_of (add_node addr st)).
  split; [apply is_ok_state_of; vm_compute; reflexivity|].
  split; [vm_compute; reflexivity|].
  split; [vm_compute; eexists; reflexivity|].
  vm_compute; reflexivity.
Qed.

Lemma C3_witness :
  let st := state_of (run_init crowded_house) in
  let addr := str "fd00::d" in
  let first := str "fd00::1" in
  let st12 := state_of (run_init full_house) in
  let addr12 := str "fd00::c" in
  ((run_init crowded_house = Ok st
    ∧ MAX_NODES ≤ Z.of_nat (size (nodes st))
    ∧ nodes st !! addr = None)
   ∧ ∃ st', add_node addr st = Ok st'
            ∧ size (nodes st') = 14%nat
            ∧ center_node st' = Some leader_addr
            ∧ positions st' !! addr = Some (circle_pos 13)
            ∧ positions st' !! first = Some (circle_pos 1)
            ∧ dist2 (circle_pos 13) (circle_pos 1) = 0%R)
  ∧ ((run_init full_house = Ok st12
      ∧ MAX_NODES ≤ Z.of_nat (size (nodes st12))
      ∧ nodes st12 !! addr12 = None)
     ∧ ∃ st', add_node addr12 st12 = Ok st'
              ∧ positions st' !! addr12 = Some (circle_pos 12)
              ∧ positions st' !! first = Some (circle_pos 1)
              ∧ (100 ^ 2 < dist2 (circle_pos 12) (circle_pos 1))%R).
Proof.
  intros st addr first st12 addr12. split.
  - assert (run_init crowded_house = Ok st) as H0
      by (apply is_ok_state_of; vm_compute; reflexivity).
    assert (MAX_NODES ≤ Z.of_nat (size (nodes st))) as H1
      by (vm_compute; discriminate).
    assert (nodes st !! addr = None) as H2 by (vm_compute; reflexivity).
    assert (size (nodes st) = 13%nat) as H3 by (vm_compute; reflexivity).
    assert (positions st !! first = Some (circle_pos 1)) as H4
      by (vm_compute; reflexivity).
    split; [exact (conj H0 (conj H1 H2))|].
    destruct (C3_over_capacity crowded_house st addr H0 H1 H2)
      as (st' & E1 & _ & E2 & E3 & _ & _ & E4 & E5 & _ & E6).
    rewrite H3 in E2, E3, E6.
    destruct (E6 ltac:(unfold MAX_NODES; lia)) as (_ & _ & _ & _ & _ & E7).
    exists st'. split; [exact E1|]. split; [exact E2|]. split; [exact E4|].
    split; [exact E3|]. split; [|exact E7].
    destruct (E5 first ltac:(discriminate)) as [_ ->]. exact H4.
  - assert (run_init full_house = Ok st12) as H0
      by (apply is_ok_state_of; vm_compute; reflexivity).
    assert (MAX_NODES ≤ Z.of_nat (size (nodes st12))) as H1
      by (vm_compute; discriminate).
    assert (nodes st12 !! addr12 = None) as H2 by (vm_compute; reflexivity).
    assert (size (nodes st12) = 12%nat) as H3 by (vm_compute; reflexivity).
    assert (positions st12 !! first = Some (circle_pos 1)) as H4
      by (vm_compute; reflexivity).
    split; [exact (conj H0 (conj H1 H2))|].
    destruct (C3_over_capacity full_house st12 addr12 H0 H1 H2)
      as (st' & E1 & _ & _ & E3 & _ & _ & _ & E5 & E6 & _).
    rewrite H3 in E3, E6.
    assert (positions st' !! first = Some (circle_pos 1)) as H5.
    { destruct (E5 first ltac:(discriminate)) as [_ ->]. exact H4. }
    exists st'. split; [exact E1|]. split; [exact E3|]. split; [exact H5|].
    exact (E6 ltac:(reflexivity) first _ ltac:(discriminate) H5).
Defined.

(* ===================================================================== *)
(** * The activity check *)
(* ===================================================================== *)

(** C2, as the code has it. [check_node_activity] leaves every field but the
    brushes as it is. For a node that is not the leader and has a time in
    [last_seen] it sets the brush so that the node is shown active exactly
    when [now - last_seen <= INACTIVE_TIMEOUT]; a node without [last_seen] is
    left as it is (it is not made stale); the leader is skipped. *)
Theorem C2_check_node_activity
    (now : Z) (st : visualizer) (addr : text)
    (node : ellipse_item) (label : text_item) :
  nodes st !! addr = Some (node, label) →
  let st' := check_node_activity now st in
  ∃ node',
    nodes st' !! addr = Some (node', label)
    ∧ item_pos node' = item_pos node ∧ item_data node' = item_data node
    ∧ (if decide (is_leader st addr) then node' = node
       else match last_seen st !! addr with
            | Some last_time => active node' = within_timeout now last_time
            | None => node' = node
            end)
    ∧ scene st' = scene st ∧ positions st' = positions st
    ∧ edges st' = edges st ∧ center_node st' = center_node st
    ∧ message_logs st' = message_logs st ∧ dialogs st' = dialogs st
    ∧ last_seen st' = last_seen st.
Proof.
  intros Hn st'. unfold st'. rewrite check_node_activity_lookup, Hn.
  cbn [fmap option_fmap option_map]. unfold check_one, is_leader.
  destruct (decide (center_node st = Some addr)) as [Hc|Hc].
  { exists node. by destruct node. }
  destruct (last_seen st !! addr) as [last_time|] eqn:Hl.
  2: { exists node. by destruct node. }
  unfold total_seconds_gt, within_timeout, active.
  destruct (Z.ltb_spec (INACTIVE_TIMEOUT * 1000000) (now - last_time)).
  - exists (set_brush Red node). cbn [fst snd set_brush brush item_pos item_data].
    rewrite decide_True by done. rewrite bool_decide_eq_false_2 by lia. done.
  - exists (set_brush Skyblue node).
    cbn [fst snd set_brush brush item_pos item_data].
    rewrite decide_False by done. rewrite bool_decide_eq_true_2 by lia. done.
Qed.

Lemma C2_witness :
  let st :=
    state_of (run_init [Line_read (str "9 bytes from fd00::2 hi") 0 1000000]) in
  let addr := str "fd00::2" in
  let node := Ellipse Skyblue (circle_pos 1) addr in
  let label :=
    Label (str "0::2")
      (point_add (circle_pos 1) (QPointF (F_int 35) (F_int (-5)))) in
  nodes st !! addr = Some (node, label)
  ∧ ∃ node',
      nodes (check_node_activity 17000000 st) !! addr = Some (node', label)
      ∧ active node' = false.
Proof.
  intros st addr node label.
  assert (nodes st !! addr = Some (node, label)) as Hn
    by (vm_compute; reflexivity).
  split; [exact Hn|].
  destruct (C2_check_node_activity 17000000 st addr node label Hn)
    as (node' & E1 & _ & _ & E2 & _).
  exists node'. split; [exact E1|].
  destruct (decide (is_leader st addr)) as [Hl|_]; [by vm_compute in Hl|].
  exact E2.
Defined.

(** C2, as stated, fails for a node that has no [last_seen]: the check
    leaves it sky blue, shown active, where the statement has it stale. *)
Lemma C2_counterexample :
  let st := state_of with_silent_node in
  let addr := str "fd00::2" in
  with_silent_node = Ok st
  ∧ ¬ is_leader st addr
  ∧ last_seen st !! addr = None
  ∧ ∃ node label,
      nodes (check_node_activity 60000000 st) !! addr = Some (node, label)
      ∧ brush node = Skyblue
      ∧ active node = true
      ∧ active node ≠ tick_active_stated 60000000 (last_seen st !! addr).
Proof.
  intros st addr.
  split; [apply is_ok_state_of; vm_compute; reflexivity|].
  split; [vm_compute; discriminate|].
  split; [vm_compute; reflexivity|].
  eexists _, _.
  split; [vm_compute; reflexivity|].
  split; [vm_compute; reflexivity|].
  split; [vm_compute; reflexivity|].
  vm_compute; discriminate.
Qed.

(* ===================================================================== *)
(** * Lines *)
(* ===================================================================== *)

Section lines.
Implicit Types (st : visualizer) (addr : text).

Lemma ingest_effect st a msg t_stamp t_seen st' :
  star st → ingest a msg t_stamp t_seen st = Ok st' →
  is_Some (nodes st' !! a)
  ∧ last_seen st' = <[a := t_seen]> (last_seen st)
  ∧ ∀ b, b ≠ a → nodes st' !! b = nodes st !! b.
Proof.
  intros Hs. destruct (nodes st !! a) as [e|] eqn:Hn.
  - rewrite ingest_known by eauto. intros [= <-].
    pose proof (add_message_rest st a (strftime_HMS t_stamp) msg)
      as (_ & E2 & _ & _ & _ & E6).
    cbn [nodes last_seen set_last_seen]. rewrite E2, E6, Hn. eauto.
  - rewrite ingest_fresh by done. intros [= <-].
    pose proof (add_message_rest (registered a CENTER_POS st) a
                  (strftime_HMS t_stamp) msg) as (_ & E2 & _ & _ & _ & E6).
    cbn [nodes last_seen set_last_seen]. rewrite E2, E6.
    cbn [nodes last_seen registered]. rewrite lookup_insert_eq.
    split; [eauto|]. split; [done|]. intros b Hb. by rewrite lookup_insert_ne.
Qed.

End lines.

(** C1, as the code has it. With the directive right after the address,
    ["... from fd00::1 simulate:alpha hello world"], [handle_line] works on
    the address ["fd58:sim::alpha"] and the message ["hello world"]: in any
    state reached from [__init__] it registers that address, appends the
    message to its history and sets its [last_seen], and leaves the node
    and the history of [fd00::1] alone. With ["says"] in between the
    message is ["says simulate:alpha hello world"], the patch does not apply
    and the address stays [fd00::1]. *)
Theorem C1_simulated_line (evs : list event) (t_stamp t_seen : Z) :
  let sim := str "fd58:sim::alpha" in
  let real := str "fd00::1" in
  parse_line line_direct = Ok (Some (sim, str "hello world"))
  ∧ parse_line line_says
    = Ok (Some (real, str "says simulate:alpha hello world"))
  ∧ ∃ st st',
      run_init evs = Ok st
      ∧ handle_line line_direct t_stamp t_seen st = Ok st'
      ∧ is_Some (nodes st' !! sim)
      ∧ history st' sim
        = history st sim ++ [(strftime_HMS t_stamp, str "hello world")]
      ∧ last_seen st' !! sim = Some t_seen
      ∧ nodes st' !! real = nodes st !! real
      ∧ history st' real = history st real
      ∧ last_seen st' !! real = last_seen st !! real.
Proof.
  intros sim real.
  assert (parse_line line_direct = Ok (Some (sim, str "hello world"))) as Hp
    by (vm_compute; reflexivity).
  split; [exact Hp|]. split; [vm_compute; reflexivity|].
  destruct (run_init_star evs) as (st & Hrun & Hs).
  destruct (star_handle_line line_direct t_stamp t_seen st Hs) as (st' & E & _).
  exists st, st'. split; [done|]. split; [done|].
  unfold handle_line in E. rewrite Hp in E. cbn [mbind result_bind] in E.
  destruct (ingest_effect _ _ _ _ _ _ Hs E) as (Hin & Hseen & Hother).
  assert (real ≠ sim) as Hne by (vm_compute; discriminate).
  split; [done|]. split.
  { rewrite (history_ingest _ _ _ _ _ _ sim Hs E). by rewrite decide_True. }
  split; [by rewrite Hseen, lookup_insert_eq|].
  split; [by apply Hother|]. split.
  { rewrite (history_ingest _ _ _ _ _ _ real Hs E).
    by rewrite decide_False, app_nil_r. }
  by rewrite Hseen, lookup_insert_ne.
Qed.

(** C1, as stated, fails: the line with ["says"] registers [fd00::1], not
    the synthetic address, and logs the whole remainder. *)
Lemma C1_counterexample :
  let st := state_of init in
  let st' := state_of (handle_line line_says 0 0 st) in
  init = Ok st
  ∧ handle_line line_says 0 0 st = Ok st'
  ∧ parse_line line_says ≠ Ok (Some (str "fd58:sim::alpha", str "hello world"))
  ∧ nodes st' !! str "fd58:sim::alpha" = None
  ∧ is_Some (nodes st' !! str "fd00::1")
  ∧ history st' (str "fd00::1")
    = [(str "00:00:00", str "says simulate:alpha hello world")].
Proof.
  intros st st'.
  split; [apply is_ok_state_of; vm_compute; reflexivity|].
  split; [apply is_ok_state_of; vm_compute; reflexivity|].
  split; [vm_compute; discriminate|].
  split; [vm_compute; reflexivity|].
  split; [vm_compute; eexists; reflexivity|].
  vm_compute; reflexivity.
Qed.

(** ** The message of a line *)

Lemma line_parts_gap line m pre addr gap txt tl :
  line_parts line m pre addr gap txt tl → gap_of m = Some gap.
Proof.
  intros [Hl _ _ _ _ _ Hs Hg]. unfold gap_of. rewrite Hg, Hs. simpl.
  f_equal. rewrite Hl.
  replace (pre ++ str "from " ++ addr ++ gap ++ " "%char :: txt ++ tl)
    with ((pre ++ str "from " ++ addr) ++ gap ++ " "%char :: txt ++ tl)
    by (by rewrite <- !app_assoc).
  replace (length pre + 5 + length addr)%nat
    with (length (pre ++ str "from " ++ addr))
    by (rewrite !length_app; simpl; lia).
  replace (length (pre ++ str "from " ++ addr) + length gap + 1 - 1)%nat
    with (length (pre ++ str "from " ++ addr) + length gap)%nat by lia.
  apply slice_app.
Qed.

(** C9, as the code has it. In every line that the pattern accepts, the text
    of the message is all that follows the first space character after the
    address, up to the end of the line (a final newline left out), and the
    message is this text stripped. What the lazy gap matches is what lies
    between the address and that space: it has no space in it and does not
    start with a character of an address, so it is empty when the address is
    followed by a space at once, and then words such as ["says"] are the
    start of the message. *)
Theorem C9_message_text (line : text) (m : re_match) :
  re_search line_re line = Some m →
  ∃ pre addr gap txt tl,
    line = pre ++ str "from " ++ addr ++ gap ++ " "%char :: txt ++ tl
    ∧ group m 1 = Some addr ∧ group m 2 = Some txt ∧ gap_of m = Some gap
    ∧ addr ≠ [] ∧ forallb addr_char addr = true
    ∧ forallb gap_char gap = true
    ∧ match gap with c :: _ => addr_char c = false | [] => True end
    ∧ (tl = [] ∨ tl = ["010"%char])
    ∧ txt ≠ [] ∧ forallb dot txt = true
    ∧ (∀ rest, gap ++ " "%char :: txt ++ tl = " "%char :: rest →
               gap = [] ∧ rest = txt ++ tl)
    ∧ parse_line line = (am ← simulate_patch addr (strip txt); Ok (Some am)).
Proof.
  intros (pre & addr & gap & txt & tl & Hp & Hparse)%parse_line_Some.
  exists pre, addr, gap, txt, tl.
  split; [by apply Hp|].
  split; [by eapply line_parts_group1|].
  split; [by eapply line_parts_group2|].
  split; [by eapply line_parts_gap|].
  split; [by apply Hp|]. split; [by apply Hp|].
  pose proof (parts_gap _ _ _ _ _ _ _ Hp) as Hgap.
  split; [done|]. split; [by apply Hp|].
  split; [by eapply at_end_inv, Hp|].
  split; [by apply Hp|]. split; [by apply Hp|].
  split; [|done].
  intros rest Hrest. destruct gap as [|c gap].
  - simpl in Hrest. by injection Hrest as <-.
  - injection Hrest as -> _. done.
Qed.

Lemma C9_witness :
  let line := str "12 bytes from fd00::1 says hello" in
  let m := the_match (re_search line_re line) in
  re_search line_re line = Some m
  ∧ ∃ pre addr gap txt tl,
      line = pre ++ str "from " ++ addr ++ gap ++ " "%char :: txt ++ tl
      ∧ group m 1 = Some addr ∧ group m 2 = Some txt ∧ gap_of m = Some gap
      ∧ forallb gap_char gap = true.
Proof.
  intros line m.
  assert (re_search line_re line = Some m) as Hm by (vm_compute; reflexivity).
  split; [exact Hm|].
  destruct (C9_message_text line m Hm)
    as (pre & addr & gap & txt & tl & E1 & E2 & E3 & E4 & _ & _ & E5 & _).
  exists pre, addr, gap, txt, tl.
  exact (conj E1 (conj E2 (conj E3 (conj E4 E5)))).
Defined.

(** C9, as stated, fails on a line with a tab after the address: the gap is
    not empty, it takes the tab and ["says"], and the message is not the
    remainder after the first whitespace character. *)
Lemma C9_counterexample :
  let m := the_match (re_search line_re line_tab) in
  re_search line_re line_tab = Some m
  ∧ group m 1 = Some (str "fd00::1")
  ∧ group m 2 = Some (str "hi there")
  ∧ gap_of m = Some ("009"%char :: str "says")
  ∧ gap_of m ≠ Some []
  ∧ parse_line line_tab = Ok (Some (str "fd00::1", str "hi there"))
  ∧ after_first_whitespace (after_address m) = str "says hi there"
  ∧ after_first_whitespace (after_address m) ≠ str "hi there".
Proof.
  intros m.
  split; [vm_compute; reflexivity|].
  split; [vm_compute; reflexivity|].
  split; [vm_compute; reflexivity|].
  split; [vm_compute; reflexivity|].
  split; [vm_compute; discriminate|].
  split; [vm_compute; reflexivity|].
  split; [vm_compute; reflexivity|].
  vm_compute; discriminate.
Qed.

(** ** The id of a simulated node *)

(** C10. When the patch applies, the id is the second of the fields that
    the colons cut the first word of the message into: with the word
    [pfx:id] or [pfx:id:more] the address is ["fd58:sim::" ++ id] and the
    message is what follows the word. So for ["simulate:a:b rest"] the
    address is ["fd58:sim::a"], and for ["simulate: rest"] it is
    ["fd58:sim::"]. *)
Theorem C10_simulate_id :
  (∀ node_addr message word rest pfx id more,
     startswith (str "simulate:") (lower message) = true →
     split_ws_1 message = [word; rest] →
     word = pfx ++ ":"%char :: id ++ more →
     (":"%char ∉ pfx) → (":"%char ∉ id) →
     (more = [] ∨ ∃ more', more = ":"%char :: more') →
     simulate_patch node_addr message = Ok (str "fd58:sim::" ++ id, rest))
  ∧ simulate_patch (str "fd00::1") (str "simulate:a:b rest")
    = Ok (str "fd58:sim::a", str "rest")
  ∧ simulate_patch (str "fd00::1") (str "simulate: rest")
    = Ok (str "fd58:sim::", str "rest")
  ∧ parse_line (str "from fd00::1 simulate:a:b rest")
    = Ok (Some (str "fd58:sim::a", str "rest"))
  ∧ parse_line (str "from fd00::1 simulate: rest")
    = Ok (Some (str "fd58:sim::", str "rest")).
Proof.
  split; [|repeat split; vm_compute; reflexivity].
  intros node_addr message word rest pfx id more Hsim Hsplit -> Hpfx Hid Hmore.
  unfold simulate_patch. rewrite Hsim, Hsplit.
  rewrite decide_True by done. cbn [index lookup list_lookup mbind result_bind].
  rewrite split_on_app by done.
  destruct Hmore as [->|[more' ->]].
  - rewrite app_nil_r, split_on_last by done. done.
  - rewrite split_on_app by done. done.
Qed.

Lemma C10_witness :
  simulate_patch (str "fd00::1") (str "Simulate:n7:x:y  temp 21 ")
  = Ok (str "fd58:sim::n7", str "temp 21 ").
Proof.
  apply (proj1 C10_simulate_id (str "fd00::1") (str "Simulate:n7:x:y  temp 21 ")
           (str "Simulate:n7:x:y") (str "temp 21 ")
           (str "Simulate") (str "n7") (str ":x:y")).
  - vm_compute; reflexivity.
  - vm_compute; reflexivity.
  - vm_compute; reflexivity.
  - apply (bool_decide_unpack _). by vm_compute.
  - apply (bool_decide_unpack _). by vm_compute.
  - right. by eexists.
Defined.

Lemma C4_witness :
  let st := state_of (run_init []) in
  let line := str "8 bytes from fd00::1 ping" in
  (run_init [] = Ok st
   ∧ parse_line line = Ok (Some (str "fd00::1", str "ping"))
   ∧ nodes st !! str "fd00::1" = None)
  ∧ ∃ st', handle_line line 0 0 st = Ok st'
           ∧ positions st' !! str "fd00::1" = Some (circle_pos 1).
Proof.
  intros st line.
  assert (run_init [] = Ok st) as H0
    by (apply is_ok_state_of; vm_compute; reflexivity).
  assert (parse_line line = Ok (Some (str "fd00::1", str "ping"))) as H1
    by (vm_compute; reflexivity).
  assert (nodes st !! str "fd00::1" = None) as H2 by (vm_compute; reflexivity).
  split; [exact (conj H0 (conj H1 H2))|].
  destruct (proj1 C4_layout [] st line 0 0 _ _ H0 H1 H2) as (st' & E1 & E2 & _).
  exists st'. exact (conj E1 E2).
Defined.

(* ===================================================================== *)
(** * Examples *)
(* ===================================================================== *)

Section examples.

Example parse_plain :
  parsed "12 bytes from fd58:47f8::1 hello mesh" = Some ("fd58:47f8::1", "hello mesh")%string.
Proof. vm_compute; reflexivity. Qed.

Example parse_port_is_message :
  parsed "12 bytes from fd00::1 49153 hello" = Some ("fd00::1", "49153 hello")%string.
Proof. vm_compute; reflexivity. Qed.

Example parse_comma_in_gap :
  parsed "from fd00::1, hello" = Some ("fd00::1", "hello")%string.
Proof. vm_compute; reflexivity. Qed.

Example parse_strips_message :
  parsed "from ab    spaced out" = Some ("ab", "spaced out")%string.
Proof. vm_compute; reflexivity. Qed.

Example parse_first_from_wins :
  parsed "from a from b c" = Some ("a", "from b c")%string.
Proof. vm_compute; reflexivity. Qed.

Example parse_second_from :
  parsed "from zz from ab hello" = Some ("ab", "hello")%string.
Proof. vm_compute; reflexivity. Qed.

Example parse_upper_case_address :
  parsed "from FD00::1 hello" = None.
Proof. vm_compute; reflexivity. Qed.

Example parse_no_message : parsed "from fd00::1 " = None.
Proof. vm_compute; reflexivity. Qed.

Example parse_final_newline :
  parse_line (str "from ab cd" ++ ["010"%char]) = Ok (Some (str "ab", str "cd")).
Proof. vm_compute; reflexivity. Qed.

Example parse_inner_newline :
  parse_line (str "from ab c" ++ ["010"%char] ++ str "d") = Ok None.
Proof. vm_compute; reflexivity. Qed.

Example parse_simulate_one_word :
  parsed "from fd00::1 simulate:alpha" = Some ("fd00::1", "simulate:alpha")%string.
Proof. vm_compute; reflexivity. Qed.

Example parse_simulate_upper :
  parsed "from fd00::1 SIMULATE:Beta   on  air " = Some ("fd58:sim::Beta", "on  air")%string.
Proof. vm_compute; reflexivity. Qed.

Example split_ws_1_ex :
  split_ws_1 (str "  a  b c ") = [str "a"; str "b c "].
Proof. vm_compute; reflexivity. Qed.

Example split_on_ex :
  split_on ":" (str "a::b:") = [str "a"; []; str "b"; []].
Proof. vm_compute; reflexivity. Qed.

Example strip_ex :
  strip ("160"%char :: "009"%char :: str "x y" ++ ["133"%char; " "%char]) = str "x y".
Proof. vm_compute; reflexivity. Qed.

Example strftime_ex : strftime_HMS ((13 * 3600 + 5 * 60 + 9) * 1000000 + 999999) = str "13:05:09".
Proof. vm_compute; reflexivity. Qed.

(** A node goes stale one second after the timeout and is active again with
    its next line. *)
Example activity_transition :
  let brush_after (evs : list event) :=
    (fun e : ellipse_item * text_item => brush e.1)
      <$> nodes (state_of (run_init evs)) !! str "fd00::7" in
  let line := str "4 bytes from fd00::7 ping" in
  brush_after [Line_read line 0 0; Status_timer 15000000] = Some Skyblue
  ∧ brush_after [Line_read line 0 0; Status_timer 16000000] = Some Red
  ∧ brush_after [Line_read line 0 0; Status_timer 16000000;
                 Line_read line 16000000 16000000; Status_timer 17000000]
    = Some Skyblue.
Proof. vm_compute. done. Qed.

End examples.

(* ===================================================================== *)
(** * Further properties: texts *)
(* ===================================================================== *)

Section strip_facts.
Implicit Types (s t : text).

Lemma lstrip_split s :
  ∃ ws, s = ws ++ lstrip s ∧ forallb isspace ws = true.
Proof.
  induction s as [|c s (ws & IH & Hws)]; [by exists []|].
  simpl. destruct (isspace c) eqn:E.
  - exists (c :: ws). simpl. rewrite E, Hws. split; [by f_equal|done].
  - by exists [].
Qed.

Lemma lstrip_no_lead s : no_lead (lstrip s).
Proof.
  induction s as [|c s IH]; [done|]. simpl.
  destruct (isspace c) eqn:E; [done|]. by simpl.
Qed.

Lemma lstrip_id s : no_lead s → lstrip s = s.
Proof. destruct s as [|c s]; [done|]. simpl. by intros ->. Qed.

Lemma rstrip_split s :
  ∃ ws, s = rstrip s ++ ws ∧ forallb isspace ws = true.
Proof.
  destruct (lstrip_split (rev s)) as (ws & E & Hws). exists (rev ws). split.
  - unfold rstrip. rewrite <- rev_app_distr, <- E. by rewrite rev_involutive.
  - rewrite forallb_forall in Hws |- *. intros c Hc. apply Hws.
    by apply in_rev.
Qed.

Lemma rstrip_no_trail s : no_trail (rstrip s).
Proof.
  unfold no_trail, rstrip. rewrite rev_involutive. apply lstrip_no_lead.
Qed.

Lemma rstrip_id s : no_trail s → rstrip s = s.
Proof.
  intros H. unfold rstrip. rewrite lstrip_id by done. apply rev_involutive.
Qed.

Lemma rstrip_no_lead s : no_lead s → no_lead (rstrip s).
Proof.
  destruct (rstrip_split s) as (ws & E & _). intros H.
  destruct (rstrip s) as [|c r]; [done|]. rewrite E in H. done.
Qed.

Lemma no_trail_suffix u v : no_trail (u ++ v) → v ≠ [] → no_trail v.
Proof.
  unfold no_trail. rewrite rev_app_distr. intros H Hv.
  destruct (rev v) as [|c r] eqn:E; [|done].
  apply (f_equal (@rev ascii)) in E. rewrite rev_involutive in E. done.
Qed.

Lemma lstrip_no_trail s : no_trail s → no_trail (lstrip s).
Proof.
  destruct (lstrip_split s) as (ws & E & _). intros H.
  destruct (lstrip s) as [|c r] eqn:El; [done|].
  rewrite E in H. by eapply no_trail_suffix.
Qed.

Lemma strip_no_lead s : no_lead (strip s).
Proof. apply rstrip_no_lead, lstrip_no_lead. Qed.

Lemma strip_no_trail s : no_trail (strip s).
Proof. apply rstrip_no_trail. Qed.

Lemma strip_id s : no_lead s → no_trail s → strip s = s.
Proof. intros H1 H2. unfold strip. by rewrite lstrip_id, rstrip_id. Qed.

Lemma strip_idem s : strip (strip s) = strip s.
Proof. apply strip_id; [apply strip_no_lead|apply strip_no_trail]. Qed.

Lemma no_lead_all_space s : no_lead s → forallb isspace s = true → s = [].
Proof. destruct s as [|c s]; [done|]. simpl. intros ->. done. Qed.

(** A text strips to nothing exactly when it is all whitespace. *)
Lemma strip_nil_iff s : strip s = [] ↔ forallb isspace s = true.
Proof.
  destruct (lstrip_split s) as (ws1 & E1 & H1).
  destruct (rstrip_split (lstrip s)) as (ws2 & E2 & H2).
  fold (strip s) in E2. split.
  - intros E. rewrite E in E2. rewrite E1, E2, forallb_app, H1. done.
  - intros H. rewrite E1, forallb_app in H. apply andb_prop in H as [_ H].
    unfold strip. rewrite (no_lead_all_space (lstrip s)); [done| |done].
    apply lstrip_no_lead.
Qed.

(** What stripping keeps: the text between the whitespace at both ends. *)
Lemma strip_split s :
  ∃ ws1 ws2, s = ws1 ++ strip s ++ ws2
             ∧ forallb isspace ws1 = true ∧ forallb isspace ws2 = true.
Proof.
  destruct (lstrip_split s) as (ws1 & E1 & H1).
  destruct (rstrip_split (lstrip s)) as (ws2 & E2 & H2).
  exists ws1, ws2. split; [|done]. rewrite E1 at 1. by rewrite E2 at 1.
Qed.

End strip_facts.

Section words.
Implicit Types (s t : text).

(** The two parts of [split(None, 1)]: a word without whitespace and what
    follows it, without the whitespace in between. *)
Lemma split_ws_1_two s p0 p1 :
  split_ws_1 s = [p0; p1] →
  ∃ rest, lstrip s = p0 ++ rest ∧ p0 ≠ []
          ∧ forallb (fun c => negb (isspace c)) p0 = true
          ∧ p1 = lstrip rest ∧ p1 ≠ [].
Proof.
  unfold split_ws_1. pose proof (lstrip_no_lead s) as Hlead.
  destruct (lstrip s) as [|c w] eqn:E; [done|].
  pose proof (break_at_app isspace (c :: w)) as Happ.
  pose proof (break_at_forall isspace (c :: w)) as Hall.
  assert ((break_at isspace (c :: w)).1 ≠ []) as Hne.
  { simpl in Hlead. simpl. rewrite Hlead. by destruct (break_at isspace w). }
  destruct (break_at isspace (c :: w)) as [word rest]. cbn [fst snd] in *.
  destruct (lstrip rest) as [|c' r'] eqn:Er; intros [= <- <-].
  exists rest. by rewrite Er.
Qed.

(** The fields of [split(sep)] do not hold the separator. *)
Lemma split_on_fields sep s f :
  f ∈ split_on sep s → (sep ∉ f) ∧ ∀ c, c ∈ f → c ∈ s.
Proof.
  revert f. induction s as [|c s IH]; intros f.
  - simpl. intros ->%list_elem_of_singleton. split; [apply not_elem_of_nil|done].
  - simpl. destruct (decide (c = sep)) as [->|Hc].
    + intros [->|Hf]%elem_of_cons.
      * split; [apply not_elem_of_nil|]. by intros c [] %elem_of_nil.
      * destruct (IH f Hf) as [H1 H2]. split; [done|].
        intros c Hcf. right. by apply H2.
    + destruct (split_on sep s) as [|f0 fs] eqn:E.
      { intros ->%list_elem_of_singleton. split.
        - by intros ->%list_elem_of_singleton.
        - intros c' ->%list_elem_of_singleton. by left. }
      intros [->|Hf]%elem_of_cons.
      * destruct (IH f0) as [H1 H2]; [by left|]. split.
        -- intros [->|H]%elem_of_cons; done.
        -- intros c' [->|H]%elem_of_cons; [by left|]. right. by apply H2.
      * destruct (IH f) as [H1 H2]; [by right|]. split; [done|].
        intros c' Hcf. right. by apply H2.
Qed.

Lemma simulate_patch_cases node_addr message a m :
  simulate_patch node_addr message = Ok (a, m) →
  (a = node_addr ∧ m = message)
  ∨ ∃ p0 id, split_ws_1 message = [p0; m]
             ∧ split_on ":" p0 !! 1%nat = Some id
             ∧ a = str "fd58:sim::" ++ id.
Proof.
  unfold simulate_patch. destruct (startswith _ _); [|intros [= <- <-]; by left].
  destruct (decide _) as [Hlen|]; [|intros [= <- <-]; by left].
  destruct (split_ws_1 message) as [|p0 [|p1 [|]]]; try done.
  cbn [index lookup list_lookup mbind result_bind].
  destruct (split_on ":" p0) as [|f0 [|id fs]] eqn:E; try done.
  cbn [index lookup list_lookup mbind result_bind]. intros [= <- <-].
  right. exists p0, id. by rewrite E.
Qed.

End words.

(* ===================================================================== *)
(** * Further properties: what a line is parsed to *)
(* ===================================================================== *)

Lemma parse_line_cases line :
  (re_search line_re line = None ∧ parse_line line = Ok None)
  ∨ ∃ m a msg, re_search line_re line = Some m
               ∧ parse_line line = Ok (Some (a, msg)).
Proof.
  destruct (re_search line_re line) as [m|] eqn:Hm.
  - right. destruct (parse_line_Some _ _ Hm)
      as (pre & addr & gap & txt & tl & _ & ->).
    destruct (simulate_patch_total addr (strip txt)) as [[a msg] ->].
    by exists m, a, msg.
  - left. unfold parse_line. by rewrite Hm.
Qed.

(** X1. Parsing never raises, whatever the text: the index [1] taken from
    [parts[0].split(":")] exists whenever the patch gets that far, and both
    groups of the pattern are set whenever it matches. *)
Theorem X1_parse_never_raises :
  (∀ node_addr message, ∃ am, simulate_patch node_addr message = Ok am)
  ∧ (∀ line, (re_search line_re line = None ∧ parse_line line = Ok None)
             ∨ ∃ m a msg, re_search line_re line = Some m
                          ∧ parse_line line = Ok (Some (a, msg))).
Proof. split; [apply simulate_patch_total|apply parse_line_cases]. Qed.

Lemma parse_line_inv line a msg :
  parse_line line = Ok (Some (a, msg)) →
  ∃ m pre addr gap txt tl,
    re_search line_re line = Some m
    ∧ line_parts line m pre addr gap txt tl
    ∧ simulate_patch addr (strip txt) = Ok (a, msg).
Proof.
  destruct (re_search line_re line) as [m|] eqn:Hm.
  - destruct (parse_line_Some _ _ Hm)
      as (pre & addr & gap & txt & tl & Hp & ->).
    destruct (simulate_patch addr (strip txt)) as [am|e] eqn:E; [|done].
    cbn [mbind result_bind]. intros [= ->]. by exists m, pre, addr, gap, txt, tl.
  - unfold parse_line. by rewrite Hm.
Qed.

(** X2. The address that a line is filed under is either what the pattern
    took, a non-empty run of digits, [a] to [f] and colons, or
    ["fd58:sim::"] followed by an id without colon and without whitespace;
    an address of the second kind is not of the first kind, so a simulated
    node is never a node of the mesh and never the leader. *)
Theorem X2_address_kinds (line a msg : text) :
  parse_line line = Ok (Some (a, msg)) →
  (a ≠ [] ∧ forallb addr_char a = true)
  ∨ (forallb addr_char a = false ∧ a ≠ leader_addr
     ∧ ∃ id, a = str "fd58:sim::" ++ id ∧ (":"%char ∉ id)
             ∧ forallb (fun c => negb (isspace c)) id = true).
Proof.
  intros (m & pre & addr & gap & txt & tl & _ & Hp & Hsim)%parse_line_inv.
  apply simulate_patch_cases in Hsim as [[-> _]|(p0 & id & Hsplit & Hid & ->)].
  { left. apply Hp. }
  right.
  assert (forallb addr_char (str "fd58:sim::" ++ id) = false) as Hno.
  { rewrite forallb_app. by vm_compute. }
  split; [done|]. split.
  { intros E. rewrite E in Hno. by vm_compute in Hno. }
  exists id. split; [done|].
  apply split_ws_1_two in Hsplit as (rest & _ & _ & Hword & _).
  assert (id ∈ split_on ":" p0) as Hin by (eapply list_elem_of_lookup_2; eauto).
  apply split_on_fields in Hin as [Hcolon Hsub]. split; [done|].
  rewrite forallb_forall in Hword |- *. intros c Hc. apply Hword.
  apply list_elem_of_In, Hsub. by apply list_elem_of_In.
Qed.

Lemma X2_witness :
  let line := str "7 bytes from fd00::9 simulate:pump on" in
  parse_line line = Ok (Some (str "fd58:sim::pump", str "on"))
  ∧ forallb addr_char (str "fd58:sim::pump") = false.
Proof.
  intros line.
  assert (parse_line line = Ok (Some (str "fd58:sim::pump", str "on"))) as H
    by (vm_compute; reflexivity).
  split; [exact H|].
  destruct (X2_address_kinds _ _ _ H) as [[_ E]|[E _]]; [|exact E].
  by vm_compute in E.
Defined.

Lemma no_trail_strip_ne (t : text) : t ≠ [] → no_trail t → strip t ≠ [].
Proof.
  intros Ht Htr E. apply strip_nil_iff in E.
  unfold no_trail in Htr. destruct (rev t) as [|c r] eqn:Er.
  - apply (f_equal (@rev ascii)) in Er. rewrite rev_involutive in Er. done.
  - simpl in Htr. rewrite forallb_forall in E.
    rewrite E in Htr; [done|]. apply in_rev. rewrite Er. by left.
Qed.

(** X3. A line that [read_serial] hands over is stripped, and then the
    message that is logged is not empty and has no whitespace at its start or
    at its end, with or without the patch for simulated nodes. *)
Theorem X3_message_trimmed (raw a msg : text) :
  parse_line (strip raw) = Ok (Some (a, msg)) →
  msg ≠ [] ∧ no_lead msg ∧ no_trail msg ∧ strip msg = msg.
Proof.
  intros (m & pre & addr & gap & txt & tl & _ & Hp & Hsim)%parse_line_inv.
  assert (msg ≠ [] ∧ no_lead msg ∧ no_trail msg) as (H1 & H2 & H3);
    [|by rewrite strip_id].
  pose proof (strip_no_trail raw) as Htrail.
  rewrite (parts_line _ _ _ _ _ _ _ Hp) in Htrail.
  destruct (parts_txt _ _ _ _ _ _ _ Hp) as [Htxt _].
  assert (tl = []) as ->.
  { destruct (at_end_inv tl (parts_tl _ _ _ _ _ _ _ Hp)) as [->| ->]; [done|].
    exfalso. revert Htrail. unfold no_trail.
    rewrite !app_assoc, app_comm_cons, !app_assoc, rev_app_distr. done. }
  rewrite app_nil_r in Htrail.
  assert (no_trail txt) as Htt.
  { revert Htrail. rewrite !app_assoc.
    change (?x ++ " "%char :: txt) with (x ++ [" "%char] ++ txt).
    rewrite app_assoc. intros H. by eapply no_trail_suffix. }
  pose proof (no_trail_strip_ne txt Htxt Htt) as Hne.
  apply simulate_patch_cases in Hsim as [[_ ->]|(p0 & id & Hsplit & _ & _)].
  { split; [done|]. split; [apply strip_no_lead|apply strip_no_trail]. }
  apply split_ws_1_two in Hsplit as (rest & Hl & _ & _ & -> & Hm).
  split; [done|]. split; [apply lstrip_no_lead|].
  apply lstrip_no_trail. rewrite lstrip_id in Hl by apply strip_no_lead.
  pose proof (strip_no_trail txt) as Hs. rewrite Hl in Hs.
  eapply no_trail_suffix; [exact Hs|]. intros ->. done.
Qed.

Lemma X3_witness :
  let raw := str "  9 bytes from fd00::1   temp 21 C  " in
  parse_line (strip raw) = Ok (Some (str "fd00::1", str "temp 21 C"))
  ∧ strip (str "temp 21 C") = str "temp 21 C".
Proof.
  intros raw.
  assert (parse_line (strip raw) = Ok (Some (str "fd00::1", str "temp 21 C")))
    as H by (vm_compute; reflexivity).
  split; [exact H|].
  exact (proj2 (proj2 (proj2 (X3_message_trimmed _ _ _ H)))).
Defined.

Section acceptance.
Implicit Types (s t : text) (i : nat).

Lemma search_from_complete r whole i pre s :
  mtch r (i + length pre) s ≠ [] → is_Some (search_from r whole i (pre ++ s)).
Proof.
  revert i. induction pre as [|c pre IH]; intros i; cbn [length app].
  - rewrite Nat.add_0_r. intros H. destruct s as [|c s]; cbn [search_from];
      destruct (mtch r i _); done.
  - rewrite Nat.add_succ_r. intros H. cbn [search_from].
    destruct (mtch r i (c :: pre ++ s)); [|done]. by apply (IH (S i)).
Qed.

Lemma dot_run_end u tl :
  forallb dot u = true → at_end tl = true → (dot_run (u ++ tl)).2 = tl.
Proof.
  intros Hu Htl. induction u as [|c u IH].
  - destruct (at_end_inv tl Htl) as [->| ->]; [done|]. by rewrite dot_run_stop.
  - cbn [forallb] in Hu. apply andb_prop in Hu as [Hc Hu].
    rewrite <- app_comm_cons, dot_run_cons by done. by apply IH.
Qed.

Lemma text_ok_end txt tl :
  txt ≠ [] → forallb dot txt = true → at_end tl = true →
  text_ok (txt ++ tl) = true.
Proof.
  destruct txt as [|c txt]; [done|]. intros _. cbn [forallb].
  intros [Hc Ht]%andb_prop Htl. rewrite <- app_comm_cons. cbn [text_ok].
  by rewrite Hc, dot_run_end, Htl.
Qed.

Lemma mtch_re_gap_accepts i gap rest :
  forallb dot gap = true → text_ok rest = true →
  mtch re_gap i (gap ++ " "%char :: rest) ≠ [].
Proof.
  intros Hgap Hok. revert i. induction gap as [|c gap IH]; intros i.
  - cbn [app]. rewrite mtch_re_gap_cons, mtch_re_text, Hok.
    by change (is_space_char " ") with true.
  - cbn [forallb] in Hgap. apply andb_prop in Hgap as [Hc Hgap].
    rewrite <- app_comm_cons, mtch_re_gap_cons, Hc.
    intros [_ E]%app_eq_nil. by apply (IH Hgap (S i)).
Qed.

Lemma mtch_re_addr_run i a t :
  a ≠ [] → forallb addr_char a = true →
  mtch re_gap (i + length a) t ≠ [] → mtch re_addr i (a ++ t) ≠ [].
Proof.
  intros Ha Haa Ht. rewrite mtch_re_addr.
  destruct a as [|c a]; [done|]. cbn [forallb] in Haa.
  apply andb_prop in Haa as [Hc Haa]. rewrite <- app_comm_cons, Hc.
  apply (flat_map_elem_ne _ _ ((S i + length a)%nat, t)).
  - apply list_elem_of_In, in_rev. rewrite rev_involutive.
    apply list_elem_of_In. by apply rep_ends_elem.
  - unfold addr_way. cbn [fst snd]. cbn [length] in Ht.
    rewrite Nat.add_succ_r in Ht. intros E%map_eq_nil. done.
Qed.

Lemma forallb_gap_dot gap : forallb gap_char gap = true → forallb dot gap = true.
Proof.
  rewrite !forallb_forall. intros H c Hc. specialize (H c Hc).
  unfold gap_char in H. by apply andb_prop in H as [? _].
Qed.

Lemma line_shape_search line :
  is_Some (re_search line_re line) ↔ line_shape line.
Proof.
  split.
  - intros [m (pre & addr & gap & txt & tl & Hp)%re_search_line_re].
    exists pre, addr, gap, txt, tl. destruct Hp as [Hl [? ?] _ Hg [? ?] ? _ _].
    repeat split; try done. by apply forallb_gap_dot.
  - intros (pre & addr & gap & txt & tl & -> & Ha & Haa & Hg & Ht & Hdt & Htl).
    apply search_from_complete. rewrite mtch_line_re, startswith_app.
    change (skipn 5 (str "from " ++ ?x)) with x. intros E%map_eq_nil.
    revert E. apply mtch_re_addr_run; [done..|].
    apply mtch_re_gap_accepts; [done|]. by apply text_ok_end.
Qed.

End acceptance.

(** X4. [handle_line] acts on a line exactly when some ["from "] in it is
    followed by at least one character of an address, then any characters, a
    space and at least one more character, with no newline from the address
    on except possibly as the last character of the line. Every other line is
    dropped: the visualizer stays as it is and nothing is raised. *)
Theorem X4_accepted_lines (line : text) :
  (is_Some (re_search line_re line) ↔ line_shape line)
  ∧ (line_shape line ↔ ∃ a msg, parse_line line = Ok (Some (a, msg)))
  ∧ (¬ line_shape line ↔ parse_line line = Ok None)
  ∧ (¬ line_shape line →
     ∀ t_stamp t_seen st, handle_line line t_stamp t_seen st = Ok st).
Proof.
  pose proof (line_shape_search line) as Hiff.
  destruct (parse_line_cases line)
    as [[Hnone Hp]|(m & a & msg & Hsome & Hp)].
  - assert (¬ line_shape line) as Hno.
    { intros H%Hiff. rewrite Hnone in H. by destruct H. }
    split; [done|]. split.
    { split; [done|]. intros (a & msg & E). congruence. }
    split; [done|]. intros _ t_stamp t_seen st. unfold handle_line.
    by rewrite Hp.
  - assert (line_shape line) as Hyes by (apply Hiff; eauto).
    split; [done|]. split; [split; eauto|].
    split; [split; [done|congruence]|done].
Qed.

(* ===================================================================== *)
(** * Further properties: what the runs keep *)
(* ===================================================================== *)

Section tidy_runs.
Implicit Types (st : visualizer) (addr : text) (evs : list event).

Lemma dialog_rows d rows :
  foldl (fun d (r : text * text) => dialog_add_message r.1 r.2 d) d rows
  = Dialog (window_title d) (table d ++ rows).
Proof.
  revert d. induction rows as [|[ts msg] rows IH]; intros d; simpl.
  - rewrite app_nil_r. by destruct d.
  - rewrite IH. simpl. by rewrite <- app_assoc.
Qed.

Lemma ingest_inv st a msg t_stamp t_seen st' :
  star st → ingest a msg t_stamp t_seen st = Ok st' →
  let st0 :=
    match nodes st !! a with
    | Some _ => st
    | None => registered a CENTER_POS st
    end in
  st' = set_last_seen <[a := t_seen]>
          (add_message a (strftime_HMS t_stamp) msg st0).
Proof.
  intros Hs. destruct (nodes st !! a) as [e|] eqn:Hn.
  - rewrite ingest_known by eauto. by intros [= <-].
  - rewrite ingest_fresh by done. by intros [= <-].
Qed.

Lemma ingest_fields st a msg t_stamp t_seen st' :
  star st → ingest a msg t_stamp t_seen st = Ok st' →
  dialogs st' = alter (dialog_add_message (strftime_HMS t_stamp) msg) a (dialogs st)
  ∧ message_logs st'
    = <[a := history st a ++ [(strftime_HMS t_stamp, msg)]]> (message_logs st)
  ∧ last_seen st' = <[a := t_seen]> (last_seen st)
  ∧ center_node st' = center_node st
  ∧ match nodes st !! a with
    | Some _ =>
        nodes st' = nodes st ∧ positions st' = positions st
        ∧ edges st' = edges st ∧ scene st' = scene st
    | None =>
        let pos := circle_pos (size (nodes st)) in
        nodes st' = <[a := (Ellipse Skyblue pos a, label_of a pos)]> (nodes st)
        ∧ positions st' = <[a := pos]> (positions st)
        ∧ edges st' = <[a := connection_line pos CENTER_POS]> (edges st)
        ∧ scene st'
          = scene st ++ [Scene_node a; Scene_label (label_of a pos);
                         Scene_line (connection_line pos CENTER_POS)]
    end.
Proof.
  intros Hs Hi. pose proof (ingest_inv _ _ _ _ _ _ Hs Hi) as E. cbv zeta in E.
  destruct (nodes st !! a) as [e|] eqn:Hn; subst st'.
  - pose proof (add_message_rest st a (strftime_HMS t_stamp) msg)
      as (E1 & E2 & E3 & E4 & E5 & E6).
    cbn [dialogs message_logs last_seen center_node nodes positions edges scene
         set_last_seen].
    rewrite add_message_dialogs, add_message_logs, E6. done.
  - pose proof (add_message_rest (registered a CENTER_POS st) a
                  (strftime_HMS t_stamp) msg) as (E1 & E2 & E3 & E4 & E5 & E6).
    destruct (star_fresh _ _ Hs Hn) as (_ & He & _).
    cbn [dialogs message_logs last_seen center_node nodes positions edges scene
         set_last_seen].
    rewrite add_message_dialogs, add_message_logs, E1, E2, E3, E4, E5, E6.
    unfold registered. cbn [dialogs message_logs last_seen center_node nodes
      positions edges scene]. rewrite He.
    change (history (Visualizer _ _ _ _ _ (message_logs st) _ _) a)
      with (history st a).
    rewrite <- app_assoc. done.
Qed.

Lemma size_nodes_pos st : star st → (0 < size (nodes st))%nat.
Proof.
  intros Hs. destruct (star_leader _ Hs) as [l Hl].
  destruct (decide (size (nodes st) = 0%nat)) as [E|]; [|lia].
  apply map_size_empty_inv in E. rewrite E in Hl. by rewrite lookup_empty in Hl.
Qed.

Lemma tidy_ingest st a msg t_stamp t_seen st' :
  tidy st → ingest a msg t_stamp t_seen st = Ok st' → tidy st'.
Proof.
  intros [Hs Hent Hdlg Hsc Hkeys] Hi.
  destruct (star_ingest st a msg t_stamp t_seen Hs) as (st'' & E & Hs').
  rewrite Hi in E. injection E as <-.
  pose proof (fun addr => history_ingest _ _ _ _ _ _ addr Hs Hi) as Hhist.
  destruct (ingest_fields _ _ _ _ _ _ Hs Hi) as (Ed & El & Es & Ec & Hn).
  split; [done|..].
  - intros addr node label. destruct (nodes st !! a) as [e|] eqn:Ha.
    + destruct Hn as (-> & -> & _). apply Hent.
    + destruct Hn as (-> & -> & _). destruct (decide (addr = a)) as [->|Hne].
      * rewrite !lookup_insert_eq. by intros [= <- <-].
      * rewrite !lookup_insert_ne by done. apply Hent.
  - intros addr d. rewrite Ed, (Hhist addr).
    destruct (decide (addr = a)) as [->|Hne].
    + rewrite lookup_alter_eq. destruct (dialogs st !! a) as [d0|] eqn:Hd0; [|done].
      intros [= <-]. by rewrite (Hdlg a d0 Hd0).
    + rewrite lookup_alter_ne, app_nil_r by done. apply Hdlg.
  - destruct (nodes st !! a) as [e|] eqn:Ha.
    + by destruct Hn as (-> & _ & _ & ->).
    + destruct Hn as (-> & _ & _ & ->).
      rewrite map_size_insert_None, length_app by done. simpl. lia.
  - by rewrite El, Es, !dom_insert_L, Hkeys.
Qed.

Lemma check_one_fields st now addr entry :
  item_pos (check_one st now addr entry).1 = item_pos entry.1
  ∧ item_data (check_one st now addr entry).1 = item_data entry.1
  ∧ (check_one st now addr entry).2 = entry.2.
Proof.
  unfold check_one. destruct (decide _); [done|].
  destruct (last_seen st !! addr); [|done].
  by destruct (total_seconds_gt _ _).
Qed.

Lemma tidy_check_node_activity now st : tidy st → tidy (check_node_activity now st).
Proof.
  intros [Hs Hent Hdlg Hsc Hkeys].
  split; [by apply star_check_node_activity|..]; try done.
  - intros addr node label. rewrite check_node_activity_lookup.
    destruct (nodes st !! addr) as [[n0 l0]|] eqn:Hn; [|done].
    cbn [fmap option_fmap option_map]. intros E.
    destruct (check_one_fields st now addr (n0, l0)) as (E1 & E2 & E3).
    injection E as E. rewrite E in E1, E2, E3. cbn [fst snd] in *.
    destruct (Hent addr n0 l0 Hn) as (H1 & H2 & H3).
    rewrite E1, E2, E3. done.
  - rewrite <- (size_dom (D := gset text)), check_node_activity_dom, size_dom.
    done.
Qed.

Lemma tidy_click_handler addr st :
  tidy st → is_Some (nodes st !! addr) → tidy (click_handler addr st).
Proof.
  intros [Hs Hent Hdlg Hsc Hkeys] Hn.
  split; [by apply star_click_handler|..].
  - unfold click_handler. by destruct (dialogs st !! addr).
  - unfold click_handler. destruct (dialogs st !! addr) eqn:Hd; [done|].
    intros a d. cbn [dialogs set_dialogs].
    change (history (set_dialogs ?f ?s) a) with (history s a).
    destruct (decide (a = addr)) as [->|Hne].
    + rewrite lookup_insert_eq, dialog_rows. by intros [= <-].
    + rewrite lookup_insert_ne by done. apply Hdlg.
  - unfold click_handler. by destruct (dialogs st !! addr).
  - unfold click_handler. by destruct (dialogs st !! addr).
Qed.

Lemma tidy_step ev st st' : tidy st → step ev st = Ok st' → tidy st'.
Proof.
  intros Ht. destruct ev as [line t1 t2|now|a]; simpl.
  - unfold handle_line.
    destruct (parse_line line) as [[[a m]|]|]; simpl; [..|done].
    + by apply tidy_ingest.
    + by intros [= <-].
  - intros [= <-]. by apply tidy_check_node_activity.
  - destruct (nodes st !! a) eqn:E; intros [= <-]; [|done].
    apply tidy_click_handler; eauto.
Qed.

Lemma tidy_run evs st st' : tidy st → run evs st = Ok st' → tidy st'.
Proof.
  revert st. induction evs as [|ev evs IH]; intros st Ht; simpl.
  - by intros [= <-].
  - destruct (step ev st) as [st1|] eqn:E; [|done]. simpl.
    apply IH. by eapply tidy_step.
Qed.

Lemma tidy_init st0 : init = Ok st0 → tidy st0.
Proof.
  intros E. destruct star_init as (st0' & E' & Hs0).
  rewrite E in E'. injection E' as <-.
  unfold init in E. rewrite add_node_first in E by done. injection E as <-.
  split; [done|..]; cbn.
  - intros addr node label. destruct (decide (addr = leader_addr)) as [->|Hne].
    + rewrite !lookup_insert_eq. by intros [= <- <-].
    + rewrite lookup_insert_ne by done. by rewrite lookup_empty.
  - intros addr d. by rewrite lookup_empty.
  - by rewrite map_size_insert_None, map_size_empty.
  - done.
Qed.

Lemma run_init_tidy evs : ∃ st, run_init evs = Ok st ∧ tidy st.
Proof.
  destruct (run_init_star evs) as (st & Hrun & _). exists st. split; [done|].
  unfold run_init in Hrun. destruct init as [st0|] eqn:E0; [|done].
  simpl in Hrun. eapply tidy_run; [|done]. by apply tidy_init.
Qed.

End tidy_runs.

Section bookkeeping.
Implicit Types (st : visualizer) (addr : text) (evs : list event).

Lemma step_cases ev st st' :
  star st → step ev st = Ok st' →
  (arrival ev = None
   ∧ scene st' = scene st ∧ dom (nodes st') = dom (nodes st)
   ∧ positions st' = positions st ∧ edges st' = edges st
   ∧ message_logs st' = message_logs st ∧ last_seen st' = last_seen st)
  ∨ ∃ line a msg t_stamp t_seen,
      ev = Line_read line t_stamp t_seen ∧ arrival ev = Some a
      ∧ ingest a msg t_stamp t_seen st = Ok st'.
Proof.
  intros Hs. destruct ev as [line t1 t2|now|a]; simpl.
  - unfold handle_line.
    destruct (parse_line line) as [[[a m]|]|]; simpl; [..|done].
    + intros Hi. right. by exists line, a, m, t1, t2.
    + intros [= <-]. by left.
  - intros [= <-]. left. by rewrite check_node_activity_dom.
  - destruct (nodes st !! a); intros [= <-]; left; [|done].
    unfold click_handler. by destruct (dialogs st !! a).
Qed.

Lemma arrivals_one ev :
  arrivals [ev] = match arrival ev with Some a => [a] | None => [] end.
Proof. unfold arrivals. simpl. by destruct (arrival ev). Qed.

Lemma step_domains ev st st' :
  star st → step ev st = Ok st' →
  dom (nodes st') = dom (nodes st) ∪ list_to_set (arrivals [ev])
  ∧ dom (last_seen st') = dom (last_seen st) ∪ list_to_set (arrivals [ev])
  ∧ scene st `prefix_of` scene st'.
Proof.
  intros Hs Hstep. rewrite arrivals_one.
  destruct (step_cases _ _ _ Hs Hstep)
    as [(-> & Esc & En & _ & _ & _ & El)
       |(line & a & msg & t1 & t2 & -> & -> & Hi)].
  - cbn. rewrite En, El, Esc, !union_empty_r_L. done.
  - cbn [list_to_set]. rewrite !union_empty_r_L.
    destruct (ingest_fields _ _ _ _ _ _ Hs Hi) as (_ & _ & Es & _ & Hn).
    rewrite Es, dom_insert_L. split; [|split; [apply union_comm_L|]].
    + destruct (nodes st !! a) as [e|] eqn:Ha.
      * destruct Hn as (-> & _). apply set_eq. intros x.
        rewrite elem_of_union, elem_of_singleton, !elem_of_dom.
        split; [by left|]. intros [H| ->]; [done|eauto].
      * destruct Hn as (-> & _). rewrite dom_insert_L. apply union_comm_L.
    + destruct (nodes st !! a) as [e|] eqn:Ha.
      * by destruct Hn as (_ & _ & _ & ->).
      * destruct Hn as (_ & _ & _ & ->). by eexists.
Qed.

Lemma arrivals_cons ev evs : arrivals (ev :: evs) = arrivals [ev] ++ arrivals evs.
Proof. unfold arrivals. simpl. by destruct (arrival ev). Qed.

Lemma run_domains evs st st' :
  star st → run evs st = Ok st' →
  dom (nodes st') = dom (nodes st) ∪ list_to_set (arrivals evs)
  ∧ dom (last_seen st') = dom (last_seen st) ∪ list_to_set (arrivals evs)
  ∧ scene st `prefix_of` scene st'.
Proof.
  revert st. induction evs as [|ev evs IH]; intros st Hs Hrun.
  - injection Hrun as <-. change (arrivals []) with (@nil text).
    by rewrite list_to_set_nil, !union_empty_r_L.
  - cbn [run] in Hrun. destruct (star_step ev st Hs) as (st1 & E & Hs1).
    rewrite E in Hrun. cbn [mbind result_bind] in Hrun.
    destruct (IH _ Hs1 Hrun) as (H1 & H2 & H3).
    destruct (step_domains _ _ _ Hs E) as (G1 & G2 & G3).
    rewrite arrivals_cons, list_to_set_app_L, H1, H2, G1, G2.
    split; [by rewrite (assoc_L (∪))|]. split; [by rewrite (assoc_L (∪))|].
    by etrans.
Qed.

Lemma last_seen_step ev st st' addr :
  star st → step ev st = Ok st' →
  last_seen st' !! addr = seen_step addr (last_seen st !! addr) ev.
Proof.
  intros Hs Hstep.
  destruct (step_cases _ _ _ Hs Hstep)
    as [(Harr & _ & _ & _ & _ & _ & ->)
       |(line & a & msg & t1 & t2 & -> & Harr & Hi)].
  - destruct ev as [line t1 t2| |]; [|done..]. unfold seen_step.
    by rewrite Harr, decide_False.
  - destruct (ingest_fields _ _ _ _ _ _ Hs Hi) as (_ & _ & -> & _).
    unfold seen_step. rewrite Harr.
    destruct (decide (Some a = Some addr)) as [[= ->]|Hne].
    + by rewrite lookup_insert_eq.
    + rewrite lookup_insert_ne; [done|congruence].
Qed.

Lemma last_seen_run evs st st' addr :
  star st → run evs st = Ok st' →
  last_seen st' !! addr = foldl (seen_step addr) (last_seen st !! addr) evs.
Proof.
  revert st. induction evs as [|ev evs IH]; intros st Hs; simpl.
  - by intros [= <-].
  - destruct (star_step ev st Hs) as (st1 & E & Hs1). rewrite E. simpl.
    intros Hrun. by rewrite (IH _ Hs1 Hrun), (last_seen_step _ _ _ addr Hs E).
Qed.

Lemma init_fields st0 :
  init = Ok st0 →
  dom (nodes st0) = {[ leader_addr ]} ∧ last_seen st0 = ∅
  ∧ message_logs st0 = ∅ ∧ dialogs st0 = ∅.
Proof.
  unfold init. rewrite add_node_first by done. intros [= <-]. cbn.
  by rewrite dom_insert_L, dom_empty_L, union_empty_r_L.
Qed.

End bookkeeping.

(** X5. After [__init__] and any events the registered nodes are the leader
    and the addresses of the lines that were accepted, no more and no less
    (nothing is ever unregistered); [positions] has the same keys, [edges]
    has them but for the leader, and [message_logs] and [last_seen] have
    exactly the addresses of the accepted lines. *)
Theorem X5_registered_addresses (evs : list event) :
  ∃ st,
    run_init evs = Ok st
    ∧ dom (nodes st) = {[ leader_addr ]} ∪ list_to_set (arrivals evs)
    ∧ dom (positions st) = dom (nodes st)
    ∧ dom (edges st) = list_to_set (arrivals evs) ∖ {[ leader_addr ]}
    ∧ dom (last_seen st) = list_to_set (arrivals evs)
    ∧ dom (message_logs st) = list_to_set (arrivals evs).
Proof.
  destruct (run_init_tidy evs) as (st & Hrun & Ht). exists st.
  split; [done|]. pose proof (tidy_star _ Ht) as Hs.
  unfold run_init in Hrun. destruct init as [st0|] eqn:E0; [|done].
  simpl in Hrun. destruct star_init as (st0' & E0' & Hs0).
  rewrite E0 in E0'. injection E0' as <-.
  destruct (init_fields _ E0) as (En & El & _).
  destruct (run_domains _ _ _ Hs0 Hrun) as (H1 & H2 & _).
  rewrite En in H1. rewrite El, dom_empty_L, union_empty_l_L in H2.
  split; [done|]. split; [by apply star_dom_positions|].
  split; [|split; [done|by rewrite (tidy_keys _ Ht)]].
  rewrite (star_dom_edges _ Hs), H1. apply set_eq. intros x.
  rewrite !elem_of_difference, elem_of_union. tauto.
Qed.

Lemma last_seen_run_init evs st addr :
  run_init evs = Ok st → last_seen st !! addr = seen_at addr evs.
Proof.
  intros Hrun.
  unfold run_init in Hrun. destruct init as [st0|] eqn:E0; [|done].
  simpl in Hrun. destruct star_init as (st0' & E0' & Hs0).
  rewrite E0 in E0'. injection E0' as <-.
  destruct (init_fields _ E0) as (_ & El & _).
  rewrite (last_seen_run _ _ _ addr Hs0 Hrun), El, lookup_empty. done.
Qed.

(** X6. After [__init__] and any events, [last_seen] of an address is the
    second clock reading of the last accepted line for this address, and it
    is absent when there was none; timer ticks and clicks do not touch it. *)
Theorem X6_last_seen_is_latest (evs : list event) (addr : text) :
  ∃ st, run_init evs = Ok st ∧ last_seen st !! addr = seen_at addr evs.
Proof.
  destruct (run_init_star evs) as (st & Hrun & Hs). exists st.
  split; [done|]. by apply last_seen_run_init.
Qed.

Section moves.
Implicit Types (st : visualizer) (addr : text) (gs : list gesture)
  (moved : list text).

Lemma displaced_refl st : displaced [] st st.
Proof.
  split; [by destruct st|done|]. intros addr e e0 -> [= ->]. done.
Qed.

Lemma displaced_fields moved st0 st :
  displaced moved st0 st →
  scene st = scene st0 ∧ positions st = positions st0 ∧ edges st = edges st0
  ∧ center_node st = center_node st0 ∧ message_logs st = message_logs st0
  ∧ dialogs st = dialogs st0 ∧ last_seen st = last_seen st0
  ∧ size (nodes st) = size (nodes st0)
  ∧ ∀ addr, nodes st !! addr = None ↔ nodes st0 !! addr = None.
Proof.
  intros [Hr Hd _].
  assert (size (nodes st) = size (nodes st0)) as Hsz
    by by rewrite <- !(size_dom (D := gset text)), Hd.
  assert (∀ addr, nodes st !! addr = None ↔ nodes st0 !! addr = None) as Hn
    by (intros addr; by rewrite <- !not_elem_of_dom, Hd).
  rewrite Hr. cbn [scene positions edges center_node message_logs dialogs
    last_seen nodes set_nodes]. done.
Qed.

Lemma displaced_move moved st0 st addr pos :
  displaced moved st0 st →
  displaced (moved ++ [addr]) st0 (move_item addr pos st).
Proof.
  intros [Hr Hd He]. split.
  - rewrite Hr at 1. done.
  - unfold move_item. cbn [nodes set_nodes]. by rewrite dom_alter_L.
  - intros a e e0. unfold move_item. cbn [nodes set_nodes].
    destruct (decide (a = addr)) as [->|Hne].
    + rewrite lookup_alter_eq. destruct (nodes st !! addr) as [e1|] eqn:E1;
        [|done]. intros [= <-] H0.
      destruct (He addr e1 e0 E1 H0) as (H1 & H2 & H3 & _).
      split; [done|]. split; [done|]. split; [done|].
      intros Hn. destruct Hn. apply elem_of_app. right. set_solver.
    + rewrite lookup_alter_ne by done. intros H H0.
      destruct (He a e e0 H H0) as (H1 & H2 & H3 & H4).
      split; [done|]. split; [done|]. split; [done|].
      intros Hn. apply H4. intros Hin. apply Hn, elem_of_app. by left.
Qed.

Lemma displaced_set_nodes moved st0 n :
  dom n = dom (nodes st0) →
  (∀ addr e e0, n !! addr = Some e → nodes st0 !! addr = Some e0 →
                same_entry moved addr e e0) →
  displaced moved st0 (set_nodes (fun _ => n) st0).
Proof. intros Hd He. by split. Qed.

Lemma add_message_set_nodes f addr ts msg st :
  add_message addr ts msg (set_nodes f st)
  = set_nodes f (add_message addr ts msg st).
Proof.
  unfold add_message. cbn.
  destruct (message_logs st !! addr); cbn; destruct (dialogs st !! addr); done.
Qed.

Lemma click_handler_set_nodes f addr st :
  click_handler addr (set_nodes f st) = set_nodes f (click_handler addr st).
Proof. unfold click_handler. cbn. by destruct (dialogs st !! addr). Qed.

Lemma displaced_logged moved st0 st addr ts msg t_seen :
  displaced moved st0 st →
  displaced moved (set_last_seen <[addr := t_seen]> (add_message addr ts msg st0))
            (set_last_seen <[addr := t_seen]> (add_message addr ts msg st)).
Proof.
  intros [Hr Hd He]. rewrite Hr. rewrite add_message_set_nodes.
  pose proof (add_message_rest st0 addr ts msg) as (_ & Hn & _).
  cbv zeta in Hn.
  change (set_last_seen ?f (set_nodes ?g ?x))
    with (set_nodes g (set_last_seen f x)).
  apply (displaced_set_nodes moved
           (set_last_seen <[addr := t_seen]> (add_message addr ts msg st0))).
  - cbn [nodes set_last_seen]. by rewrite Hn.
  - cbn [nodes set_last_seen]. rewrite Hn. apply He.
Qed.

Lemma displaced_registered moved st0 st addr pc :
  displaced moved st0 st →
  displaced moved (registered addr pc st0) (registered addr pc st).
Proof.
  intros Hd. destruct (displaced_fields _ _ _ Hd)
    as (Hsc & Hp & He & Hc & Hm & Hdl & Hl & Hsz & _).
  destruct Hd as [Hr Hd Hent].
  split.
  - unfold registered, set_nodes. cbn [nodes scene positions edges center_node
      message_logs dialogs last_seen]. by rewrite Hsc, Hp, He, Hc, Hm, Hdl, Hl, Hsz.
  - unfold registered. cbn [nodes]. by rewrite !dom_insert_L, Hd.
  - intros a e e0. unfold registered. cbn [nodes]. rewrite Hsz.
    destruct (decide (a = addr)) as [->|Hne].
    + rewrite !lookup_insert_eq. by intros [= <-] [= <-].
    + rewrite !lookup_insert_ne by done. apply Hent.
Qed.

Lemma displaced_ingest moved st0 st addr msg t_stamp t_seen :
  star st0 → displaced moved st0 st →
  ∃ st0' st',
    ingest addr msg t_stamp t_seen st0 = Ok st0'
    ∧ ingest addr msg t_stamp t_seen st = Ok st'
    ∧ displaced moved st0' st'.
Proof.
  intros Hs Hd. destruct (displaced_fields _ _ _ Hd)
    as (_ & Hp & _ & Hc & _ & _ & _ & _ & Hnone).
  destruct (nodes st0 !! addr) as [e0|] eqn:Hn0.
  - assert (is_Some (nodes st !! addr)) as Hn.
    { destruct (nodes st !! addr) eqn:E; [eauto|].
      apply Hnone in E. congruence. }
    rewrite !ingest_known by eauto. eexists _, _.
    split; [done|]. split; [done|]. by apply displaced_logged.
  - assert (nodes st !! addr = None) as Hn by by apply Hnone.
    destruct (star_fresh _ _ Hs Hn0) as (Hne & _ & _).
    rewrite ingest_fresh by done. unfold ingest.
    rewrite (add_node_fresh st addr leader_addr CENTER_POS); [|..|done|done].
    2: { rewrite Hc. by apply star_center. }
    2: { rewrite Hp. by apply star_leader_pos. }
    cbn [mbind result_bind]. eexists _, _.
    split; [done|]. split; [done|].
    by apply displaced_logged, displaced_registered.
Qed.

Lemma check_one_same_entry moved st0 st now addr e e0 :
  center_node st = center_node st0 → last_seen st = last_seen st0 →
  same_entry moved addr e e0 →
  same_entry moved addr (check_one st now addr e) (check_one st0 now addr e0).
Proof.
  intros Hc Hl H. unfold check_one. rewrite Hc, Hl.
  destruct (decide _); [done|].
  destruct (last_seen st0 !! addr); [|done].
  unfold same_entry in *. destruct (total_seconds_gt _ _); cbn; tauto.
Qed.

Lemma displaced_check_node_activity moved st0 st now :
  displaced moved st0 st →
  displaced moved (check_node_activity now st0) (check_node_activity now st).
Proof.
  intros Hd. destruct (displaced_fields _ _ _ Hd)
    as (Hsc & Hp & He & Hc & Hm & Hdl & Hl & _ & _).
  destruct Hd as [Hr Hd Hent]. split.
  - unfold check_node_activity, set_nodes. cbn [nodes scene positions edges
      center_node message_logs dialogs last_seen].
    by rewrite Hsc, Hp, He, Hc, Hm, Hdl, Hl.
  - by rewrite !check_node_activity_dom.
  - intros a e e0. rewrite !check_node_activity_lookup.
    destruct (nodes st !! a) as [e1|] eqn:E1; [|done].
    destruct (nodes st0 !! a) as [e2|] eqn:E2; [|done].
    cbn. intros [= <-] [= <-].
    apply check_one_same_entry; [done..|]. by apply (Hent a).
Qed.

Lemma displaced_click_handler moved st0 st addr :
  displaced moved st0 st →
  displaced moved (click_handler addr st0) (click_handler addr st).
Proof.
  intros [Hr Hd He]. rewrite Hr, click_handler_set_nodes.
  assert (nodes (click_handler addr st0) = nodes st0) as Hn
    by (unfold click_handler; by destruct (dialogs st0 !! addr)).
  apply (displaced_set_nodes moved (click_handler addr st0)); rewrite Hn; done.
Qed.

Lemma displaced_step moved ev st0 st :
  star st0 → displaced moved st0 st →
  ∃ st0' st',
    step ev st0 = Ok st0' ∧ step ev st = Ok st' ∧ star st0'
    ∧ displaced moved st0' st'.
Proof.
  intros Hs Hd. destruct (star_step ev st0 Hs) as (st0' & E0 & Hs').
  exists st0'. destruct ev as [line t1 t2|now|addr]; cbn [step] in *.
  - unfold handle_line in *.
    destruct (parse_line line) as [[[a m]|]|]; cbn [mbind result_bind] in *;
      [..|done].
    + destruct (displaced_ingest moved st0 st a m t1 t2 Hs Hd)
        as (st1 & st' & E1 & E & Hd').
      rewrite E0 in E1. injection E1 as <-. by exists st'.
    + injection E0 as <-. by exists st.
  - injection E0 as <-. eexists. split; [done|]. split; [done|].
    split; [done|]. by apply displaced_check_node_activity.
  - destruct (displaced_fields _ _ _ Hd) as (_ & _ & _ & _ & _ & _ & _ & _ & Hn).
    destruct (nodes st0 !! addr) as [e0|] eqn:E.
    + destruct (nodes st !! addr) as [e|] eqn:E'.
      2: { apply Hn in E'. congruence. }
      injection E0 as <-. eexists. split; [done|]. split; [done|].
      split; [done|]. by apply displaced_click_handler.
    + apply Hn in E. rewrite E. injection E0 as <-. by exists st.
Qed.

Lemma events_of_cons_event ev gs : events_of (Event ev :: gs) = ev :: events_of gs.
Proof. done. Qed.

Lemma displaced_run gs moved st0 st :
  star st0 → displaced moved st0 st →
  ∃ st0' st',
    run (events_of gs) st0 = Ok st0' ∧ run_gestures gs st = Ok st'
    ∧ star st0' ∧ displaced (moved ++ moved_items gs) st0' st'.
Proof.
  revert moved st0 st.
  induction gs as [|[ev|addr pos] gs IH]; intros moved st0 st Hs Hd.
  - exists st0, st. by rewrite app_nil_r.
  - rewrite events_of_cons_event. cbn [run run_gestures step_gesture].
    destruct (displaced_step moved ev st0 st Hs Hd)
      as (st1 & st1' & -> & -> & Hs1 & Hd1).
    cbn [mbind result_bind]. by apply IH.
  - change (events_of (Mouse_move addr pos :: gs)) with (events_of gs).
    change (moved_items (Mouse_move addr pos :: gs))
      with ([addr] ++ moved_items gs).
    cbn [run_gestures step_gesture mbind result_bind].
    rewrite app_assoc. apply IH; [done|]. by apply displaced_move.
Qed.

Lemma run_init_gestures_displaced gs :
  ∃ st0 st,
    run_init (events_of gs) = Ok st0 ∧ run_init_gestures gs = Ok st
    ∧ tidy st0 ∧ displaced (moved_items gs) st0 st.
Proof.
  unfold run_init, run_init_gestures.
  destruct star_init as (st1 & E1 & Hs1). rewrite E1.
  cbn [mbind result_bind].
  destruct (displaced_run gs [] st1 st1 Hs1 (displaced_refl st1))
    as (st0 & st & E0 & E & _ & Hd).
  exists st0, st. split; [done|]. split; [done|]. split; [|done].
  eapply tidy_run; [|done]. by apply tidy_init.
Qed.

(** What a step does to an entry of [nodes], in any state. *)
Lemma draw_connection_nodes addr st st' :
  draw_connection addr st = Ok st' → nodes st' = nodes st.
Proof.
  unfold draw_connection. destruct (center_node st) as [c|]; [|by intros [= <-]].
  destruct (decide (addr = c)); [by intros [= <-]|].
  destruct (subscript (positions st) addr); [|done].
  destruct (subscript (positions st) c); [|done].
  cbn [mbind result_bind]. intros [= <-].
  by destruct (edges st !! addr).
Qed.

Lemma add_node_entry a st st' addr e :
  add_node a st = Ok st' → nodes st !! addr = Some e →
  nodes st' !! addr = Some e.
Proof.
  unfold add_node. destruct (nodes st !! a) eqn:Ha; [by intros [= <-]|].
  intros H He. assert (a ≠ addr) as Hne by congruence.
  destruct (center_node st) as [c|]; cbv beta iota zeta in H.
  all: match type of H with
       | (if ?d then _ else _) = _ => destruct d
       end;
    [injection H as <-|apply draw_connection_nodes in H; rewrite H];
    cbn [nodes set_positions set_nodes set_scene set_center_node];
    by rewrite lookup_insert_ne.
Qed.

Lemma step_entry ev st st' addr e :
  step ev st = Ok st' → nodes st !! addr = Some e →
  ∃ e', nodes st' !! addr = Some e' ∧ item_pos e'.1 = item_pos e.1
        ∧ item_data e'.1 = item_data e.1 ∧ e'.2 = e.2.
Proof.
  destruct ev as [line t1 t2|now|a]; cbn [step].
  - unfold handle_line. destruct (parse_line line) as [[[a m]|]|];
      cbn [mbind result_bind]; [..|done].
    + unfold ingest. destruct (add_node a st) as [st1|] eqn:E1; [|done].
      cbn [mbind result_bind]. intros [= <-] He. exists e.
      cbn [nodes set_last_seen].
      pose proof (add_message_rest st1 a (strftime_HMS t1) m) as (_ & -> & _).
      split; [|done]. by eapply add_node_entry.
    + intros [= <-]. eauto.
  - intros [= <-] He. rewrite check_node_activity_lookup, He. cbn.
    eexists. split; [done|]. apply check_one_fields.
  - destruct (nodes st !! a); intros [= <-]; [|eauto].
    unfold click_handler. destruct (dialogs st !! a); eauto.
Qed.

Lemma run_gestures_entry gs st st' addr e :
  run_gestures gs st = Ok st' → nodes st !! addr = Some e →
  ∃ e', nodes st' !! addr = Some e' ∧ item_data e'.1 = item_data e.1
        ∧ e'.2 = e.2
        ∧ (addr ∉ moved_items gs → item_pos e'.1 = item_pos e.1).
Proof.
  revert st e. induction gs as [|[ev|a pos] gs IH]; intros st e.
  - intros [= <-]. eauto.
  - cbn [run_gestures step_gesture].
    destruct (step ev st) as [st1|] eqn:E1; [|done]. cbn [mbind result_bind].
    intros Hrun He.
    destruct (step_entry _ _ _ _ _ E1 He) as (e1 & He1 & Hp & Hd & Hl).
    destruct (IH _ _ Hrun He1) as (e' & He' & Hd' & Hl' & Hp').
    exists e'. split; [done|]. split; [congruence|]. split; [congruence|].
    intros Hn. rewrite Hp'; done.
  - cbn [run_gestures step_gesture mbind result_bind]. intros Hrun He.
    change (moved_items (Mouse_move a pos :: gs)) with (a :: moved_items gs).
    destruct (decide (addr = a)) as [->|Hne].
    + assert (nodes (move_item a pos st) !! a = Some (set_pos pos e.1, e.2))
        as He1 by (unfold move_item; cbn; by rewrite lookup_alter_eq, He).
      destruct (IH _ _ Hrun He1) as (e' & He' & Hd' & Hl' & _).
      exists e'. split; [done|]. split; [done|]. split; [done|].
      intros Hn. destruct Hn. left.
    + assert (nodes (move_item a pos st) !! addr = Some e) as He1
        by (unfold move_item; cbn; by rewrite lookup_alter_ne).
      destruct (IH _ _ Hrun He1) as (e' & He' & Hd' & Hl' & Hp').
      exists e'. split; [done|]. split; [done|]. split; [done|].
      intros Hn. apply Hp'. intros Hin. apply Hn. by right.
Qed.

(** The tables of places and of lines keep what they have. *)
Lemma run_keeps_tables evs st1 st2 :
  star st1 → run evs st1 = Ok st2 →
  positions st1 ⊆ positions st2 ∧ edges st1 ⊆ edges st2.
Proof.
  intros Hs1 Hrun.
  assert (star st2) as Hs2.
  { destruct (star_run evs st1 Hs1) as (st & E & Hs). rewrite Hrun in E.
    by injection E as ->. }
  assert (∀ a p, positions st1 !! a = Some p → positions st2 !! a = Some p)
    as Hpos.
  { intros a p Hp. rewrite (positions_run _ _ _ Hs1 Hrun).
    by apply layout_keep. }
  split; [by apply map_subseteq_spec|].
  apply map_subseteq_spec. intros a l Hl.
  assert (a ∈ dom (edges st1)) as Hin by (apply elem_of_dom; eauto).
  rewrite (star_dom_edges _ Hs1), elem_of_difference, elem_of_singleton in Hin.
  destruct Hin as [Hn Ha]. rewrite <- (star_dom_positions _ Hs1) in Hn.
  apply elem_of_dom in Hn as [p Hp].
  rewrite (star_edge _ Hs1 a p Ha Hp) in Hl. injection Hl as <-.
  apply (star_edge _ Hs2); [done|]. by apply Hpos.
Qed.

End moves.

(** A line from [fd00::1], then its ellipse is moved to (10, 20): the ellipse
    is there, the record of its place and its label are where they were. *)
Lemma moved_ellipse_example :
  let addr := str "fd00::1" in
  let pos := QPointF (F_int 10) (F_int 20) in
  let gs := [Event (Line_read (str "8 bytes from fd00::1 ping") 0 0);
             Event (Mouse_press addr); Mouse_move addr pos] in
  let st := state_of (run_init_gestures gs) in
  run_init_gestures gs = Ok st
  ∧ (item_pos <$> (fst <$> nodes st !! addr)) = Some pos
  ∧ positions st !! addr = Some (circle_pos 1)
  ∧ (label_pos <$> (snd <$> nodes st !! addr))
    = Some (point_add (circle_pos 1)
              (QPointF (F_int (NODE_RADIUS + 5)) (F_int (-5))))
  ∧ edges st !! addr = Some (connection_line (circle_pos 1) CENTER_POS).
Proof.
  intros addr pos gs st.
  split; [apply is_ok_state_of; vm_compute; reflexivity|].
  split; [vm_compute; reflexivity|].
  split; [vm_compute; reflexivity|].
  split; vm_compute; reflexivity.
Qed.

(** X7. In every state reached from [__init__], by lines, ticks, clicks and
    moves of ellipses, the entry of an address in [nodes] is the ellipse that
    carries this address as its data, with a label that shows the last four
    characters of the address and sits at the offset [(NODE_RADIUS + 5, -5)]
    from the position recorded in [positions]; the ellipse is orange for the
    leader only. The ellipse itself is at the recorded position as long as
    it has not been moved with the mouse; a move is not recorded, and the
    label does not follow. *)
Theorem X7_node_entries (gs : list gesture) :
  ∃ st,
    run_init_gestures gs = Ok st
    ∧ ∀ addr node label,
        nodes st !! addr = Some (node, label) →
        item_data node = addr
        ∧ label_text label = last4 addr
        ∧ (length (label_text label) ≤ 4)%nat
        ∧ (brush node = Orange ↔ addr = leader_addr)
        ∧ ∃ pos,
            positions st !! addr = Some pos
            ∧ label_pos label
              = point_add pos (QPointF (F_int (NODE_RADIUS + 5)) (F_int (-5)))
            ∧ (addr ∉ moved_items gs → item_pos node = pos).
Proof.
  destruct (run_init_gestures_displaced gs) as (st0 & st & _ & Hrun & Ht & Hd).
  exists st. split; [done|]. intros addr node label Hn.
  destruct (displaced_fields _ _ _ Hd) as (_ & Hp & _ & _ & _ & _ & _ & _ & Hnone).
  destruct (nodes st0 !! addr) as [[node0 label0]|] eqn:Hn0.
  2: { apply Hnone in Hn0. congruence. }
  destruct (displaced_entry _ _ _ Hd addr _ _ Hn Hn0) as (Hb & Hdat & Hl & Hpos).
  cbn [fst snd] in Hb, Hdat, Hl, Hpos. subst label0.
  destruct (tidy_entry _ Ht addr node0 label Hn0) as (H1 & -> & H3).
  pose proof (tidy_star _ Ht) as Hs.
  split; [congruence|]. split; [done|]. split.
  { cbn [label_text label_of]. unfold last4. rewrite length_skipn. lia. }
  split.
  - rewrite Hb. split.
    + intros Hor. destruct (decide (addr = leader_addr)) as [|Hne]; [done|].
      destruct (star_brush _ Hs addr node0 _ Hne Hn0) as [[E|E] _]; congruence.
    + intros ->. destruct (star_leader _ Hs) as [l Hl].
      rewrite Hl in Hn0. by injection Hn0 as <- _.
  - exists (item_pos node0). rewrite Hp. split; [done|]. split; [done|].
    exact Hpos.
Qed.

(** X8. The scene only grows: along any events from a state reached from
    [__init__] the items of the scene stay where they are and new ones come
    after them (the [removeItem] of [draw_connection] never runs), and the
    scene always holds three items for each node but the leader, which has
    two. *)
Theorem X8_scene_grows (evs1 evs2 : list event) :
  ∃ st1 st2,
    run_init evs1 = Ok st1 ∧ run evs2 st1 = Ok st2
    ∧ scene st1 `prefix_of` scene st2
    ∧ S (length (scene st1)) = (3 * size (nodes st1))%nat
    ∧ S (length (scene st2)) = (3 * size (nodes st2))%nat
    ∧ length (scene_nodes (scene st2)) = size (nodes st2)
    ∧ S (length (scene_lines (scene st2))) = size (nodes st2).
Proof.
  destruct (run_init_tidy evs1) as (st1 & Hrun1 & Ht1).
  pose proof (tidy_star _ Ht1) as Hs1.
  destruct (star_run evs2 st1 Hs1) as (st2 & Hrun2 & Hs2).
  pose proof (tidy_run _ _ _ Ht1 Hrun2) as Ht2.
  exists st1, st2. split; [done|]. split; [done|].
  split; [by apply (run_domains _ _ _ Hs1 Hrun2)|].
  split; [by apply tidy_scene|]. split; [by apply tidy_scene|]. split.
  - rewrite (star_scene_nodes _ Hs2). rewrite <- (size_dom (D := gset text)).
    done.
  - rewrite (star_scene_lines _ Hs2), length_fmap, length_map_to_list.
    rewrite <- !(size_dom (D := gset text)), (star_dom_edges _ Hs2).
    rewrite size_difference.
    + rewrite size_singleton. pose proof (size_nodes_pos _ Hs2) as Hp.
      rewrite <- (size_dom (D := gset text)) in Hp. lia.
    + apply singleton_subseteq_l, elem_of_dom.
      destruct (star_leader _ Hs2) as [l ->]. eauto.
Qed.

(** X9. Once a node is drawn, the record of its place, its label and its
    edge stay: along any lines, ticks, clicks and moves of ellipses from a
    state reached from [__init__], [positions] and [edges] keep every entry
    they have, and the entry of an address in [nodes] keeps its label and its
    data. The brush can change, and so can the place of the ellipse, but the
    latter only by a move of this ellipse with the mouse. *)
Theorem X9_drawing_is_kept (gs1 gs2 : list gesture) :
  ∃ st1 st2,
    run_init_gestures gs1 = Ok st1 ∧ run_gestures gs2 st1 = Ok st2
    ∧ positions st1 ⊆ positions st2
    ∧ edges st1 ⊆ edges st2
    ∧ ∀ addr node label,
        nodes st1 !! addr = Some (node, label) →
        ∃ node', nodes st2 !! addr = Some (node', label)
                 ∧ item_data node' = item_data node
                 ∧ (addr ∉ moved_items gs2 → item_pos node' = item_pos node).
Proof.
  destruct (run_init_gestures_displaced gs1)
    as (st01 & st1 & _ & Hrun1 & Ht1 & Hd1).
  destruct (displaced_run gs2 _ st01 st1 (tidy_star _ Ht1) Hd1)
    as (st02 & st2 & Hrun02 & Hrun2 & Hs2 & Hd2).
  exists st1, st2. split; [done|]. split; [done|].
  destruct (displaced_fields _ _ _ Hd1) as (_ & -> & -> & _).
  destruct (displaced_fields _ _ _ Hd2) as (_ & -> & -> & _).
  destruct (run_keeps_tables _ _ _ (tidy_star _ Ht1) Hrun02) as [Hp He].
  split; [done|]. split; [done|].
  intros addr node label Hn.
  destruct (run_gestures_entry _ _ _ _ _ Hrun2 Hn)
    as ([node' label'] & Hn' & Hdat & Hl & Hpos).
  cbn [fst snd] in Hdat, Hl, Hpos. subst label'. by exists node'.
Qed.

(** X10. A line or a click never changes how a node that exists is shown:
    [handle_line] and the click handler leave every entry of [nodes] as it
    is, brush included. So a node that has gone red stays red when its next
    line arrives; it is only [check_node_activity] that paints it again. *)
Theorem X10_lines_keep_brushes
    (evs : list event) (line : text) (t_stamp t_seen : Z) (addr : text) :
  ∃ st st1 st2,
    run_init evs = Ok st
    ∧ handle_line line t_stamp t_seen st = Ok st1
    ∧ step (Mouse_press addr) st = Ok st2
    ∧ nodes st ⊆ nodes st1
    ∧ nodes st2 = nodes st.
Proof.
  destruct (run_init_star evs) as (st & Hrun & Hs).
  destruct (star_handle_line line t_stamp t_seen st Hs) as (st1 & E1 & _).
  destruct (star_step (Mouse_press addr) st Hs) as (st2 & E2 & _).
  exists st, st1, st2. split; [done|]. split; [done|]. split; [done|]. split.
  - unfold handle_line in E1.
    destruct (parse_line line) as [[[a m]|]|]; simpl in E1; [..|done].
    + destruct (ingest_fields _ _ _ _ _ _ Hs E1) as (_ & _ & _ & _ & Hn).
      destruct (nodes st !! a) as [e|] eqn:Ha.
      * by destruct Hn as (-> & _).
      * destruct Hn as (-> & _). by apply insert_subseteq.
    + by injection E1 as <-.
  - simpl in E2. destruct (nodes st !! addr); injection E2 as <-; [|done].
    unfold click_handler. by destruct (dialogs st !! addr).
Qed.

Lemma check_one_twice st st1 now1 now2 addr entry :
  center_node st1 = center_node st → last_seen st1 = last_seen st →
  check_one st1 now2 addr (check_one st now1 addr entry)
  = check_one st now2 addr entry.
Proof.
  intros Ec El. unfold check_one. rewrite Ec, El.
  destruct (decide _); [done|].
  destruct (last_seen st !! addr); [|done].
  by destruct (total_seconds_gt (now1 - _) _), (total_seconds_gt (now2 - _) _).
Qed.

(** X11. What [check_node_activity] leaves depends on the last check only:
    a check at [now2] after a check at [now1] gives the state that the check
    at [now2] alone gives, from any state. In particular a check repeated at
    the same time changes nothing more. *)
Theorem X11_check_twice (now1 now2 : Z) (st : visualizer) :
  check_node_activity now2 (check_node_activity now1 st)
  = check_node_activity now2 st
  ∧ check_node_activity now1 (check_node_activity now1 st)
    = check_node_activity now1 st.
Proof.
  assert (∀ n1 n2, check_node_activity n2 (check_node_activity n1 st)
                   = check_node_activity n2 st) as H; [|by split].
  intros n1 n2. unfold check_node_activity at 1 3. unfold set_nodes.
  cbn [scene positions edges center_node message_logs dialogs last_seen
       check_node_activity set_nodes]. f_equal.
  apply map_eq. intros a. rewrite map_lookup_imap, check_node_activity_lookup.
  rewrite map_lookup_imap. destruct (nodes st !! a) as [e|]; [|done].
  cbn. f_equal. by apply check_one_twice.
Qed.

(** X12. After [__init__], any events and then a timer tick at [now], every
    node but the leader has had a line, and it is red exactly when more than
    [INACTIVE_TIMEOUT] seconds lie between the second clock reading of its
    last line and [now]; otherwise it is sky blue, whatever it was before. *)
Theorem X12_stale_after_tick (evs : list event) (now : Z) :
  ∃ st,
    run_init (evs ++ [Status_timer now]) = Ok st
    ∧ ∀ addr node label,
        nodes st !! addr = Some (node, label) → addr ≠ leader_addr →
        ∃ last_time,
          seen_at addr evs = Some last_time
          ∧ brush node
            = if bool_decide (now - last_time ≤ INACTIVE_TIMEOUT * 1000000)
              then Skyblue else Red.
Proof.
  destruct (run_init_star evs) as (st1 & Hrun1 & Hs1).
  exists (check_node_activity now st1). split.
  { unfold run_init in *. destruct init as [st0|]; [|done]. simpl in *.
    rewrite run_app, Hrun1. done. }
  intros addr node label. rewrite check_node_activity_lookup.
  destruct (nodes st1 !! addr) as [[n0 l0]|] eqn:Hn; [|done].
  cbn [fmap option_fmap option_map]. intros E Hne.
  destruct (star_seen _ Hs1 addr Hne) as [t Ht]; [eauto|].
  exists t. split; [by rewrite <- (last_seen_run_init _ _ _ Hrun1)|].
  unfold check_one in E. rewrite (star_center _ Hs1), Ht in E.
  rewrite decide_False in E by congruence. unfold total_seconds_gt in E.
  destruct (Z.ltb_spec (INACTIVE_TIMEOUT * 1000000) (now - t)).
  - injection E as <- _. by rewrite bool_decide_eq_false_2 by lia.
  - injection E as <- _. by rewrite bool_decide_eq_true_2 by lia.
Qed.

(** X13. A dialog shows the history: in every state reached from
    [__init__], the dialog of an address, if it is open, belongs to a
    registered node, has the title ["Messages from "] and the last four
    characters of the address, and its table holds the records of
    [message_logs] for the address, all of them and in their order. The
    first click on a node opens such a dialog, and a second click changes
    nothing. *)
Theorem X13_dialog_shows_history (evs : list event) :
  ∃ st,
    run_init evs = Ok st
    ∧ (∀ addr d, dialogs st !! addr = Some d →
         is_Some (nodes st !! addr)
         ∧ window_title d = str "Messages from " ++ last4 addr
         ∧ table d = history st addr)
    ∧ (∀ addr, dialogs (click_handler addr st) !! addr
               = Some (Dialog (str "Messages from " ++ last4 addr)
                         (history st addr)))
    ∧ (∀ addr, click_handler addr (click_handler addr st)
               = click_handler addr st).
Proof.
  destruct (run_init_tidy evs) as (st & Hrun & Ht). exists st.
  pose proof (tidy_star _ Ht) as Hs. split; [done|]. split; [|split].
  - intros addr d Hd. rewrite (tidy_dialog _ Ht addr d Hd). split; [|done].
    apply elem_of_dom, (star_dialogs _ Hs), elem_of_dom. eauto.
  - intros addr. unfold click_handler.
    destruct (dialogs st !! addr) as [d|] eqn:Hd.
    + by rewrite Hd, (tidy_dialog _ Ht addr d Hd).
    + cbn [dialogs set_dialogs]. by rewrite lookup_insert_eq, dialog_rows.
  - intros addr. unfold click_handler at 1.
    destruct (dialogs (click_handler addr st) !! addr) eqn:E; [done|].
    unfold click_handler in E. destruct (dialogs st !! addr) eqn:Hd.
    + congruence.
    + cbn [dialogs set_dialogs] in E. by rewrite lookup_insert_eq in E.
Qed.

Section redraw.
Implicit Types (st : visualizer) (addr : text).

Lemma remove_item_perm x (l : list scene_item) :
  x ∈ l → x :: remove_item x l ≡ₚ l.
Proof.
  induction l as [|y l IH]; [by intros ?%elem_of_nil|].
  simpl. destruct (decide (x = y)) as [->|Hne]; [done|].
  intros [->|Hin]%elem_of_cons; [done|].
  rewrite Permutation_swap. by rewrite IH.
Qed.

Lemma scene_lines_elem (sc : list scene_item) l :
  l ∈ scene_lines sc → Scene_line l ∈ sc.
Proof.
  unfold scene_lines. rewrite list_elem_of_omap.
  intros ([a|lb|l'] & Hin & E); try done. by injection E as ->.
Qed.

End redraw.

(** X14. Drawing a connection again. In a state reached from [__init__],
    [draw_connection] for a registered node other than the leader takes its
    line off the scene and puts the same line back: [edges] is as before and
    the scene holds the same items; for the leader it does nothing; for an
    address that is not registered it raises [KeyError] with that address. *)
Theorem X14_draw_connection_again (evs : list event) (addr : text) :
  ∃ st,
    run_init evs = Ok st
    ∧ match nodes st !! addr with
      | Some _ =>
          ∃ st', draw_connection addr st = Ok st'
                 ∧ edges st' = edges st ∧ scene st' ≡ₚ scene st
                 ∧ nodes st' = nodes st ∧ positions st' = positions st
                 ∧ (addr = leader_addr → st' = st)
      | None => draw_connection addr st = Raise (KeyError addr)
      end.
Proof.
  destruct (run_init_star evs) as (st & Hrun & Hs). exists st.
  split; [done|]. unfold draw_connection. rewrite (star_center _ Hs).
  destruct (nodes st !! addr) as [e|] eqn:Hn.
  - destruct (decide (addr = leader_addr)) as [->|Hne]; [by exists st|].
    assert (addr ∈ dom (positions st)) as [p Hp]%elem_of_dom.
    { rewrite (star_dom_positions _ Hs). apply elem_of_dom. eauto. }
    unfold subscript. rewrite Hp, (star_leader_pos _ Hs).
    cbn [mbind result_bind]. pose proof (star_edge _ Hs addr p Hne Hp) as He.
    rewrite He. eexists. split; [done|].
    cbn [edges scene nodes positions set_scene set_edges].
    split; [by apply insert_id|]. split; [|done].
    rewrite <- Permutation_cons_append. apply remove_item_perm.
    apply scene_lines_elem. rewrite (star_scene_lines _ Hs).
    apply list_elem_of_fmap. exists (addr, connection_line p CENTER_POS).
    split; [done|]. by apply elem_of_map_to_list.
  - destruct (star_fresh _ _ Hs Hn) as (Hne & _ & Hp).
    rewrite decide_False by done. unfold subscript. by rewrite Hp.
Qed.

Section serial.
Implicit Types (st : visualizer) (input : list (text * Z * Z)).

Lemma read_loop_star input ending lines st :
  star st →
  ∃ st', run (handled input) st = Ok st' ∧ star st'
         ∧ read_loop input ending lines st
           = match ending with
             | Port_idle => Loop_done (lines ++ shown_lines input) st'
             | Port_raises what => Loop_raised (From_port what) st'
             end.
Proof.
  revert lines st. induction input as [|[[raw t1] t2] input IH];
    intros lines st Hs.
  - exists st. rewrite app_nil_r. split; [done|]. split; [done|].
    by destruct ending.
  - unfold handled, shown_lines. cbn [omap list_omap read_loop fst snd].
    fold (handled input). fold (shown_lines input).
    destruct (strip raw) as [|c line] eqn:E.
    + apply IH; done.
    + destruct (star_handle_line (c :: line) t1 t2 st Hs) as (st1 & E1 & Hs1).
      rewrite E1. cbn [run step mbind result_bind]. rewrite E1.
      cbn [mbind result_bind].
      destruct (IH (lines ++ [c :: line]) st1 Hs1) as (st' & Hrun & Hs' & Hloop).
      exists st'. split; [done|]. split; [done|]. rewrite Hloop.
      by rewrite <- app_assoc.
Qed.

Lemma shown_lines_trimmed input :
  Forall (fun line => line ≠ [] ∧ strip line = line) (shown_lines input).
Proof.
  induction input as [|[[raw t1] t2] input IH]; [constructor|].
  unfold shown_lines. cbn [omap list_omap fst]. fold (shown_lines input).
  destruct (strip raw) as [|c line] eqn:E; [done|].
  constructor; [|done]. split; [done|]. rewrite <- E. apply strip_idem.
Qed.

End serial.

Lemma read_serial_star input ending st is_open out bar txt shown con :
  star st →
  ∃ st', run (handled input) st = Ok st' ∧ star st'
    ∧ read_serial input ending (Window st is_open out bar txt shown con)
      = match ending with
        | Port_idle =>
            Window st' is_open out bar
              (match shown_lines input with [] => txt | ls => join_lines ls end)
              (match shown_lines input with [] => shown | _ => true end)
              con
        | Port_raises what =>
            Window st' is_open out bar txt shown
              (con ++ [Printed_serial_error (From_port what)])
        end.
Proof.
  intros Hs.
  destruct (read_loop_star input ending [] st Hs) as (st' & Hrun & Hs' & Hloop).
  exists st'. split; [done|]. split; [done|].
  unfold read_serial. cbn [visualizer_of serial_is_open serial_out input_bar
    response_text response_shown console]. rewrite Hloop.
  destruct ending; [|done]. cbn [app]. by destruct (shown_lines input).
Qed.

(** X15. [read_serial] on a visualizer reached from [__init__]. Nothing that
    [handle_line] does raises, so the [except] branch is entered only when
    the port itself raises. Either way the reads that are not blank after
    stripping are handed, stripped, to [handle_line] in the order read. When
    the poll ends because nothing is waiting, these lines are shown, joined
    by newlines, in the response label (the label is left as it is when
    every read was blank), and nothing is printed. When the port raises, the
    lines read before it have been handled all the same, but the label is
    not touched, and one line [Serial error: ...] with the text of the port's
    exception is printed. The port and the input bar are not touched. *)
Theorem X15_read_serial
    (evs : list event) (input : list (text * Z * Z)) (ending : port_end)
    (is_open : bool) (out : list (list Byte.byte)) (bar txt : text)
    (shown : bool) (con : list console_line) :
  ∃ st st',
    run_init evs = Ok st
    ∧ run (handled input) st = Ok st'
    ∧ read_serial input ending (Window st is_open out bar txt shown con)
      = match ending with
        | Port_idle =>
            Window st' is_open out bar
              (match shown_lines input with [] => txt | ls => join_lines ls end)
              (match shown_lines input with [] => shown | _ => true end)
              con
        | Port_raises what =>
            Window st' is_open out bar txt shown
              (con ++ [Printed_serial_error (From_port what)])
        end
    ∧ Forall (fun line => line ≠ [] ∧ strip line = line) (shown_lines input)
    ∧ (Forall (fun r : text * Z * Z => forallb isspace r.1.1 = true) input →
       read_serial input Port_idle (Window st is_open out bar txt shown con)
       = Window st is_open out bar txt shown con).
Proof.
  destruct (run_init_star evs) as (st & Hrun & Hs).
  destruct (read_serial_star input ending st is_open out bar txt shown con Hs)
    as (st' & Hrun' & _ & Hread).
  exists st, st'. split; [done|]. split; [done|]. split; [done|].
  split; [apply shown_lines_trimmed|].
  intros Hblank.
  destruct (read_serial_star input Port_idle st is_open out bar txt shown con
              Hs) as (st'' & Hrun'' & _ & ->).
  assert (handled input = [] ∧ shown_lines input = []) as [Eh Es].
  { clear -Hblank. induction Hblank as [|[[raw t1] t2] input Hr _ IH]; [done|].
    unfold handled, shown_lines in *. cbn [omap list_omap fst snd] in *.
    apply strip_nil_iff in Hr. cbn [fst] in Hr. rewrite Hr. done. }
  rewrite Eh in Hrun''. injection Hrun'' as <-. by rewrite Es.
Qed.

Lemma encode_app s t : encode (s ++ t) = encode s ++ encode t.
Proof. unfold encode. apply flat_map_app. Qed.

(** X16. [send_serial_command]. If the input bar holds nothing but
    whitespace, nothing happens and the bar keeps its text. Otherwise the bar
    is cleared, whether the port is open or not. With the port open, one
    write is made: the UTF-8 bytes of the stripped text, which is not empty
    and has no whitespace at its ends, followed by CR and LF, and the command
    is printed; with the port closed the command is dropped, nothing is
    written and nothing is printed. The visualizer and the response label
    are left alone. *)
Theorem X16_send_serial_command (w : window) :
  let command := strip (input_bar w) in
  let w' := send_serial_command w in
  (forallb isspace (input_bar w) = true → w' = w)
  ∧ (forallb isspace (input_bar w) = false →
     input_bar w' = []
     ∧ command ≠ [] ∧ no_lead command ∧ no_trail command
     ∧ visualizer_of w' = visualizer_of w
     ∧ response_text w' = response_text w
     ∧ response_shown w' = response_shown w
     ∧ serial_is_open w' = serial_is_open w
     ∧ (if serial_is_open w
        then serial_out w'
             = serial_out w ++ [encode command ++ [Byte.x0d; Byte.x0a]]
             ∧ console w' = console w ++ [Printed_sent command]
        else serial_out w' = serial_out w ∧ console w' = console w)).
Proof.
  intros command w'. unfold w', send_serial_command. fold command. split.
  - intros H%strip_nil_iff. unfold command. by rewrite H.
  - intros H. assert (command ≠ []) as Hne.
    { intros E%strip_nil_iff. congruence. }
    destruct command as [|c cmd] eqn:E; [done|]. rewrite <- E.
    split; [done|]. split; [by rewrite E|].
    split; [unfold command; apply strip_no_lead|].
    split; [unfold command; apply strip_no_trail|].
    unfold send_command, clear_input_bar.
    destruct (serial_is_open w) eqn:Ho; cbn; rewrite ?Ho; [|done].
    rewrite encode_app. done.
Qed.

Lemma X16_witness :
  let w := Window empty_visualizer true [] (str "  state  ") [] false [] in
  forallb isspace (input_bar w) = false
  ∧ input_bar (send_serial_command w) = []
  ∧ serial_out (send_serial_command w)
    = [[Byte.x73; Byte.x74; Byte.x61; Byte.x74; Byte.x65; Byte.x0d; Byte.x0a]].
Proof.
  intros w.
  assert (forallb isspace (input_bar w) = false) as H by (vm_compute; reflexivity).
  split; [exact H|].
  destruct (proj2 (X16_send_serial_command w) H)
    as (E1 & _ & _ & _ & _ & _ & _ & _ & E2).
  split; [exact E1|]. exact (proj1 E2).
Defined.

Section stamps.

Lemma digit_inj n1 n2 :
  0 ≤ n1 ≤ 9 → 0 ≤ n2 ≤ 9 → digit n1 = digit n2 → n1 = n2.
Proof.
  intros H1 H2 E. unfold digit in E.
  apply (f_equal N_of_ascii) in E.
  rewrite !N_ascii_embedding in E by lia. lia.
Qed.

Lemma two_digits_inj n1 n2 :
  0 ≤ n1 < 100 → 0 ≤ n2 < 100 → two_digits n1 = two_digits n2 → n1 = n2.
Proof.
  intros H1 H2. unfold two_digits. intros [= Ea Eb].
  apply digit_inj in Ea, Eb; [|Z.div_mod_to_equations; lia..].
  Z.div_mod_to_equations; lia.
Qed.

End stamps.

(** X17. The time stamp of a record tells the second of the day and nothing
    else: it has eight characters, and two clock readings get the same stamp
    exactly when they fall into the same second of the day, on whatever day.
    So records that are 24 hours apart carry the same stamp. *)
Theorem X17_time_stamps (t1 t2 : Z) :
  length (strftime_HMS t1) = 8%nat
  ∧ (strftime_HMS t1 = strftime_HMS t2
     ↔ (t1 / 1000000) mod 86400 = (t2 / 1000000) mod 86400)
  ∧ strftime_HMS (t1 + 86400 * 1000000) = strftime_HMS t1.
Proof.
  split; [done|].
  assert (∀ t t', (t / 1000000) mod 86400 = (t' / 1000000) mod 86400 →
                  strftime_HMS t = strftime_HMS t') as Hsame.
  { intros t t' E. unfold strftime_HMS. by rewrite E. }
  split; [split; [|apply Hsame]|].
  - unfold strftime_HMS.
    set (s1 := (t1 / 1000000) mod 86400). set (s2 := (t2 / 1000000) mod 86400).
    assert (0 ≤ s1 < 86400) as B1 by (apply Z.mod_pos_bound; lia).
    assert (0 ≤ s2 < 86400) as B2 by (apply Z.mod_pos_bound; lia).
    clearbody s1 s2. unfold two_digits. cbn [app str list_ascii_of_string].
    intros [= E1 E2 E3 E4 E5 E6].
    apply digit_inj in E1, E2, E3, E4, E5, E6;
      [|Z.div_mod_to_equations; lia..].
    assert (s1 / 3600 = s2 / 3600) as Eh by (Z.div_mod_to_equations; lia).
    assert ((s1 / 60) mod 60 = (s2 / 60) mod 60) as Em
      by (Z.div_mod_to_equations; lia).
    assert (s1 mod 60 = s2 mod 60) as Es by (Z.div_mod_to_equations; lia).
    clear E1 E2 E3 E4 E5 E6. Z.div_mod_to_equations; lia.
  - apply Hsame. rewrite Z.div_add by lia. rewrite Z.add_mod by lia.
    rewrite Z.mod_same by lia. rewrite Z.add_0_r. by rewrite Z.mod_mod by lia.
Qed.

Lemma logged_length addr evs :
  length (flat_map (logged addr) evs)
  = length (filter (fun a => a = addr) (arrivals evs)).
Proof.
  induction evs as [|ev evs IH]; [done|].
  rewrite arrivals_cons, filter_app, length_app, <- IH. cbn [flat_map].
  rewrite length_app. f_equal. rewrite arrivals_one.
  destruct ev as [line t1 t2| |]; [|done..]. cbn [logged arrival].
  destruct (parse_line line) as [[[a m]|]|]; [|done..].
  rewrite filter_cons, filter_nil.
  destruct (decide (addr = a)) as [->|Hne].
  - by rewrite decide_True.
  - by rewrite decide_False by congruence.
Qed.

(** X18. No line is lost and none is logged twice: after [__init__] and any
    events the history of an address holds, in the order of arrival, one
    record for each accepted line that was filed under this address, made of
    the time stamp of the first clock reading and of the message, and
    nothing else. Its length is the number of these lines. *)
Theorem X18_history_is_the_lines (evs : list event) (addr : text) :
  ∃ st,
    run_init evs = Ok st
    ∧ history st addr = flat_map (logged addr) evs
    ∧ length (history st addr)
      = length (filter (fun a => a = addr) (arrivals evs)).
Proof.
  destruct (run_init_star evs) as (st & Hrun & Hs). exists st.
  split; [done|].
  assert (history st addr = flat_map (logged addr) evs) as H.
  { unfold run_init in Hrun. destruct init as [st0|] eqn:E0; [|done].
    simpl in Hrun. destruct star_init as (st0' & E0' & Hs0).
    rewrite E0 in E0'. injection E0' as <-.
    destruct (init_fields _ E0) as (_ & _ & El & _).
    rewrite (history_run _ _ _ addr Hs0 Hrun). unfold history at 1.
    by rewrite El, lookup_empty. }
  split; [done|]. rewrite H. apply logged_length.
Qed.

(** X19. The directive needs a text: a message of one word is not patched,
    even when the word is [simulate:<id>]; it is logged as it is under the
    address of the line. *)
Theorem X19_directive_needs_text (node_addr word : text) :
  forallb (fun c => negb (isspace c)) word = true →
  simulate_patch node_addr word = Ok (node_addr, word).
Proof.
  intros Hword. unfold simulate_patch.
  destruct (startswith _ _); [|done].
  destruct word as [|c word]; [done|].
  pose proof (split_ws_1_word (c :: word) [] ltac:(done) Hword I) as E.
  rewrite app_nil_r in E. rewrite E. done.
Qed.

Lemma X19_witness :
  forallb (fun c => negb (isspace c)) (str "simulate:alpha") = true
  ∧ simulate_patch (str "fd00::1") (str "simulate:alpha")
    = Ok (str "fd00::1", str "simulate:alpha").
Proof.
  assert (forallb (fun c => negb (isspace c)) (str "simulate:alpha") = true)
    as H by (vm_compute; reflexivity).
  split; [exact H|]. exact (X19_directive_needs_text (str "fd00::1") _ H).
Defined.

(* ===================================================================== *)
(** * Places and polls *)
(* ===================================================================== *)

(** X20. No two nodes are drawn at the same place while at most [MAX_NODES]
    are registered. In a state reached from [__init__] with at most twelve
    nodes, the positions of two different addresses, read over the reals,
    are more than 100 apart, so that the ellipses of diameter [NODE_RADIUS]
    drawn at them do not touch. *)
Theorem X20_places_apart
    (evs : list event) (st : visualizer) (a b : text) (pa pb : point) :
  run_init evs = Ok st →
  (size (nodes st) ≤ Z.to_nat MAX_NODES)%nat →
  a ≠ b →
  positions st !! a = Some pa →
  positions st !! b = Some pb →
  (100 ^ 2 < dist2 pa pb ∧ IZR NODE_RADIUS ^ 2 < dist2 pa pb)%R.
Proof.
  intros Hrun Hsz Hab Ha Hb.
  destruct (run_init_spread evs) as (st' & Hrun' & Hs & [Hl Ho Hi]).
  rewrite Hrun in Hrun'. injection Hrun' as <-.
  assert (size (positions st) ≤ 12)%nat as Hsz'.
  { rewrite <- (size_dom (D := gset text) (positions st)),
      (star_dom_positions _ Hs), size_dom. exact Hsz. }
  assert (100 ^ 2 < dist2 pa pb)%R as H; [|split; [exact H|]].
  2: { unfold NODE_RADIUS. lra. }
  pose proof sqrt3_bound as H3.
  destruct (decide (a = leader_addr)) as [->|Hna];
    destruct (decide (b = leader_addr)) as [->|Hnb]; [done|..].
  - rewrite Hl in Ha. injection Ha as <-.
    destruct (Ho _ _ Hnb Hb) as (j & -> & _).
    rewrite dist2_sym, dist2_center. lra.
  - rewrite Hl in Hb. injection Hb as <-.
    destruct (Ho _ _ Hna Ha) as (i & -> & _).
    rewrite dist2_center. lra.
  - destruct (Ho _ _ Hna Ha) as (i & -> & Hi1).
    destruct (Ho _ _ Hnb Hb) as (j & -> & Hj1).
    assert (i ≠ j) as Hij.
    { intros ->. apply Hab. by apply (Hi _ _ _ Ha Hb). }
    apply circle_pos_apart; [done|lia..].
Qed.

Lemma X20_witness :
  let st := state_of (run_init full_house) in
  let a := str "fd00::1" in
  let b := str "fd00::2" in
  (run_init full_house = Ok st
   ∧ (size (nodes st) ≤ Z.to_nat MAX_NODES)%nat
   ∧ a ≠ b
   ∧ positions st !! a = Some (circle_pos 1)
   ∧ positions st !! b = Some (circle_pos 2))
  ∧ (100 ^ 2 < dist2 (circle_pos 1) (circle_pos 2))%R.
Proof.
  intros st a b.
  assert (run_init full_house = Ok st) as H0
    by (apply is_ok_state_of; vm_compute; reflexivity).
  assert (size (nodes st) ≤ Z.to_nat MAX_NODES)%nat as H1
    by (apply Nat.leb_le; vm_compute; reflexivity).
  assert (a ≠ b) as H2 by discriminate.
  assert (positions st !! a = Some (circle_pos 1)) as H3
    by (vm_compute; reflexivity).
  assert (positions st !! b = Some (circle_pos 2)) as H4
    by (vm_compute; reflexivity).
  split; [exact (conj H0 (conj H1 (conj H2 (conj H3 H4))))|].
  exact (proj1 (X20_places_apart full_house st a b _ _ H0 H1 H2 H3 H4)).
Defined.

Section polls.
Implicit Types (st : visualizer) (input : list (text * Z * Z)).

Lemma handled_app input1 input2 :
  handled (input1 ++ input2) = handled input1 ++ handled input2.
Proof. unfold handled. apply omap_app. Qed.

Lemma shown_lines_app input1 input2 :
  shown_lines (input1 ++ input2) = shown_lines input1 ++ shown_lines input2.
Proof. unfold shown_lines. apply omap_app. Qed.

Lemma join_lines_length (ls : list text) :
  length (join_lines ls)
  = (list_sum (map length ls) + pred (length ls))%nat.
Proof.
  induction ls as [|l [|l' ls] IH]; [done|cbn; lia|].
  change (join_lines (l :: l' :: ls))
    with (l ++ "010"%char :: join_lines (l' :: ls)).
  rewrite length_app. cbn [length]. rewrite IH.
  cbn [map list_sum foldr length pred]. lia.
Qed.

End polls.

(** X21. Two polls of the port that end because nothing is waiting. On a
    visualizer reached from [__init__], [read_serial] run twice leaves the
    visualizer that one run over all the reads leaves; the response label is
    not added to but set anew: after the second poll it holds the lines of
    the second poll alone, unless that poll had only blank reads, in which
    case the label of the first poll stays. When both polls had a line, the
    label is shorter than the one a single poll over all the reads shows. *)
Theorem X21_polls_compose
    (evs : list event) (input1 input2 : list (text * Z * Z))
    (is_open : bool) (out : list (list Byte.byte)) (bar txt : text)
    (shown : bool) (con : list console_line) :
  ∃ st,
    run_init evs = Ok st
    ∧ let w := Window st is_open out bar txt shown con in
      let w1 := read_serial input1 Port_idle w in
      let w2 := read_serial input2 Port_idle w1 in
      let w12 := read_serial (input1 ++ input2) Port_idle w in
      visualizer_of w2 = visualizer_of w12
      ∧ response_text w2
        = match shown_lines input2 with
          | [] => response_text w1
          | ls => join_lines ls
          end
      ∧ response_text w12
        = match shown_lines input1 ++ shown_lines input2 with
          | [] => txt
          | ls => join_lines ls
          end
      ∧ (shown_lines input1 ≠ [] → shown_lines input2 ≠ [] →
         (length (response_text w2) < length (response_text w12))%nat).
Proof.
  destruct (run_init_star evs) as (st & Hrun & Hs).
  exists st. split; [done|]. intros w w1 w2 w12.
  destruct (read_serial_star input1 Port_idle st is_open out bar txt shown con
              Hs) as (st1 & Hrun1 & Hs1 & E1).
  fold w in E1. fold w1 in E1.
  destruct (read_serial_star input2 Port_idle st1 is_open out bar
              (response_text w1) (response_shown w1) con Hs1)
    as (st2 & Hrun2 & Hs2 & E2).
  assert (w2 = read_serial input2 Port_idle
                 (Window st1 is_open out bar (response_text w1)
                    (response_shown w1) con)) as Ew2.
  { unfold w2. f_equal. by rewrite E1. }
  rewrite E2 in Ew2.
  destruct (read_serial_star (input1 ++ input2) Port_idle st is_open out bar
              txt shown con Hs) as (st12 & Hrun12 & _ & E12).
  fold w in E12. fold w12 in E12.
  rewrite handled_app, run_app, Hrun1 in Hrun12.
  cbn [mbind result_bind] in Hrun12. rewrite Hrun2 in Hrun12.
  injection Hrun12 as <-. rewrite shown_lines_app in E12.
  rewrite Ew2, E12. cbn [visualizer_of response_text].
  split; [done|]. split; [done|]. split; [done|].
  intros H1 H2.
  destruct (shown_lines input1) as [|l1 ls1] eqn:F1; [done|].
  destruct (shown_lines input2) as [|l2 ls2] eqn:F2; [done|].
  cbn [app]. rewrite !join_lines_length.
  cbn [map list_sum foldr length pred].
  rewrite map_app, list_sum_app, length_app.
  cbn [map list_sum foldr length]. lia.
Qed.
